(** * Sathi snake: the fixed-timestep simulation of [game.js]

    A shallow embedding of the game logic of [src/game.js] (grid, snake,
    food placement, the discrete [step], the frame loop with its
    accumulator, the input handlers and the interpolated centers computed by
    [drawSnake]) and the properties of the specification proved about it.

    Conventions.
    - Grid coordinates and the score are JavaScript numbers that only ever
      hold small integers: they are [Z].
    - Times (timestamps, [accumulator], [eatAnimMs]) and pixel coordinates are
      JavaScript doubles; they are modelled by exact rationals [Q].
    - The module-level [let] variables of the script are the fields of one
      record [Game], threaded explicitly through every function.
    - [Math.random] is an oracle [Math_random : nat -> Q]; the state counts
      the calls made so far. The simulation uses a random number through
      the coordinate it is floored to only, and every sequence of coordinates
      is that of some oracle ([source_of_draws]).
    - A function that can throw or spin returns a [result].
    - Where a property depends on a sum or a difference of times being
      exact, it is stated for the elapsed time the frame computed
      ([elapsedFrame]) and for values on which doubles and rationals agree. *)

From Stdlib Require Import ZArith QArith Qround Qabs Qminmax List String Ascii Bool Lia Lqa.
Import ListNotations.

Open Scope Z_scope.

(** ** Outcomes *)

Inductive result (A : Type) : Type :=
| Ok (a : A)      (* the call returned *)
| TypeError       (* a property of [undefined] or [null] was read *)
| Spinning         (* [placeFood] was still looping when its budget of draws ran out *)
| OutOfFuel.      (* the bound given to the frame loop was too small *)

Arguments Ok {A} a.
Arguments TypeError {A}.
Arguments Spinning {A}.
Arguments OutOfFuel {A}.

Definition bind {A B : Type} (r : result A) (k : A -> result B) : result B :=
  match r with
  | Ok a => k a
  | TypeError => TypeError
  | Spinning => Spinning
  | OutOfFuel => OutOfFuel
  end.

Notation "x <- r ;; k" := (bind r (fun x => k))
  (at level 61, r at next level, right associativity).

(** ** Data *)

(** An object [{ x, y }]: a grid cell, or a direction as a unit delta. *)
Record Cell : Type := mkCell { px : Z; py : Z }.

(** [a.x === b.x && a.y === b.y] *)
Definition sameCell (a b : Cell) : bool := (px a =? px b) && (py a =? py b).

(** The spread copy [{ ...seg }]. *)
Definition copy (seg : Cell) : Cell := mkCell (px seg) (py seg).

Definition Right : Cell := mkCell 1 0.
Definition Left : Cell := mkCell (-1) 0.
Definition Down : Cell := mkCell 0 1.
Definition Up : Cell := mkCell 0 (-1).

Definition opposite (d : Cell) : Cell := mkCell (- px d) (- py d).

(** Game config. *)
Definition tileCount : Z := 13.
Definition baseSpeed : Z := 5.
Definition moveInterval : Q := 1000 / inject_Z baseSpeed.

(** The module-level variables of the script. *)
Record Game : Type := mkGame {
  snake : list Cell;
  previousSnake : option (list Cell);   (* [null] is [None] *)
  direction : Cell;
  nextDirection : Cell;
  food : option Cell;                   (* [null] is [None] *)
  score : Z;
  isRunning : bool;
  isGameOver : bool;
  eatAnimMs : Q;
  lastTime : Q;
  accumulator : Q;
  touchStartX : option Q;
  touchStartY : option Q;
  randomCalls : nat                     (* calls of [Math.random] so far *)
}.

(** The state once the script has been loaded. *)
Definition boot : Game :=
  mkGame [] None (mkCell 1 0) (mkCell 1 0) None 0 false false 0%Q 0%Q 0%Q None None 0%nat.

(** Assignments to one variable. *)
Definition set_snake (v : list Cell) (g : Game) : Game :=
  mkGame v (previousSnake g) (direction g) (nextDirection g) (food g) (score g)
    (isRunning g) (isGameOver g) (eatAnimMs g) (lastTime g) (accumulator g)
    (touchStartX g) (touchStartY g) (randomCalls g).
Definition set_previousSnake (v : option (list Cell)) (g : Game) : Game :=
  mkGame (snake g) v (direction g) (nextDirection g) (food g) (score g)
    (isRunning g) (isGameOver g) (eatAnimMs g) (lastTime g) (accumulator g)
    (touchStartX g) (touchStartY g) (randomCalls g).
Definition set_direction (v : Cell) (g : Game) : Game :=
  mkGame (snake g) (previousSnake g) v (nextDirection g) (food g) (score g)
    (isRunning g) (isGameOver g) (eatAnimMs g) (lastTime g) (accumulator g)
    (touchStartX g) (touchStartY g) (randomCalls g).
Definition set_nextDirection (v : Cell) (g : Game) : Game :=
  mkGame (snake g) (previousSnake g) (direction g) v (food g) (score g)
    (isRunning g) (isGameOver g) (eatAnimMs g) (lastTime g) (accumulator g)
    (touchStartX g) (touchStartY g) (randomCalls g).
Definition set_food (v : option Cell) (g : Game) : Game :=
  mkGame (snake g) (previousSnake g) (direction g) (nextDirection g) v (score g)
    (isRunning g) (isGameOver g) (eatAnimMs g) (lastTime g) (accumulator g)
    (touchStartX g) (touchStartY g) (randomCalls g).
Definition set_score (v : Z) (g : Game) : Game :=
  mkGame (snake g) (previousSnake g) (direction g) (nextDirection g) (food g) v
    (isRunning g) (isGameOver g) (eatAnimMs g) (lastTime g) (accumulator g)
    (touchStartX g) (touchStartY g) (randomCalls g).
Definition set_isRunning (v : bool) (g : Game) : Game :=
  mkGame (snake g) (previousSnake g) (direction g) (nextDirection g) (food g) (score g)
    v (isGameOver g) (eatAnimMs g) (lastTime g) (accumulator g)
    (touchStartX g) (touchStartY g) (randomCalls g).
Definition set_isGameOver (v : bool) (g : Game) : Game :=
  mkGame (snake g) (previousSnake g) (direction g) (nextDirection g) (food g) (score g)
    (isRunning g) v (eatAnimMs g) (lastTime g) (accumulator g)
    (touchStartX g) (touchStartY g) (randomCalls g).
Definition set_eatAnimMs (v : Q) (g : Game) : Game :=
  mkGame (snake g) (previousSnake g) (direction g) (nextDirection g) (food g) (score g)
    (isRunning g) (isGameOver g) v (lastTime g) (accumulator g)
    (touchStartX g) (touchStartY g) (randomCalls g).
Definition set_lastTime (v : Q) (g : Game) : Game :=
  mkGame (snake g) (previousSnake g) (direction g) (nextDirection g) (food g) (score g)
    (isRunning g) (isGameOver g) (eatAnimMs g) v (accumulator g)
    (touchStartX g) (touchStartY g) (randomCalls g).
Definition set_accumulator (v : Q) (g : Game) : Game :=
  mkGame (snake g) (previousSnake g) (direction g) (nextDirection g) (food g) (score g)
    (isRunning g) (isGameOver g) (eatAnimMs g) (lastTime g) v
    (touchStartX g) (touchStartY g) (randomCalls g).
Definition set_touchStart (vx vy : option Q) (g : Game) : Game :=
  mkGame (snake g) (previousSnake g) (direction g) (nextDirection g) (food g) (score g)
    (isRunning g) (isGameOver g) (eatAnimMs g) (lastTime g) (accumulator g)
    vx vy (randomCalls g).
Definition set_randomCalls (v : nat) (g : Game) : Game :=
  mkGame (snake g) (previousSnake g) (direction g) (nextDirection g) (food g) (score g)
    (isRunning g) (isGameOver g) (eatAnimMs g) (lastTime g) (accumulator g)
    (touchStartX g) (touchStartY g) v.

(** ** The simulation *)

(** The in-place loop [previousSnake[i].x = snake[i].x; previousSnake[i].y =
    snake[i].y] of [step], run when both arrays have the same length. *)
Fixpoint overwrite (prev cur : list Cell) : list Cell :=
  match prev, cur with
  | _ :: prev', c :: cur' => mkCell (px c) (py c) :: overwrite prev' cur'
  | _, _ => prev
  end.

(** "store previous positions", the first statement of [step]. *)
Definition storePrevious (prev : option (list Cell)) (cur : list Cell) : list Cell :=
  match prev with
  | None => map copy cur
  | Some p =>
      if negb (Nat.eqb (List.length p) (List.length cur)) then map copy cur
      else overwrite p cur
  end.

(** [gameOver()]; the overlay texts and the sound are not part of the state. *)
Definition gameOver (g : Game) : Game :=
  set_isGameOver true (set_isRunning false g).

(** The cell [step] computes from the head of [s] and the delta [d]. *)
Definition newHeadOf (s : list Cell) (d : Cell) : option Cell :=
  match s with
  | [] => None
  | head :: _ => Some (mkCell (px head + px d) (py head + py d))
  end.

(** The first [if] of [step]: the wall. *)
Definition hitsWall (c : Cell) : bool :=
  (px c <? 0) || (px c >=? tileCount) || (py c <? 0) || (py c >=? tileCount).

(** [snake.some(seg => seg.x === c.x && seg.y === c.y)] *)
Definition onSnake (s : list Cell) (c : Cell) : bool :=
  existsb (fun seg => (px seg =? px c) && (py seg =? py c)) s.

Section Simulation.

(** The value returned by the [i]-th call of [Math.random]. *)
Variable Math_random : nat -> Q.

(** [Math.floor(Math.random() * tileCount)], for the [i]-th call. *)
Definition randomCoord (i : nat) : Z :=
  Qfloor (Math_random i * inject_Z tileCount).

(** The cell drawn by one turn of the loop of [placeFood] that starts after
    [i] calls of [Math.random]. *)
Definition drawnCell (i : nat) : Cell :=
  mkCell (randomCoord i) (randomCoord (S i)).

(** [placeFood()]: [while (true)] draws a cell and returns at the first one
    that is not on the snake. [budget] bounds the number of draws. *)
Fixpoint placeFood (budget : nat) (g : Game) : result Game :=
  match budget with
  | O => Spinning
  | S budget' =>
      let x := randomCoord (randomCalls g) in
      let y := randomCoord (S (randomCalls g)) in
      let g := set_randomCalls (S (S (randomCalls g))) g in
      if negb (onSnake (snake g) (mkCell x y))
      then Ok (set_food (Some (mkCell x y)) g)
      else placeFood budget' g
  end.

(** [initGame()]; [now] is what [performance.now()] returns. *)
Definition initGame (budget : nat) (now : Q) (g : Game) : result Game :=
  let startX := tileCount / 4 in
  let startY := tileCount / 2 in
  let g := set_snake [mkCell startX startY; mkCell (startX - 1) startY;
                      mkCell (startX - 2) startY] g in
  let g := set_previousSnake (Some (map copy (snake g))) g in
  let g := set_direction (mkCell 1 0) g in
  let g := set_nextDirection (mkCell 1 0) g in
  let g := set_score 0 g in
  let g := set_eatAnimMs 0%Q g in
  g <- placeFood budget g ;;
  let g := set_isRunning true g in
  let g := set_isGameOver false g in
  let g := set_lastTime now g in
  let g := set_accumulator 0%Q g in
  Ok g.

(** [step()] *)
Definition step (budget : nat) (g : Game) : result Game :=
  let g := set_previousSnake (Some (storePrevious (previousSnake g) (snake g))) g in
  let g := set_direction (nextDirection g) g in
  match snake g with
  | [] => TypeError
  | head :: _ =>
      let newHead := mkCell (px head + px (direction g)) (py head + py (direction g)) in
      if (px newHead <? 0) || (px newHead >=? tileCount) ||
         (py newHead <? 0) || (py newHead >=? tileCount)
      then Ok (gameOver g)
      else if existsb (fun seg => (px seg =? px newHead) && (py seg =? py newHead)) (snake g)
      then Ok (gameOver g)
      else
        let g := set_snake (newHead :: snake g) g in
        match food g with
        | None => TypeError
        | Some f =>
            if (px newHead =? px f) && (py newHead =? py f)
            then
              let g := set_score (score g + 1) g in
              let g := set_eatAnimMs 200%Q g in
              placeFood budget g
            else Ok (set_snake (removelast (snake g)) g)
        end
  end.

End Simulation.

(** ** Frames *)

(** [a > b] on numbers. *)
Definition Qgt_bool (a b : Q) : bool := negb (Qle_bool a b).

(** What one call of [gameLoop] did: how many times it called [step], the
    [interp] it handed to [drawEverything] ([None] when it returned before
    drawing), and the variables it left behind. *)
Record Frame : Type := mkFrame { stepsRun : nat; drawn : option Q; after : Game }.

(** A bound on the turns of the [while] of [gameLoop] that the accumulator
    [acc] allows: every turn takes [moveInterval] away. *)
Definition loopBound (acc : Q) : nat := S (Z.to_nat (Qfloor (acc / moveInterval))).

(** The decay of the eating animation timer in [gameLoop]. *)
Definition decayEatAnim (delta : Q) (g : Game) : Game :=
  if Qgt_bool (eatAnimMs g) 0 then
    let g := set_eatAnimMs (eatAnimMs g - delta)%Q g in
    if Qgt_bool 0 (eatAnimMs g) then set_eatAnimMs 0 g else g
  else g.

Section Loop.

Variable Math_random : nat -> Q.

(** [while (accumulator >= moveInterval) { accumulator -= moveInterval;
    step(); if (!isRunning) break; }], counting the calls of [step] in [n]. *)
Fixpoint whileDue (fuel budget n : nat) (g : Game) : result (nat * Game) :=
  if Qle_bool moveInterval (accumulator g) then
    match fuel with
    | O => OutOfFuel
    | S fuel' =>
        let g := set_accumulator (accumulator g - moveInterval)%Q g in
        g <- step Math_random budget g ;;
        if negb (isRunning g) then Ok (S n, g)
        else whileDue fuel' budget (S n) g
    end
  else Ok (n, g).

(** [gameLoop(timestamp)] *)
Definition gameLoop (budget : nat) (timestamp : Q) (g : Game) : result Frame :=
  if negb (isRunning g) then Ok (mkFrame 0 None g)
  else
    let delta := (timestamp - lastTime g)%Q in
    let g := set_lastTime timestamp g in
    let g := set_accumulator (accumulator g + delta)%Q g in
    r <- whileDue (loopBound (accumulator g)) budget 0 g ;;
    let g := decayEatAnim delta (snd r) in
    let interp := Qmin 1 (accumulator g / moveInterval)%Q in
    Ok (mkFrame (fst r) (Some interp) g).

(** ** Controls *)

(** [e.key.startsWith('Arrow')] *)
Definition startsWithArrow (key : string) : bool := String.prefix "Arrow" key.

(** [/[wasd]/i.test(e.key)] *)
Definition isWasd (c : ascii) : bool :=
  match c with
  | "w" | "a" | "s" | "d" | "W" | "A" | "S" | "D" => true
  | _ => false
  end%char.
Definition testWasd (key : string) : bool :=
  existsb isWasd (list_ascii_of_string key).

(** The [switch (e.key)] of the keydown handler. *)
Definition keySwitch (key : string) (g : Game) : Game :=
  if ((key =? "ArrowUp") || (key =? "w") || (key =? "W"))%string then
    if negb (py (direction g) =? 1) then set_nextDirection (mkCell 0 (-1)) g else g
  else if ((key =? "ArrowDown") || (key =? "s") || (key =? "S"))%string then
    if negb (py (direction g) =? -1) then set_nextDirection (mkCell 0 1) g else g
  else if ((key =? "ArrowLeft") || (key =? "a") || (key =? "A"))%string then
    if negb (px (direction g) =? 1) then set_nextDirection (mkCell (-1) 0) g else g
  else if ((key =? "ArrowRight") || (key =? "d") || (key =? "D"))%string then
    if negb (px (direction g) =? -1) then set_nextDirection (mkCell 1 0) g else g
  else g.

(** The keydown handler. *)
Definition keydown (budget : nat) (key : string) (now : Q) (g : Game) : result Game :=
  g <- (if negb (isRunning g) && negb (isGameOver g) &&
           (startsWithArrow key || testWasd key)
        then initGame Math_random budget now g else Ok g) ;;
  Ok (keySwitch key g).

(** The touchstart handler. *)
Definition touchstart (cx cy : Q) (g : Game) : Game :=
  set_touchStart (Some cx) (Some cy) g.

(** The swipe decision of the touchend handler. *)
Definition swipe (dx dy : Q) (g : Game) : Game :=
  if Qgt_bool (Qabs dx) (Qabs dy) then
    if Qgt_bool dx 0 && negb (px (direction g) =? -1)
    then set_nextDirection (mkCell 1 0) g
    else if Qgt_bool 0 dx && negb (px (direction g) =? 1)
    then set_nextDirection (mkCell (-1) 0) g
    else g
  else
    if Qgt_bool dy 0 && negb (py (direction g) =? -1)
    then set_nextDirection (mkCell 0 1) g
    else if Qgt_bool 0 dy && negb (py (direction g) =? 1)
    then set_nextDirection (mkCell 0 (-1)) g
    else g.

(** The touchend handler. *)
Definition touchend (budget : nat) (cx cy now : Q) (g : Game) : result Game :=
  match touchStartX g, touchStartY g with
  | Some sx, Some sy =>
      g <- (if negb (isRunning g) && negb (isGameOver g)
            then initGame Math_random budget now g else Ok g) ;;
      let g := swipe (cx - sx)%Q (cy - sy)%Q g in
      Ok (set_touchStart None None g)
  | _, _ => Ok g
  end.

(** ** Sessions *)

(** What the host can deliver to the script. [now] is the reading of
    [performance.now()] should the handler call [initGame]. *)
Inductive Event : Type :=
| KeyDown (key : string) (now : Q)
| TouchStart (cx cy : Q)
| TouchEnd (cx cy now : Q)
| RestartClick (now : Q)
| AnimationFrame (timestamp : Q).

Definition handle (budget : nat) (e : Event) (g : Game) : result Game :=
  match e with
  | KeyDown key now => keydown budget key now g
  | TouchStart cx cy => Ok (touchstart cx cy g)
  | TouchEnd cx cy now => touchend budget cx cy now g
  | RestartClick now => initGame Math_random budget now g
  | AnimationFrame timestamp => fr <- gameLoop budget timestamp g ;; Ok (after fr)
  end.

(** The state after the events [evs], delivered in order from [g]. *)
Fixpoint run (budget : nat) (evs : list Event) (g : Game) : result Game :=
  match evs with
  | [] => Ok g
  | e :: evs' => g <- handle budget e g ;; run budget evs' g
  end.

End Loop.

(** ** Rendering *)

(** A point of the canvas, in pixels. *)
Record Point : Type := mkPoint { ptx : Q; pty : Q }.

(** [lerp(a, b, t)]: the point at fraction [t] of the way from [a] to [b]. *)
Definition lerp (a b t : Q) : Q := (a + (b - a) * t)%Q.

(** The pixel center of a grid cell, as [drawFood] computes it. *)
Definition cellCenter (tileSize : Q) (c : Cell) : Point :=
  mkPoint ((inject_Z (px c) + 0.5) * tileSize) ((inject_Z (py c) + 0.5) * tileSize).

(** One turn of the loop "interpolated centers" of [drawSnake]. *)
Definition centerAt (tileSize interp : Q) (from : list Cell) (i : nat) (cur : Cell) : Point :=
  let prev := match nth_error from i with Some p => p | None => cur end in
  let sx := ((inject_Z (px prev) + (inject_Z (px cur) - inject_Z (px prev)) * interp + 0.5)
             * tileSize)%Q in
  let sy := ((inject_Z (py prev) + (inject_Z (py cur) - inject_Z (py prev)) * interp + 0.5)
             * tileSize)%Q in
  mkPoint sx sy.

(** The loop [for (let i = 0; i < to.length; i++)], from index [i] on. *)
Fixpoint centersFrom (tileSize interp : Q) (from : list Cell) (i : nat) (to : list Cell)
  : list Point :=
  match to with
  | [] => []
  | cur :: to' => centerAt tileSize interp from i cur :: centersFrom tileSize interp from (S i) to'
  end.

(** The array [centers] of [drawSnake(interp)]. *)
Definition centers (tileSize interp : Q) (g : Game) : list Point :=
  let from := match previousSnake g with Some p => p | None => snake g end in
  let to := snake g in
  centersFrom tileSize interp from 0 to.

(** ** Notions used to state the properties *)

(** Reading a variable after assignments. *)
Ltac fields :=
  cbn [snake previousSnake direction nextDirection food score isRunning isGameOver
       eatAnimMs lastTime accumulator touchStartX touchStartY randomCalls
       set_snake set_previousSnake set_direction set_nextDirection set_food
       set_score set_isRunning set_isGameOver set_eatAnimMs set_lastTime
       set_accumulator set_touchStart set_randomCalls gameOver] in *.

Ltac split_ifs :=
  repeat match goal with
         | |- context [if ?b then _ else _] => destruct b
         end.

(** The cells of the board. *)
Definition inGrid (c : Cell) : Prop :=
  0 <= px c < tileCount /\ 0 <= py c < tileCount.

(** The four headings. *)
Definition isHeading (d : Cell) : Prop :=
  d = Right \/ d = Left \/ d = Down \/ d = Up.

(** [Math.random] returns numbers of [[0, 1)]. *)
Definition validRandom (rnd : nat -> Q) : Prop :=
  forall i, (0 <= rnd i)%Q /\ (rnd i < 1)%Q.

(** Two states that differ at most in [food] and in the number of calls of
    [Math.random]. *)
Definition sameButFood (g g' : Game) : Prop :=
  g' = set_food (food g') (set_randomCalls (randomCalls g') g).

(** The state [step] works on once it has stored the previous positions and
    taken the queued direction. *)
Definition turned (g : Game) : Game :=
  set_direction (nextDirection g)
    (set_previousSnake (Some (storePrevious (previousSnake g) (snake g))) g).

(** The possible outcomes of [step] on a snake whose new head is [nh]: game
    over with the body, food and score untouched, or the new head in front
    with the tail kept (food eaten) or dropped. *)
Inductive StepOutcome (rnd : nat -> Q) (g : Game) (nh : Cell) (g' : Game) : Prop :=
| Collided :
    hitsWall nh = true \/ onSnake (snake g) nh = true ->
    g' = gameOver (turned g) ->
    StepOutcome rnd g nh g'
| Ate :
    hitsWall nh = false -> onSnake (snake g) nh = false ->
    food g = Some nh ->
    sameButFood (set_eatAnimMs 200%Q (set_score (score g + 1)
                   (set_snake (nh :: snake g) (turned g)))) g' ->
    (exists i, food g' = Some (drawnCell rnd i) /\
               onSnake (nh :: snake g) (drawnCell rnd i) = false) ->
    StepOutcome rnd g nh g'
| Continued :
    hitsWall nh = false -> onSnake (snake g) nh = false ->
    (exists f, food g = Some f /\ f <> nh) ->
    g' = set_snake (nh :: removelast (snake g)) (turned g) ->
    StepOutcome rnd g nh g'.

(** The invariant of the simulation: the cells of the snake are pairwise
    distinct, the food is not under the snake and satisfies [P], and a
    running game has a snake and a food. *)
Definition Inv (P : Cell -> Prop) (g : Game) : Prop :=
  NoDup (snake g) /\
  (forall f, food g = Some f -> onSnake (snake g) f = false /\ P f) /\
  (isRunning g = true -> snake g <> [] /\ food g <> None).

(** One turn of the [while] of [gameLoop], and [j] turns in a row without
    the test [if (!isRunning) break]. *)
Definition tick (rnd : nat -> Q) (budget : nat) (g : Game) : result Game :=
  step rnd budget (set_accumulator (accumulator g - moveInterval)%Q g).

Fixpoint iterTick (rnd : nat -> Q) (budget j : nat) (g : Game) : result Game :=
  match j with
  | O => Ok g
  | S j' => g <- tick rnd budget g ;; iterTick rnd budget j' g
  end.

(** The state a frame at [timestamp] enters its [while] with. *)
Definition accumulated (timestamp : Q) (g : Game) : Game :=
  set_accumulator (accumulator g + (timestamp - lastTime g))%Q (set_lastTime timestamp g).

(** The direction a key asks for: the [case] labels of the keydown handler. *)
Definition keyDirection (key : string) : option Cell :=
  if ((key =? "ArrowUp") || (key =? "w") || (key =? "W"))%string then Some Up
  else if ((key =? "ArrowDown") || (key =? "s") || (key =? "S"))%string then Some Down
  else if ((key =? "ArrowLeft") || (key =? "a") || (key =? "A"))%string then Some Left
  else if ((key =? "ArrowRight") || (key =? "d") || (key =? "D"))%string then Some Right
  else None.

(** The specification's rule for one request [req] made while the applied
    direction is [cur]: it replaces what is [queued] unless it is the reverse
    of [cur]. *)
Definition accept (cur : Cell) (req : option Cell) (queued : Cell) : Cell :=
  match req with
  | Some d => if sameCell d (opposite cur) then queued else d
  | None => queued
  end.

(** The specification's rule for the single [nextDirection] slot: of the keys
    pressed while the applied direction is [cur], the last accepted request
    stands; with none, what was [queued] stays. *)
Fixpoint lastAccepted (cur : Cell) (keys : list (string * Q)) (queued : Cell) : Cell :=
  match keys with
  | [] => queued
  | (key, _) :: keys' => lastAccepted cur keys' (accept cur (keyDirection key) queued)
  end.

(** The keydown events of the keys [keys], each with its reading of the clock. *)
Definition keyPresses (keys : list (string * Q)) : list Event :=
  map (fun kn => KeyDown (fst kn) (snd kn)) keys.

(** Points up to the equality of rationals, and the interpolation of points. *)
Definition samePoint (a b : Point) : Prop :=
  (ptx a == ptx b)%Q /\ (pty a == pty b)%Q.

Definition lerpPoint (a b : Point) (t : Q) : Point :=
  mkPoint (lerp (ptx a) (ptx b) t) (lerp (pty a) (pty b) t).

(** The queued and the applied direction are headings, and the queued one is
    never the reverse of the applied one. *)
Definition Headed (g : Game) : Prop :=
  isHeading (direction g) /\ isHeading (nextDirection g) /\
  nextDirection g <> opposite (direction g).

(** ** Sample sessions *)

(** A [Math.random] that makes [Math.floor(Math.random() * tileCount)] return
    the numbers of [l] in turn, then [0] for ever. *)
Definition scripted (l : list Z) : nat -> Q :=
  fun i => (2 * nth i l 0 + 1) # 26.

(** The state of [r], or the boot state when [r] is not a state. *)
Definition stateOf (r : result Game) : Game :=
  match r with Ok g => g | _ => boot end.

(** A session that eats the food placed right in front of the snake, with
    the next food at (8, 8). *)
Definition foodAhead : nat -> Q := scripted [4; 6; 8; 8].

(** A session whose only food is at (8, 8). *)
Definition foodAway : nat -> Q := scripted [8; 8].

(** Just started, the food one cell ahead of the head. *)
Definition aboutToEat : Game :=
  Eval vm_compute in stateOf (run foodAhead 5 [KeyDown "d" 0%Q] boot).

(** A snake of four cells curled into a square, about to go up onto the cell
    its tail still occupies. *)
Definition curled : Game :=
  Eval vm_compute in
    stateOf (run foodAhead 5
               [KeyDown "d" 0%Q; AnimationFrame 200%Q; KeyDown "s" 0%Q;
                AnimationFrame 400%Q; KeyDown "a" 0%Q; AnimationFrame 600%Q;
                KeyDown "w" 0%Q] boot).

(** Up along column 3 to the top row, one cell to the right, then a request
    to go up again, into the wall. *)
Definition towardsWall : list Event :=
  [KeyDown "w" 0%Q; AnimationFrame 1200%Q; KeyDown "d" 0%Q; AnimationFrame 1400%Q;
   KeyDown "w" 0%Q].

Definition atTopWall : Game :=
  Eval vm_compute in stateOf (run foodAway 5 towardsWall boot).

(** A [Math.random] that returns 0.5 at every call: every draw is (6, 6). *)
Definition half : nat -> Q := fun _ => 1 # 2.

(** The session with [half]: the first food is at (6, 6), three cells ahead
    of the head; two steps later the head is next to it. *)
Definition nextToFood : Game :=
  Eval vm_compute in
    stateOf (run half 1 [KeyDown "d" 0%Q; AnimationFrame 400%Q] boot).

(** One frame of 600 ms after the start: three steps, the first one eats. *)
Definition threeSteps : list Event := [KeyDown "d" 0%Q; AnimationFrame 600%Q].

Definition grown : Game :=
  Eval vm_compute in stateOf (run foodAhead 5 threeSteps boot).


(** A frame 3000 ms after the start: fifteen steps are due, and the tenth
    takes the head from (12, 6) into the right wall. *)
Definition longFrame : Q := 3000%Q.

(** Just started, heading right, nothing ahead of the head. *)
Definition started : Game :=
  Eval vm_compute in stateOf (run foodAway 5 [KeyDown "d" 0%Q] boot).

(** What the frame at [longFrame] does from [started]. *)
Definition idleFrame : Frame := mkFrame 0 None boot.

Definition frameAtLong : Frame :=
  Eval vm_compute in
    match gameLoop foodAway 5 longFrame started with Ok fr => fr | _ => idleFrame end.

Definition afterTenTicks : Game :=
  Eval vm_compute in stateOf (iterTick foodAway 5 10 (accumulated longFrame started)).

(** Started, heading right, with a turn upwards already queued. *)
Definition turnQueued : Game :=
  Eval vm_compute in
    stateOf (run foodAway 5 [KeyDown "d" 0%Q; KeyDown "ArrowUp" 0%Q] boot).

(** Claim C7 as the specification states it: in every state with current
    direction Right, after a Left request the next step still goes right. *)
Definition reverse_request_keeps_heading : Prop :=
  forall (rnd : nat -> Q) (budget : nat) (evs : list Event) (now : Q) (g g1 g2 : Game),
    run rnd budget evs boot = Ok g ->
    isRunning g = true ->
    direction g = Right ->
    keydown rnd budget "ArrowLeft" now g = Ok g1 ->
    step rnd budget g1 = Ok g2 ->
    direction g2 = Right.

(** Right after the step that ate the food ahead: four cells, and a previous
    snapshot of three. *)
Definition justAte : Game :=
  Eval vm_compute in
    stateOf (run foodAhead 5 [KeyDown "d" 0%Q; AnimationFrame 200%Q] boot).

(** ** The canvas and the rest of the drawing *)

(** [resizeCanvas()]: from the client width and height of the wrapper (whole
    numbers of pixels), the side given to [canvas.width] and
    [canvas.height], and the [tileSize]. *)
Definition resizeCanvas (clientWidth clientHeight : Z) : Z * Q :=
  let size := Z.min (clientWidth - 16) (clientHeight - 16) in
  let finalSize := Z.max 260 size in
  (finalSize, (inject_Z finalSize / inject_Z tileCount)%Q).

(** The values [0, 1, ..., n - 1] of a [for] counter. *)
Definition range (n : Z) : list Z := map Z.of_nat (seq 0 (Z.to_nat n)).

(** One call [ctx.fillRect(x, y, w, h)] with the [ctx.fillStyle] in force. *)
Record FillRect : Type :=
  mkFillRect { fillStyle : string; rectX : Q; rectY : Q; rectW : Q; rectH : Q }.

(** [drawBoard()]: the calls of [fillRect], in order. *)
Definition drawBoard (tileSize : Q) : list FillRect :=
  flat_map (fun y =>
    map (fun x =>
      let isLight := (x + y) mod 2 =? 0 in
      mkFillRect (if isLight then "#b1dd66" else "#a3d159")
        (inject_Z x * tileSize) (inject_Z y * tileSize) tileSize tileSize)
      (range tileCount))
    (range tileCount).

(** A circle [ctx.arc(x, y, r, 0, Math.PI * 2)]. *)
Record Circle : Type := mkCircle { centerX : Q; centerY : Q; radius : Q }.

(** The apple of [drawFood()]: its disc, and the two ends of its stem. *)
Definition appleDisc (tileSize : Q) (food : Cell) : Circle :=
  let cx := ((inject_Z (px food) + 0.5) * tileSize)%Q in
  let cy := ((inject_Z (py food) + 0.5) * tileSize)%Q in
  let r := (tileSize * 0.35)%Q in
  mkCircle cx cy r.

Definition appleStem (tileSize : Q) (food : Cell) : Point * Point :=
  let cx := ((inject_Z (px food) + 0.5) * tileSize)%Q in
  let cy := ((inject_Z (py food) + 0.5) * tileSize)%Q in
  let r := (tileSize * 0.35)%Q in
  (mkPoint cx (cy - r * 0.9), mkPoint (cx + r * 0.2) (cy - r * 1.2)).

(** The bite of [drawSnake]: [mouthOpen], and [mouthRadius] from the timer. *)
Definition mouthOpen (eatAnimMs : Q) : bool := Qgt_bool eatAnimMs 0.

Definition mouthRadius (tileSize eatAnimMs : Q) : Q :=
  let t := Qmin 1 (eatAnimMs / 200) in
  (tileSize * (0.25 + 0.15 * t))%Q.

(** [offsetX] and [offsetY] of the eyes. *)
Definition eyeOffset (tileSize : Q) (d : Cell) : Q * Q :=
  if px d =? 1 then ((tileSize * 0.18)%Q, 0%Q)
  else if px d =? -1 then ((- tileSize * 0.18)%Q, 0%Q)
  else if py d =? 1 then (0%Q, (tileSize * 0.18)%Q)
  else if py d =? -1 then (0%Q, (- tileSize * 0.18)%Q)
  else (0%Q, 0%Q).

(** The two eyes and the two pupils of [drawSnake], around the center [head]
    of the head. *)
Definition eyes (tileSize : Q) (d : Cell) (head : Point) : list Circle :=
  let eyeRadius := (tileSize * 0.14)%Q in
  let pupilRadius := (tileSize * 0.07)%Q in
  let offsetX := fst (eyeOffset tileSize d) in
  let offsetY := snd (eyeOffset tileSize d) in
  let eye1x := (ptx head - tileSize * 0.12 + offsetX)%Q in
  let eye2x := (ptx head + tileSize * 0.12 + offsetX)%Q in
  let eyeY := (pty head - tileSize * 0.1 + offsetY)%Q in
  [mkCircle eye1x eyeY eyeRadius; mkCircle eye2x eyeY eyeRadius;
   mkCircle eye1x eyeY pupilRadius; mkCircle eye2x eyeY pupilRadius].

(** ** Further notions *)

(** Neighbours on the board: [a] is one heading away from [b]. *)
Definition linked (a b : Cell) : Prop :=
  isHeading (mkCell (px a - px b) (py a - py b)).

(** Every cell of [s] is a neighbour of the next one. *)
Fixpoint chain (s : list Cell) : Prop :=
  match s with
  | a :: ((b :: _) as t) => linked a b /\ chain t
  | _ => True
  end.

(** The applied direction is the one that leads from the neck to the head. *)
Definition neckward (g : Game) : Prop :=
  forall h n t, snake g = h :: n :: t ->
    direction g = mkCell (px h - px n) (py h - py n).

(** The directions are headings that do not reverse, the body is a chain,
    and while the game runs the direction is that of the last move. *)
Definition Jointed (g : Game) : Prop :=
  Headed g /\ chain (snake g) /\ (isRunning g = true -> neckward g).

(** The score counts the cells gained over the three of the start. *)
Definition Counted (g : Game) : Prop :=
  (snake g = [] /\ score g = 0) \/
  (snake g <> [] /\ 0 <= score g /\
   Z.of_nat (List.length (snake g)) = score g + 3).

(** [s] is [p] one step later at most: [p] itself, or a new head in front of
    [p], whole or without its last cell. *)
Definition follows (p s : list Cell) : Prop :=
  s = p \/ exists nh, s = nh :: p \/ s = nh :: removelast p.

Definition Snapped (g : Game) : Prop :=
  snake g = [] \/ exists p, previousSnake g = Some p /\ follows p (snake g).

(** The cells of the board, column by column. *)
Definition allCells : list Cell :=
  flat_map (fun x => map (fun y => mkCell x y) (range tileCount)) (range tileCount).

(** No click on the overlay button among the events. *)
Definition noRestart (evs : list Event) : bool :=
  forallb (fun e => match e with RestartClick _ => false | _ => true end) evs.

(** The game has been started at least once. *)
Definition hasStarted (g : Game) : bool := isRunning g || isGameOver g.

(** The events that lead to [curled]. *)
Definition towardsCurl : list Event :=
  [KeyDown "d" 0%Q; AnimationFrame 200%Q; KeyDown "s" 0%Q;
   AnimationFrame 400%Q; KeyDown "a" 0%Q; AnimationFrame 600%Q;
   KeyDown "w" 0%Q].

(** [aboutToEat] one step later. *)
Definition bitten : Game :=
  Eval vm_compute in stateOf (step foodAhead 5 aboutToEat).

(** A crash: the long frame of [frameAtLong] has ended the game. *)
Definition crashed : Game :=
  Eval vm_compute in after frameAtLong.

(** The three ways a returned [step] leaves the variables, [nh] being the
    new head: collided, ate, moved on. *)
Definition collidedStep (g g' : Game) (nh : Cell) : Prop :=
  (~ inGrid nh \/ In nh (snake g)) /\
  snake g' = snake g /\ score g' = score g /\ food g' = food g /\
  eatAnimMs g' = eatAnimMs g /\ isRunning g' = false /\ isGameOver g' = true.

Definition ateStep (g g' : Game) (nh : Cell) : Prop :=
  inGrid nh /\ ~ In nh (snake g) /\ food g = Some nh /\
  snake g' = nh :: snake g /\ score g' = score g + 1 /\
  eatAnimMs g' = 200%Q /\
  isRunning g' = isRunning g /\ isGameOver g' = isGameOver g /\
  exists f, food g' = Some f /\ ~ In f (nh :: snake g).

Definition movedStep (g g' : Game) (nh : Cell) : Prop :=
  inGrid nh /\ ~ In nh (snake g) /\ food g <> Some nh /\
  snake g' = nh :: removelast (snake g) /\ score g' = score g /\
  food g' = food g /\ eatAnimMs g' = eatAnimMs g /\
  isRunning g' = isRunning g /\ isGameOver g' = isGameOver g.

(** The phases: not started yet (no snake, no food, score 0), or running or
    over, never both, with a snake and a food. *)
Definition Phased (g : Game) : Prop :=
  (isRunning g = false /\ isGameOver g = false /\
   snake g = [] /\ food g = None /\ score g = 0) \/
  (xorb (isRunning g) (isGameOver g) = true /\ snake g <> [] /\ food g <> None).

(** One label of the [switch]: [key] is it, or is not. *)
Ltac label key lbl :=
  destruct (String.eqb_spec key lbl) as [->|?]; [reflexivity|].

(** A property of variables that an assignment does not touch. *)
Ltac untouched :=
  intros; unfold Counted, Snapped, Phased, hasStarted in *; fields; assumption.

(** ** The elapsed time of a frame, and sources that find a free cell *)

(** The state the [while] of a frame is entered with when the subtraction
    [timestamp - lastTime] came to [delta]. *)
Definition entered (delta timestamp : Q) (g : Game) : Game :=
  set_accumulator (accumulator g + delta)%Q (set_lastTime timestamp g).

(** [gameLoop(timestamp)] past its test of [isRunning], from [lastTime =
    timestamp] on, [delta] being the number [timestamp - lastTime] came to. *)
Definition elapsedFrame (rnd : nat -> Q) (budget : nat) (delta timestamp : Q) (g : Game)
  : result Frame :=
  let g := set_lastTime timestamp g in
  let g := set_accumulator (accumulator g + delta)%Q g in
  r <- whileDue rnd (loopBound (accumulator g)) budget 0 g ;;
  let g := decayEatAnim delta (snd r) in
  let interp := Qmin 1 (accumulator g / moveInterval)%Q in
  Ok (mkFrame (fst r) (Some interp) g).

(** The number of cells of the board, and the snake [initGame] lays out. *)
Definition boardCells : nat := Eval vm_compute in List.length allCells.

Definition startSnake : list Cell := [mkCell 3 6; mkCell 2 6; mkCell 1 6].

(** No cell occurs twice in [s]. *)
Fixpoint distinct (s : list Cell) : bool :=
  match s with
  | [] => true
  | c :: s' => negb (onSnake s' c) && distinct s'
  end.


(** From any call on, every cell of the board is drawn within [budget]
    turns of the loop of [placeFood]. *)
Definition Generous (rnd : nat -> Q) (budget : nat) : Prop :=
  forall i c, inGrid c ->
    exists k, (k < budget)%nat /\ drawnCell rnd (i + 2 * k) = c.

(** A [Math.random] that sweeps the board: its draws run through the
    columns, row after row, over and over. *)
Definition sweepCoord (i : nat) : Z :=
  let n := Z.of_nat i / 2 in
  if Z.of_nat i mod 2 =? 0 then n mod 13 else (n / 13) mod 13.

Definition sweep : nat -> Q := fun i => (2 * sweepCoord i + 1) # 26.

(** Started with [sweep]: the food is on (0, 0), behind the snake. *)
Definition swept : Game :=
  Eval vm_compute in stateOf (run sweep 169 [KeyDown "d" 0%Q] boot).

(** The frame that comes 600 ms after that start. *)
Definition sweptFrame : Frame :=
  Eval vm_compute in
    match elapsedFrame sweep 169 600 600 swept with Ok fr => fr | _ => idleFrame end.

(** * Properties *)

(** ** Cells and lists of cells *)

Lemma cell_eta (c : Cell) : mkCell (px c) (py c) = c.
Proof. destruct c; reflexivity. Qed.

Lemma sameCell_true (a b : Cell) : sameCell a b = true <-> a = b.
Proof.
  unfold sameCell. rewrite andb_true_iff, !Z.eqb_eq.
  destruct a, b; simpl; split.
  - intros [-> ->]; reflexivity.
  - intros E; inversion E; auto.
Qed.

Lemma sameCell_false (a b : Cell) : sameCell a b = false <-> a <> b.
Proof.
  rewrite <- sameCell_true. destruct (sameCell a b); split; congruence.
Qed.

Lemma onSnake_true (s : list Cell) (c : Cell) : onSnake s c = true <-> In c s.
Proof.
  unfold onSnake. rewrite existsb_exists. split.
  - intros [seg [Hin Heq]]. apply (sameCell_true seg c) in Heq. subst; assumption.
  - intros Hin. exists c. split; [assumption | apply (sameCell_true c c); reflexivity].
Qed.

Lemma onSnake_false (s : list Cell) (c : Cell) : onSnake s c = false <-> ~ In c s.
Proof.
  rewrite <- onSnake_true. destruct (onSnake s c); split; congruence.
Qed.

Lemma map_copy (s : list Cell) : map copy s = s.
Proof.
  induction s as [|c s IH]; simpl; [reflexivity|].
  unfold copy at 1. rewrite cell_eta, IH. reflexivity.
Qed.

Lemma overwrite_same_length (prev cur : list Cell) :
  List.length prev = List.length cur -> overwrite prev cur = cur.
Proof.
  revert cur. induction prev as [|p prev IH]; intros [|c cur] Hlen; simpl in *;
    try reflexivity; try discriminate.
  rewrite cell_eta, IH by congruence. reflexivity.
Qed.

(** Whatever [previousSnake] held, after "store previous positions" it holds
    the cells of the snake as they are before the move. *)
Lemma storePrevious_snapshot (prev : option (list Cell)) (cur : list Cell) :
  storePrevious prev cur = cur.
Proof.
  unfold storePrevious. destruct prev as [p|]; [|apply map_copy].
  destruct (Nat.eqb (List.length p) (List.length cur)) eqn:E; simpl.
  - apply overwrite_same_length. apply Nat.eqb_eq; assumption.
  - apply map_copy.
Qed.

Lemma removelast_cons (c : Cell) (s : list Cell) :
  s <> [] -> removelast (c :: s) = c :: removelast s.
Proof. destruct s; [congruence | reflexivity]. Qed.

Lemma In_removelast (c : Cell) (s : list Cell) : In c (removelast s) -> In c s.
Proof.
  induction s as [|a s IH]; simpl; [tauto|].
  destruct s as [|b s]; [simpl; tauto|].
  intros [E|Hin]; [left; assumption | right; apply IH; assumption].
Qed.

Lemma NoDup_removelast (s : list Cell) : NoDup s -> NoDup (removelast s).
Proof.
  induction s as [|a s IH]; intros Hnd; [assumption|].
  destruct s as [|b s]; [constructor|].
  inversion Hnd as [|? ? Hnotin Hnd']; subst.
  change (NoDup (a :: removelast (b :: s))). constructor.
  - intros Hin. apply Hnotin. apply In_removelast; assumption.
  - apply IH; assumption.
Qed.

(** ** What [placeFood] and [step] do *)

Lemma sameButFood_fields (g g' : Game) :
  sameButFood g g' ->
  snake g' = snake g /\ previousSnake g' = previousSnake g /\
  direction g' = direction g /\ nextDirection g' = nextDirection g /\
  score g' = score g /\ isRunning g' = isRunning g /\
  isGameOver g' = isGameOver g /\ eatAnimMs g' = eatAnimMs g /\
  lastTime g' = lastTime g /\ accumulator g' = accumulator g.
Proof. unfold sameButFood. intros ->. simpl. repeat split. Qed.

Section StepFacts.

Variable Math_random : nat -> Q.

Lemma placeFood_returns (budget : nat) (g g' : Game) :
  placeFood Math_random budget g = Ok g' ->
  sameButFood g g' /\
  exists k, (k < budget)%nat /\
    food g' = Some (drawnCell Math_random (randomCalls g + 2 * k)) /\
    randomCalls g' = (randomCalls g + 2 * S k)%nat /\
    onSnake (snake g) (drawnCell Math_random (randomCalls g + 2 * k)) = false.
Proof.
  revert g. induction budget as [|b IH]; intros g H; simpl in H; [discriminate|].
  destruct (onSnake (snake g) _) eqn:E; simpl in H.
  - apply IH in H. destruct H as [Hsame [k [Hk [Hf [Hc Hfree]]]]].
    cbn [set_randomCalls randomCalls snake] in *. split.
    + unfold sameButFood in *. rewrite Hsame at 1. destruct g; reflexivity.
    + exists (S k).
      replace (randomCalls g + 2 * S k)%nat
        with (S (S (randomCalls g)) + 2 * k)%nat by lia.
      replace (randomCalls g + 2 * S (S k))%nat
        with (S (S (randomCalls g)) + 2 * S k)%nat by lia.
      repeat split; try assumption. lia.
  - inversion H; subst; clear H. split.
    + unfold sameButFood. destruct g; reflexivity.
    + exists 0%nat. cbn [set_food set_randomCalls food randomCalls snake].
      replace (randomCalls g + 2 * 0)%nat with (randomCalls g) by lia.
      repeat split; try lia. exact E.
Qed.

(** [placeFood] has nothing to throw and is not bounded by the frame loop. *)
Lemma placeFood_spins_or_returns (budget : nat) (g : Game) :
  placeFood Math_random budget g = Spinning \/
  exists g', placeFood Math_random budget g = Ok g'.
Proof.
  revert g. induction budget as [|b IH]; intros g; simpl; [left; reflexivity|].
  destruct (onSnake (snake g) _); simpl; [apply IH | right; eexists; reflexivity].
Qed.

(** [step], case by case, for a snake with a head. *)
Lemma step_unfold (budget : nat) (g : Game) (h : Cell) (t : list Cell) :
  snake g = h :: t ->
  let nh := mkCell (px h + px (nextDirection g)) (py h + py (nextDirection g)) in
  step Math_random budget g =
    if hitsWall nh then Ok (gameOver (turned g))
    else if onSnake (snake g) nh then Ok (gameOver (turned g))
    else match food g with
         | None => TypeError
         | Some f =>
             if sameCell nh f
             then placeFood Math_random budget
                    (set_eatAnimMs 200%Q (set_score (score g + 1)
                       (set_snake (nh :: snake g) (turned g))))
             else Ok (set_snake (removelast (nh :: snake g)) (turned g))
         end.
Proof.
  intros Hs nh. destruct g; cbn [snake] in Hs; subst. reflexivity.
Qed.

Lemma step_outcome (budget : nat) (g g' : Game) :
  step Math_random budget g = Ok g' ->
  exists nh, newHeadOf (snake g) (nextDirection g) = Some nh /\
             StepOutcome Math_random g nh g'.
Proof.
  intros H. destruct (snake g) as [|h t] eqn:Hs.
  - destruct g; cbn [snake] in Hs; subst; discriminate.
  - rewrite (step_unfold budget g h t Hs) in H. cbv zeta in H.
    set (nh := mkCell (px h + px (nextDirection g)) (py h + py (nextDirection g))) in *.
    exists nh. split; [reflexivity|].
    destruct (hitsWall nh) eqn:Hw.
    { injection H as <-. apply Collided; [left; assumption | reflexivity]. }
    destruct (onSnake (snake g) nh) eqn:Ho.
    { injection H as <-. apply Collided; [right; assumption | reflexivity]. }
    destruct (food g) as [f|] eqn:Hf; [|discriminate].
    destruct (sameCell nh f) eqn:Hsame.
    + apply sameCell_true in Hsame. subst f.
      apply placeFood_returns in H. destruct H as [Hsb [k [_ [Hfood [_ Hfree]]]]].
      apply Ate; try assumption; try reflexivity.
      eexists. split; [exact Hfood | exact Hfree].
    + apply sameCell_false in Hsame. injection H as <-.
      apply Continued; try assumption.
      * exists f. split; [assumption | congruence].
      * rewrite Hs. reflexivity.
Qed.

(** [step] leaves the clock alone and never starts a game. *)
Lemma step_frame (budget : nat) (g g' : Game) :
  step Math_random budget g = Ok g' ->
  accumulator g' = accumulator g /\ lastTime g' = lastTime g /\
  (isRunning g = false -> isRunning g' = false).
Proof.
  intros H. destruct (step_outcome budget g g' H) as [nh [_ Hout]].
  destruct Hout as [_ ->|_ _ _ Hsb _|_ _ _ ->]; unfold turned; fields; try tauto.
  destruct (sameButFood_fields _ _ Hsb) as (_ & _ & _ & _ & _ & Hr & _ & _ & Hl & Ha).
  unfold turned in *; fields. rewrite Hr, Hl, Ha. tauto.
Qed.

End StepFacts.

(** ** The invariant is kept by every handler *)

Lemma Inv_boot (P : Cell -> Prop) : Inv P boot.
Proof.
  repeat split; simpl; try constructor; try discriminate.
Qed.

Lemma Inv_ext (P : Cell -> Prop) (g g' : Game) :
  snake g' = snake g -> food g' = food g -> isRunning g' = isRunning g ->
  Inv P g -> Inv P g'.
Proof. unfold Inv. intros -> -> ->. tauto. Qed.

Lemma keySwitch_board (key : string) (g : Game) :
  snake (keySwitch key g) = snake g /\ food (keySwitch key g) = food g /\
  isRunning (keySwitch key g) = isRunning g /\
  direction (keySwitch key g) = direction g.
Proof. unfold keySwitch. split_ifs; fields; repeat split. Qed.

Lemma swipe_board (dx dy : Q) (g : Game) :
  snake (swipe dx dy g) = snake g /\ food (swipe dx dy g) = food g /\
  isRunning (swipe dx dy g) = isRunning g /\
  direction (swipe dx dy g) = direction g.
Proof. unfold swipe. split_ifs; fields; repeat split. Qed.

Lemma decayEatAnim_board (delta : Q) (g : Game) :
  snake (decayEatAnim delta g) = snake g /\ food (decayEatAnim delta g) = food g /\
  isRunning (decayEatAnim delta g) = isRunning g /\
  direction (decayEatAnim delta g) = direction g /\
  accumulator (decayEatAnim delta g) = accumulator g /\
  score (decayEatAnim delta g) = score g.
Proof. unfold decayEatAnim. split_ifs; fields; repeat split. Qed.

Section Invariant.

Variable Math_random : nat -> Q.
Variable P : Cell -> Prop.
Hypothesis drawn_P : forall i, P (drawnCell Math_random i).

Lemma step_Inv (budget : nat) (g g' : Game) :
  Inv P g -> step Math_random budget g = Ok g' -> Inv P g'.
Proof.
  intros [Hnd [Hfood Hrun]] H.
  destruct (step_outcome Math_random budget g g' H) as [nh [Hnh Hout]].
  assert (Hne : snake g <> []) by (destruct (snake g); [discriminate | congruence]).
  destruct Hout as [_ ->|Hw Ho Hf Hsb [i [Hf' Hfree]]|Hw Ho [f [Hf Hneq]] ->].
  - unfold turned; repeat split; fields; try assumption; try discriminate;
      apply (Hfood f); assumption.
  - destruct (sameButFood_fields _ _ Hsb) as [Hs _]. unfold turned in Hs; fields.
    repeat split; rewrite ?Hs.
    + constructor; [apply onSnake_false; assumption | assumption].
    + congruence.
    + assert (f = drawnCell Math_random i) by congruence. subst f. apply drawn_P.
    + discriminate.
    + congruence.
  - unfold turned; repeat split; fields.
    + constructor; [|apply NoDup_removelast; assumption].
      intros Hin. apply In_removelast in Hin.
      apply onSnake_false in Ho. contradiction.
    + assert (f0 = f) by congruence. subst f0.
      apply onSnake_false. intros [E|Hin]; [congruence|].
      apply In_removelast in Hin. destruct (Hfood f Hf) as [Hfree _].
      apply onSnake_false in Hfree. contradiction.
    + apply (Hfood f0); assumption.
    + discriminate.
    + congruence.
Qed.

Lemma initGame_returns (budget : nat) (now : Q) (g g' : Game) :
  initGame Math_random budget now g = Ok g' ->
  snake g' = [mkCell 3 6; mkCell 2 6; mkCell 1 6] /\
  direction g' = Right /\ nextDirection g' = Right /\ score g' = 0 /\
  isRunning g' = true /\ isGameOver g' = false /\
  lastTime g' = now /\ accumulator g' = 0%Q /\
  exists i, food g' = Some (drawnCell Math_random i) /\
            onSnake (snake g') (drawnCell Math_random i) = false.
Proof.
  unfold initGame. cbv zeta.
  destruct (placeFood _ _ _) as [g1| | |] eqn:Hp; simpl; try discriminate.
  intros H. injection H as <-.
  apply placeFood_returns in Hp. destruct Hp as [Hsb [k [_ [Hf [_ Hfree]]]]].
  destruct (sameButFood_fields _ _ Hsb) as (Hs & _ & Hd & Hn & Hsc & _).
  fields. rewrite Hs, Hd, Hn, Hsc. repeat split.
  eexists. split; [exact Hf | exact Hfree].
Qed.

Lemma initGame_Inv (budget : nat) (now : Q) (g g' : Game) :
  initGame Math_random budget now g = Ok g' -> Inv P g'.
Proof.
  intros H. apply initGame_returns in H.
  destruct H as (Hs & _ & _ & _ & Hr & _ & _ & _ & i & Hf & Hfree).
  repeat split.
  - rewrite Hs. repeat constructor; simpl; intuition discriminate.
  - congruence.
  - assert (f = drawnCell Math_random i) by congruence. subst f. apply drawn_P.
  - rewrite Hs. discriminate.
  - congruence.
Qed.

Lemma whileDue_Inv (budget fuel n m : nat) (g g' : Game) :
  Inv P g -> whileDue Math_random fuel budget n g = Ok (m, g') -> Inv P g'.
Proof.
  revert n g. induction fuel as [|fuel IH]; intros n g HI H; simpl in H.
  - destruct (Qle_bool moveInterval (accumulator g)); [discriminate|].
    injection H as _ <-. assumption.
  - destruct (Qle_bool moveInterval (accumulator g)).
    + destruct (step _ _ _) as [g1| | |] eqn:Hstep; simpl in H; try discriminate.
      assert (HI1 : Inv P g1).
      { eapply step_Inv; [|exact Hstep].
        eapply Inv_ext; [| | |exact HI]; reflexivity. }
      destruct (isRunning g1); simpl in H.
      * eapply IH; eassumption.
      * injection H as _ <-. assumption.
    + injection H as _ <-. assumption.
Qed.

Lemma gameLoop_Inv (budget : nat) (timestamp : Q) (g : Game) (fr : Frame) :
  Inv P g -> gameLoop Math_random budget timestamp g = Ok fr -> Inv P (after fr).
Proof.
  intros HI. unfold gameLoop. destruct (isRunning g) eqn:Hr; cbn [negb]; cbv zeta.
  - destruct (whileDue _ _ _ _ _) as [[m g1]| | |] eqn:Hw; cbn [bind]; try discriminate.
    intros H. injection H as <-. cbn [after snd].
    destruct (decayEatAnim_board (timestamp - lastTime g) g1) as (Hs & Hf & Hrun & _).
    eapply Inv_ext; [exact Hs | exact Hf | exact Hrun |].
    eapply whileDue_Inv; [|exact Hw].
    eapply Inv_ext; [| | |exact HI]; reflexivity.
  - intros H. injection H as <-. assumption.
Qed.

Lemma handle_Inv (budget : nat) (e : Event) (g g' : Game) :
  Inv P g -> handle Math_random budget e g = Ok g' -> Inv P g'.
Proof.
  intros HI. destruct e as [key now|cx cy|cx cy now|now|timestamp]; simpl.
  - unfold keydown.
    destruct (negb (isRunning g) && negb (isGameOver g) &&
              (startsWithArrow key || testWasd key)).
    + destruct (initGame _ _ _ _) as [g1| | |] eqn:Hi; simpl; try discriminate.
      intros H. injection H as <-.
      destruct (keySwitch_board key g1) as (Hs & Hf & Hr & _).
      eapply Inv_ext; [exact Hs | exact Hf | exact Hr |].
      eapply initGame_Inv; exact Hi.
    + simpl. intros H. injection H as <-.
      destruct (keySwitch_board key g) as (Hs & Hf & Hr & _).
      eapply Inv_ext; [exact Hs | exact Hf | exact Hr | exact HI].
  - intros H. injection H as <-. eapply Inv_ext; [| | |exact HI]; reflexivity.
  - unfold touchend.
    destruct (touchStartX g) as [sx|]; [|intros H; injection H as <-; assumption].
    destruct (touchStartY g) as [sy|]; [|intros H; injection H as <-; assumption].
    destruct (negb (isRunning g) && negb (isGameOver g)).
    + destruct (initGame _ _ _ _) as [g1| | |] eqn:Hi; simpl; try discriminate.
      intros H. injection H as <-.
      destruct (swipe_board (cx - sx) (cy - sy) g1) as (Hs & Hf & Hr & _).
      eapply Inv_ext; [exact Hs | exact Hf | exact Hr |].
      eapply initGame_Inv; exact Hi.
    + simpl. intros H. injection H as <-.
      destruct (swipe_board (cx - sx) (cy - sy) g) as (Hs & Hf & Hr & _).
      eapply Inv_ext; [exact Hs | exact Hf | exact Hr | exact HI].
  - apply initGame_Inv.
  - destruct (gameLoop _ _ _ _) as [fr| | |] eqn:Hg; simpl; try discriminate.
    intros H. injection H as <-. eapply gameLoop_Inv; eassumption.
Qed.

Lemma run_Inv (budget : nat) (evs : list Event) (g g' : Game) :
  Inv P g -> run Math_random budget evs g = Ok g' -> Inv P g'.
Proof.
  revert g. induction evs as [|e evs IH]; intros g HI H; simpl in H.
  - injection H as <-. assumption.
  - destruct (handle _ _ _ _) as [g1| | |] eqn:He; simpl in H; try discriminate.
    eapply IH; [|exact H]. eapply handle_Inv; eassumption.
Qed.

End Invariant.

(** With a [Math.random] in [[0, 1)] every drawn cell is a cell of the board. *)
Lemma randomCoord_range (rnd : nat -> Q) (i : nat) :
  validRandom rnd -> 0 <= randomCoord rnd i < tileCount.
Proof.
  intros Hv. destruct (Hv i) as [H0 H1]. unfold randomCoord.
  set (q := (rnd i * inject_Z tileCount)%Q).
  assert (Hq0 : (0 <= q)%Q).
  { unfold q. apply Qmult_le_0_compat; [assumption | discriminate]. }
  assert (Hq1 : (q < inject_Z tileCount)%Q).
  { unfold q. setoid_replace (inject_Z tileCount) with (1 * inject_Z tileCount)%Q at 2
      by (symmetry; apply Qmult_1_l).
    apply Qmult_lt_compat_r; [reflexivity | assumption]. }
  split.
  - change 0 with (Qfloor (inject_Z 0)). apply Qfloor_resp_le. assumption.
  - rewrite Zlt_Qlt. eapply Qle_lt_trans; [apply Qfloor_le | exact Hq1].
Qed.

Lemma drawnCell_inGrid (rnd : nat -> Q) (i : nat) :
  validRandom rnd -> inGrid (drawnCell rnd i).
Proof.
  intros Hv. split; simpl; apply randomCoord_range; assumption.
Qed.

Lemma inGrid_hitsWall (c : Cell) : inGrid c <-> hitsWall c = false.
Proof.
  unfold inGrid, hitsWall. rewrite !orb_false_iff, !Z.ltb_ge, !Z.geb_leb, !Z.leb_gt.
  tauto.
Qed.

(** ** Collisions *)

Section Collisions.

Variable Math_random : nat -> Q.

(** A step whose new head is off the board or on the snake is [gameOver()]
    applied to the state with the previous positions stored and the queued
    direction taken. *)
Lemma step_collides (budget : nat) (g : Game) (nh : Cell) :
  newHeadOf (snake g) (nextDirection g) = Some nh ->
  hitsWall nh = true \/ onSnake (snake g) nh = true ->
  step Math_random budget g = Ok (gameOver (turned g)).
Proof.
  intros Hnh Hc. destruct (snake g) as [|h t] eqn:Hs; [discriminate|].
  injection Hnh as Hnh. rewrite (step_unfold Math_random budget g h t Hs). cbv zeta.
  rewrite Hnh. destruct (hitsWall nh); [reflexivity|].
  destruct Hc as [Hc|Hc]; [discriminate|]. rewrite <- Hs in Hc. rewrite Hc. reflexivity.
Qed.

Lemma last_In (s : list Cell) (d : Cell) : s <> [] -> In (last s d) s.
Proof.
  induction s as [|a s IH]; [congruence|]. intros _.
  destruct s as [|b s]; [left; reflexivity|].
  right. apply IH. discriminate.
Qed.

End Collisions.

(** ** How [placeFood] searches *)

Section Search.

Variable Math_random : nat -> Q.

Lemma set_randomCalls_twice (a b : nat) (g : Game) :
  set_randomCalls a (set_randomCalls b g) = set_randomCalls a g.
Proof. reflexivity. Qed.


(** [placeFood] returns at the first draw that is off the snake. *)
Lemma placeFood_first_free (j budget : nat) (g : Game) :
  (forall i, (i < j)%nat ->
     onSnake (snake g) (drawnCell Math_random (randomCalls g + 2 * i)) = true) ->
  onSnake (snake g) (drawnCell Math_random (randomCalls g + 2 * j)) = false ->
  (j < budget)%nat ->
  placeFood Math_random budget g =
    Ok (set_food (Some (drawnCell Math_random (randomCalls g + 2 * j)))
          (set_randomCalls (randomCalls g + 2 * S j) g)).
Proof.
  revert budget g. induction j as [|j IH]; intros budget g Hbusy Hfree Hlt;
    (destruct budget as [|b]; [lia|]); cbn [placeFood]; cbv zeta; fields.
  - replace (randomCalls g + 2 * 0)%nat with (randomCalls g) in * by lia.
    unfold drawnCell in Hfree. rewrite Hfree. cbn [negb].
    replace (randomCalls g + 2 * 1)%nat with (S (S (randomCalls g))) by lia.
    reflexivity.
  - pose proof (Hbusy 0%nat ltac:(lia)) as H0.
    replace (randomCalls g + 2 * 0)%nat with (randomCalls g) in H0 by lia.
    unfold drawnCell in H0. rewrite H0. cbn [negb].
    rewrite (IH b (set_randomCalls (S (S (randomCalls g))) g)); fields.
    + rewrite set_randomCalls_twice.
      replace (S (S (randomCalls g)) + 2 * j)%nat
        with (randomCalls g + 2 * S j)%nat by lia.
      replace (S (S (randomCalls g)) + 2 * S j)%nat
        with (randomCalls g + 2 * S (S j))%nat by lia.
      reflexivity.
    + intros i Hi.
      replace (S (S (randomCalls g)) + 2 * i)%nat
        with (randomCalls g + 2 * S i)%nat by lia.
      apply Hbusy. lia.
    + replace (S (S (randomCalls g)) + 2 * j)%nat
        with (randomCalls g + 2 * S j)%nat by lia.
      exact Hfree.
    + lia.
Qed.

End Search.

(** The least index at which a test fails, below one at which it fails. *)
Lemma least_false (p : nat -> bool) (k : nat) :
  p k = false ->
  exists j, (j <= k)%nat /\ p j = false /\ forall i, (i < j)%nat -> p i = true.
Proof.
  revert p. induction k as [|k IH]; intros p Hk.
  - exists 0%nat. repeat split; [lia | assumption | intros i Hi; lia].
  - destruct (p 0%nat) eqn:H0.
    + destruct (IH (fun i => p (S i)) Hk) as [j [Hj [Hpj Hbelow]]].
      exists (S j). repeat split; [lia | assumption |].
      intros [|i] Hi; [assumption | apply Hbelow; lia].
    + exists 0%nat. repeat split; [lia | assumption | intros i Hi; lia].
Qed.

(** ** The clock *)

Lemma moveInterval_200 : (moveInterval == 200)%Q.
Proof. reflexivity. Qed.

Lemma due_true (a : Q) : (200 <= a)%Q -> Qle_bool moveInterval a = true.
Proof. intros H. apply Qle_bool_iff. rewrite moveInterval_200. exact H. Qed.

Lemma due_false (a : Q) : (a < 200)%Q -> Qle_bool moveInterval a = false.
Proof.
  intros H. destruct (Qle_bool moveInterval a) eqn:E; [|reflexivity].
  apply Qle_bool_iff in E. rewrite moveInterval_200 in E. lra.
Qed.

Lemma due_inv (a : Q) : Qle_bool moveInterval a = true -> (200 <= a)%Q.
Proof. intros E. apply Qle_bool_iff in E. rewrite moveInterval_200 in E. exact E. Qed.

Lemma inject_nat_succ (k : nat) :
  (inject_Z (Z.of_nat (S k)) == inject_Z (Z.of_nat k) + 1)%Q.
Proof. rewrite Nat2Z.inj_succ. unfold Z.succ. rewrite inject_Z_plus. reflexivity. Qed.

Lemma inject_nat_nonneg (k : nat) : (0 <= inject_Z (Z.of_nat k))%Q.
Proof. change 0%Q with (inject_Z 0). rewrite <- Zle_Qle. lia. Qed.

Section Clock.

Variable Math_random : nat -> Q.
Variable budget : nat.

Lemma whileDue_unfold (fuel n : nat) (g : Game) :
  whileDue Math_random fuel budget n g =
    if Qle_bool moveInterval (accumulator g) then
      match fuel with
      | O => OutOfFuel
      | S fuel' =>
          g1 <- tick Math_random budget g ;;
          if negb (isRunning g1) then Ok (S n, g1)
          else whileDue Math_random fuel' budget (S n) g1
      end
    else Ok (n, g).
Proof. destruct fuel; reflexivity. Qed.

(** With [k] whole intervals in the accumulator the loop calls [step] at most
    [k] times, and exactly [k] times, leaving nothing, when the game is still
    running afterwards. *)
Lemma whileDue_exact (k fuel n m : nat) (g g' : Game) :
  (accumulator g == inject_Z (Z.of_nat k) * 200)%Q ->
  whileDue Math_random fuel budget n g = Ok (m, g') ->
  (m <= n + k)%nat /\
  (isRunning g' = true -> m = (n + k)%nat /\ (accumulator g' == 0)%Q).
Proof.
  revert fuel n g. induction k as [|k IH]; intros fuel n g Hacc H;
    rewrite whileDue_unfold in H.
  - change (inject_Z (Z.of_nat 0)) with 0%Q in Hacc.
    rewrite due_false in H by lra. injection H as <- <-.
    split; [lia|]. intros _. split; [lia | lra].
  - rewrite inject_nat_succ in Hacc. pose proof (inject_nat_nonneg k) as Hk.
    rewrite due_true in H by nra.
    destruct fuel as [|fuel]; [discriminate|].
    destruct (tick Math_random budget g) as [g1| | |] eqn:Ht; cbn [bind] in H;
      try discriminate.
    apply step_frame in Ht. destruct Ht as (Ha & _ & _). fields.
    destruct (isRunning g1) eqn:Hr1; cbn [negb] in H.
    + apply IH in H.
      * destruct H as [Hle Hrun]. split; [lia|].
        intros Hr. destruct (Hrun Hr) as [-> H0]. split; [lia | exact H0].
      * rewrite Ha, moveInterval_200. lra.
    + injection H as <- <-. split; [lia|]. congruence.
Qed.

(** Once a due step has ended the game the loop calls [step] no more. *)
Lemma whileDue_stops (j fuel n m : nat) (g g' gj : Game) :
  isRunning g = true ->
  whileDue Math_random fuel budget n g = Ok (m, g') ->
  iterTick Math_random budget j g = Ok gj ->
  isRunning gj = false ->
  (m <= n + j)%nat.
Proof.
  revert fuel n g. induction j as [|j IH]; intros fuel n g Hr H Hj Hover.
  - injection Hj as <-. congruence.
  - rewrite whileDue_unfold in H. cbn [iterTick] in Hj.
    destruct (Qle_bool moveInterval (accumulator g)).
    + destruct fuel as [|fuel]; [discriminate|].
      destruct (tick Math_random budget g) as [g1| | |] eqn:Ht; cbn [bind] in H, Hj;
        try discriminate.
      destruct (isRunning g1) eqn:Hr1; cbn [negb] in H.
      * apply (IH fuel (S n) g1 Hr1) in H; [lia | exact Hj | exact Hover].
      * injection H as <- _. lia.
    + injection H as <- _. lia.
Qed.

(** The state the loop leaves is the state after as many turns as it counts. *)
Lemma whileDue_is_iterTick (fuel n m : nat) (g g' : Game) :
  whileDue Math_random fuel budget n g = Ok (m, g') ->
  (n <= m)%nat /\ iterTick Math_random budget (m - n) g = Ok g'.
Proof.
  revert n g. induction fuel as [|fuel IH]; intros n g H;
    rewrite whileDue_unfold in H;
    destruct (Qle_bool moveInterval (accumulator g)); try discriminate;
    try (injection H as <- <-; split; [lia|]; rewrite Nat.sub_diag; reflexivity).
  destruct (tick Math_random budget g) as [g1| | |] eqn:Ht; cbn [bind] in H;
    try discriminate.
  destruct (isRunning g1); cbn [negb] in H.
  - apply IH in H. destruct H as [Hle Hit]. split; [lia|].
    replace (m - n)%nat with (S (m - S n)) by lia.
    cbn [iterTick]. rewrite Ht. exact Hit.
  - injection H as <- <-. split; [lia|].
    replace (S n - n)%nat with 1%nat by lia.
    cbn [iterTick]. rewrite Ht. reflexivity.
Qed.

(** With a head to move and a food to test, [step] throws nothing. *)
Lemma step_not_TypeError (g : Game) :
  snake g <> [] -> food g <> None -> step Math_random budget g <> TypeError.
Proof.
  intros Hs Hf. destruct (snake g) as [|h t] eqn:Es; [congruence|].
  rewrite (step_unfold Math_random budget g h t Es). cbv zeta.
  split_ifs; try discriminate.
  destruct (food g); [|congruence]. split_ifs; try discriminate.
  match goal with
  | |- placeFood ?r ?b ?x <> _ =>
      destruct (placeFood_spins_or_returns r b x) as [E|[g' E]]; rewrite E; discriminate
  end.
Qed.

Lemma whileDue_not_TypeError (fuel n : nat) (g : Game) :
  Inv (fun _ => True) g -> isRunning g = true ->
  whileDue Math_random fuel budget n g <> TypeError.
Proof.
  revert n g. induction fuel as [|fuel IH]; intros n g HI Hr;
    rewrite whileDue_unfold;
    destruct (Qle_bool moveInterval (accumulator g)); try discriminate.
  unfold tick.
  destruct (step Math_random budget _) as [g1| | |] eqn:Hstep; cbn [bind];
    try discriminate.
  - destruct (isRunning g1) eqn:Hr1; cbn [negb]; [|discriminate].
    apply IH; [|exact Hr1].
    eapply (step_Inv Math_random (fun _ => True)); [trivial| |exact Hstep].
    eapply Inv_ext; [| | |exact HI]; reflexivity.
  - exfalso. revert Hstep. destruct HI as (_ & _ & Hrun).
    destruct (Hrun Hr) as [Hs Hf]. apply step_not_TypeError; fields; assumption.
Qed.

Lemma step_not_OutOfFuel (g : Game) : step Math_random budget g <> OutOfFuel.
Proof.
  destruct (snake g) as [|h t] eqn:Hs.
  - destruct g; cbn [snake] in Hs; subst; discriminate.
  - rewrite (step_unfold Math_random budget g h t Hs). cbv zeta.
    split_ifs; try discriminate.
    destruct (food g); [|discriminate]. split_ifs; try discriminate.
    match goal with
    | |- placeFood ?r ?b ?x <> _ =>
        destruct (placeFood_spins_or_returns r b x) as [E|[g' E]]; rewrite E; discriminate
    end.
Qed.

Lemma one_interval_less (a : Q) :
  (200 <= a)%Q ->
  (Z.to_nat (Qfloor ((a - moveInterval) / moveInterval))
   < Z.to_nat (Qfloor (a / moveInterval)))%nat.
Proof.
  intros Ha.
  assert (E : ((a - moveInterval) / moveInterval == a / moveInterval - 1)%Q).
  { rewrite moveInterval_200. field. }
  rewrite E. set (q := (a / moveInterval)%Q).
  assert (Hq : (1 <= q)%Q).
  { unfold q. rewrite moveInterval_200. apply Qle_shift_div_l; lra. }
  assert (H1 : 1 <= Qfloor q).
  { change 1 with (Qfloor (inject_Z 1)) at 1. apply Qfloor_resp_le. exact Hq. }
  assert (H2 : Qfloor (q - 1) < Qfloor q).
  { rewrite Zlt_Qlt.
    pose proof (Qfloor_le (q - 1)) as Hlo. pose proof (Qlt_floor q) as Hhi.
    rewrite inject_Z_plus in Hhi. change (inject_Z 1) with 1%Q in Hhi. lra. }
  lia.
Qed.

(** The bound [gameLoop] gives to its loop is never the reason it stops. *)
Lemma whileDue_enough_fuel (fuel n : nat) (g : Game) :
  (Z.to_nat (Qfloor (accumulator g / moveInterval)) < fuel)%nat ->
  whileDue Math_random fuel budget n g <> OutOfFuel.
Proof.
  revert n g. induction fuel as [|fuel IH]; intros n g Hlt; [lia|].
  rewrite whileDue_unfold.
  destruct (Qle_bool moveInterval (accumulator g)) eqn:Hdue; [|discriminate].
  apply due_inv in Hdue. unfold tick.
  destruct (step Math_random budget _) as [g1| | |] eqn:Hstep; cbn [bind];
    try discriminate.
  - destruct (isRunning g1); cbn [negb]; [|discriminate].
    apply IH. apply step_frame in Hstep. destruct Hstep as (Ha & _). fields.
    rewrite Ha. pose proof (one_interval_less (accumulator g) Hdue). lia.
  - exfalso. exact (step_not_OutOfFuel _ Hstep).
Qed.

Lemma gameLoop_not_OutOfFuel (timestamp : Q) (g : Game) :
  gameLoop Math_random budget timestamp g <> OutOfFuel.
Proof.
  unfold gameLoop. destruct (isRunning g); cbn [negb]; [|discriminate]. cbv zeta.
  match goal with
  | |- bind (whileDue ?r ?f ?b ?n ?x) _ <> _ =>
      pose proof (whileDue_enough_fuel f n x) as Hfuel;
      destruct (whileDue r f b n x) as [[m g1]| | |]
  end; cbn [bind]; try discriminate.
  exfalso. apply Hfuel; [|reflexivity]. unfold loopBound. lia.
Qed.

Lemma initGame_spins_or_returns (now : Q) (g : Game) :
  initGame Math_random budget now g = Spinning \/
  exists g', initGame Math_random budget now g = Ok g'.
Proof.
  unfold initGame. cbv zeta.
  match goal with
  | |- bind (placeFood ?r ?b ?x) _ = _ \/ _ =>
      destruct (placeFood_spins_or_returns r b x) as [E|[g' E]]; rewrite E; cbn [bind]
  end; [left; reflexivity | right; eexists; reflexivity].
Qed.

(** A handler either returns or is spinning in [placeFood]: it reads no
    property of [undefined] or [null], and the bound of the frame loop is
    never what stops it. *)
Lemma handle_returns_or_spins (e : Event) (g : Game) :
  Inv (fun _ => True) g ->
  handle Math_random budget e g = Spinning \/
  exists g', handle Math_random budget e g = Ok g'.
Proof.
  intros HI. destruct e as [key now|cx cy|cx cy now|now|timestamp]; cbn [handle].
  - unfold keydown. split_ifs; [|right; eexists; reflexivity].
    destruct (initGame_spins_or_returns now g) as [E|[g' E]]; rewrite E; cbn [bind];
      [left; reflexivity | right; eexists; reflexivity].
  - right. eexists. reflexivity.
  - unfold touchend. destruct (touchStartX g); [|right; eexists; reflexivity].
    destruct (touchStartY g); [|right; eexists; reflexivity].
    split_ifs; [|right; eexists; reflexivity].
    destruct (initGame_spins_or_returns now g) as [E|[g' E]]; rewrite E; cbn [bind];
      [left; reflexivity | right; eexists; reflexivity].
  - apply initGame_spins_or_returns.
  - pose proof (gameLoop_not_OutOfFuel timestamp g) as Hfuel.
    assert (Hthrow : gameLoop Math_random budget timestamp g <> TypeError).
    { unfold gameLoop. destruct (isRunning g) eqn:Hr; cbn [negb]; [|discriminate].
      cbv zeta.
      match goal with
      | |- bind (whileDue ?r ?f ?b ?n ?x) _ <> _ =>
          pose proof (whileDue_not_TypeError f n x) as Hw;
          destruct (whileDue r f b n x) as [[m g1]| | |]
      end; cbn [bind]; try discriminate.
      exfalso. apply Hw; [| |reflexivity]; fields; [|exact Hr].
      eapply Inv_ext; [| | |exact HI]; reflexivity. }
    destruct (gameLoop Math_random budget timestamp g) as [fr| | |]; cbn [bind];
      try congruence; [right; eexists; reflexivity | left; reflexivity].
Qed.

Lemma run_returns_or_spins (evs : list Event) (g : Game) :
  Inv (fun _ => True) g ->
  run Math_random budget evs g = Spinning \/
  exists g', run Math_random budget evs g = Ok g'.
Proof.
  revert g. induction evs as [|e evs IH]; intros g HI; cbn [run].
  - right. eexists. reflexivity.
  - destruct (handle_returns_or_spins e g HI) as [E|[g1 E]]; rewrite E; cbn [bind];
      [left; reflexivity|].
    apply IH. eapply (handle_Inv Math_random (fun _ => True)); [trivial | exact HI | exact E].
Qed.

End Clock.

(** ** The [switch] of the keydown handler *)

Lemma set_nextDirection_same (g : Game) : set_nextDirection (nextDirection g) g = g.
Proof. destruct g; reflexivity. Qed.

(** On a heading, the [switch] of the keydown handler follows [accept]. *)
Lemma keySwitch_accept (key : string) (g : Game) :
  isHeading (direction g) ->
  keySwitch key g =
    set_nextDirection (accept (direction g) (keyDirection key) (nextDirection g)) g.
Proof.
  intros Hd. unfold keySwitch, keyDirection.
  destruct g. cbn [direction nextDirection] in *.
  destruct Hd as [-> | [-> | [-> | ->]]];
    destruct ((key =? "ArrowUp") || (key =? "w") || (key =? "W"))%string;
    try reflexivity;
    destruct ((key =? "ArrowDown") || (key =? "s") || (key =? "S"))%string;
    try reflexivity;
    destruct ((key =? "ArrowLeft") || (key =? "a") || (key =? "A"))%string;
    try reflexivity;
    destruct ((key =? "ArrowRight") || (key =? "d") || (key =? "D"))%string;
    reflexivity.
Qed.

(** ** The snake never reverses *)

Lemma Headed_ext (g g' : Game) :
  direction g' = direction g -> nextDirection g' = nextDirection g ->
  Headed g -> Headed g'.
Proof. unfold Headed. intros -> ->. tauto. Qed.

Lemma heading_not_own_opposite (d : Cell) : isHeading d -> d <> opposite d.
Proof. intros [-> | [-> | [-> | ->]]]; discriminate. Qed.

Lemma keyDirection_heading (key : string) (d : Cell) :
  keyDirection key = Some d -> isHeading d.
Proof.
  unfold keyDirection, isHeading. split_ifs; intros H; try discriminate;
    injection H as <-; tauto.
Qed.

Lemma accept_Headed (cur queued : Cell) (req : option Cell) :
  isHeading cur -> isHeading queued -> queued <> opposite cur ->
  (forall d, req = Some d -> isHeading d) ->
  isHeading (accept cur req queued) /\ accept cur req queued <> opposite cur.
Proof.
  intros Hc Hq Hne Hreq. destruct req as [d|]; cbn [accept]; [|tauto].
  destruct (sameCell d (opposite cur)) eqn:E; [tauto|].
  apply sameCell_false in E. split; [apply Hreq; reflexivity | exact E].
Qed.

Lemma keySwitch_Headed (key : string) (g : Game) : Headed g -> Headed (keySwitch key g).
Proof.
  intros (Hd & Hq & Hne). rewrite keySwitch_accept by assumption.
  destruct (accept_Headed (direction g) (nextDirection g) (keyDirection key) Hd Hq Hne
              (keyDirection_heading key)) as [H1 H2].
  repeat split; fields; assumption.
Qed.

Lemma swipe_Headed (dx dy : Q) (g : Game) : Headed g -> Headed (swipe dx dy g).
Proof.
  intros (Hd & Hq & Hne). unfold swipe.
  destruct (Qgt_bool (Qabs dx) (Qabs dy)), (Qgt_bool dx 0), (Qgt_bool 0 dx),
    (Qgt_bool dy 0), (Qgt_bool 0 dy);
    destruct g; fields;
    destruct Hd as [-> | [-> | [-> | ->]]]; simpl;
    unfold Headed, isHeading; fields;
    (repeat split; [tauto | first [assumption | tauto] | first [assumption | discriminate]]).
Qed.

Section Headings.

Variable Math_random : nat -> Q.
Variable budget : nat.

Lemma step_directions (g g' : Game) :
  step Math_random budget g = Ok g' ->
  direction g' = nextDirection g /\ nextDirection g' = nextDirection g.
Proof.
  intros H. destruct (step_outcome Math_random budget g g' H) as [nh [_ Hout]].
  destruct Hout as [_ ->|_ _ _ Hsb _|_ _ _ ->]; unfold turned in *; fields; try tauto.
  destruct (sameButFood_fields _ _ Hsb) as (_ & _ & Hd & Hn & _). fields. tauto.
Qed.

Lemma step_Headed (g g' : Game) :
  Headed g -> step Math_random budget g = Ok g' -> Headed g'.
Proof.
  intros (_ & Hq & _) H. destruct (step_directions g g' H) as [Hd Hn].
  unfold Headed. rewrite Hd, Hn. repeat split; try assumption.
  apply heading_not_own_opposite. assumption.
Qed.

Lemma whileDue_Headed (fuel n m : nat) (g g' : Game) :
  Headed g -> whileDue Math_random fuel budget n g = Ok (m, g') -> Headed g'.
Proof.
  revert n g. induction fuel as [|fuel IH]; intros n g HI H;
    rewrite whileDue_unfold in H;
    destruct (Qle_bool moveInterval (accumulator g));
    try discriminate; try (injection H as _ <-; assumption).
  destruct (tick Math_random budget g) as [g1| | |] eqn:Ht; cbn [bind] in H;
    try discriminate.
  assert (H1 : Headed g1).
  { eapply step_Headed; [|exact Ht]. eapply Headed_ext; [| |exact HI]; reflexivity. }
  destruct (isRunning g1); cbn [negb] in H.
  - eapply IH; eassumption.
  - injection H as _ <-. assumption.
Qed.

Lemma initGame_Headed (now : Q) (g g' : Game) :
  initGame Math_random budget now g = Ok g' -> Headed g'.
Proof.
  intros H. apply initGame_returns in H. destruct H as (_ & Hd & Hn & _).
  unfold Headed, isHeading. rewrite Hd, Hn. repeat split; try tauto. discriminate.
Qed.

Lemma handle_Headed (e : Event) (g g' : Game) :
  Headed g -> handle Math_random budget e g = Ok g' -> Headed g'.
Proof.
  intros HI. destruct e as [key now|cx cy|cx cy now|now|timestamp]; cbn [handle].
  - unfold keydown.
    destruct (negb (isRunning g) && negb (isGameOver g) &&
              (startsWithArrow key || testWasd key)).
    + destruct (initGame _ _ _ _) as [g1| | |] eqn:Hi; cbn [bind]; try discriminate.
      intros H. injection H as <-. apply keySwitch_Headed.
      eapply initGame_Headed; exact Hi.
    + cbn [bind]. intros H. injection H as <-. apply keySwitch_Headed. assumption.
  - intros H. injection H as <-. eapply Headed_ext; [| |exact HI]; reflexivity.
  - unfold touchend.
    destruct (touchStartX g) as [sx|]; [|intros H; injection H as <-; assumption].
    destruct (touchStartY g) as [sy|]; [|intros H; injection H as <-; assumption].
    destruct (negb (isRunning g) && negb (isGameOver g)).
    + destruct (initGame _ _ _ _) as [g1| | |] eqn:Hi; cbn [bind]; try discriminate.
      intros H. injection H as <-.
      eapply Headed_ext; [| |apply (swipe_Headed (cx - sx) (cy - sy) g1)];
        try reflexivity.
      eapply initGame_Headed; exact Hi.
    + cbn [bind]. intros H. injection H as <-.
      eapply Headed_ext; [| |apply (swipe_Headed (cx - sx) (cy - sy) g)];
        try reflexivity. assumption.
  - apply initGame_Headed.
  - unfold gameLoop. destruct (isRunning g); cbn [negb].
    + cbv zeta.
      match goal with
      | |- bind (bind (whileDue ?r ?f ?b ?n ?x) _) _ = _ -> _ =>
          destruct (whileDue r f b n x) as [[m g1]| | |] eqn:Hw
      end; cbn [bind]; try discriminate.
      intros H. injection H as <-. cbn [after snd].
      apply whileDue_Headed in Hw.
      * revert Hw. apply Headed_ext; unfold decayEatAnim; split_ifs; reflexivity.
      * eapply Headed_ext; [| |exact HI]; reflexivity.
    + cbn [bind after]. intros H. injection H as <-. assumption.
Qed.

(** In every state of a session the applied and the queued direction are
    headings and the queued one is not the reverse of the applied one: no
    step turns the snake back onto its neck. *)
Lemma run_Headed (evs : list Event) (g g' : Game) :
  Headed g -> run Math_random budget evs g = Ok g' -> Headed g'.
Proof.
  revert g. induction evs as [|e evs IH]; intros g HI H; cbn [run] in H.
  - injection H as <-. assumption.
  - destruct (handle _ _ _ _) as [g1| | |] eqn:He; cbn [bind] in H; try discriminate.
    eapply IH; [|exact H]. eapply handle_Headed; eassumption.
Qed.

End Headings.

Lemma Headed_boot : Headed boot.
Proof.
  unfold Headed, isHeading, boot; fields. repeat split; try tauto. discriminate.
Qed.

(** X10. In every state of a session whose [Math.random] stays in [[0, 1)],
    the food lies on a cell of the board that the snake does not occupy. *)
Lemma food_on_free_cell (rnd : nat -> Q) (budget : nat) (evs : list Event) (g : Game)
    (f : Cell) :
  validRandom rnd ->
  run rnd budget evs boot = Ok g ->
  food g = Some f ->
  inGrid f /\ ~ In f (snake g).
Proof.
  intros Hv Hrun Hf.
  assert (HI : Inv inGrid g).
  { eapply (run_Inv rnd inGrid); [|apply Inv_boot | exact Hrun].
    intros i. apply drawnCell_inGrid. exact Hv. }
  destruct HI as (_ & Hfood & _). destruct (Hfood f Hf) as [Hfree Hgrid].
  split; [exact Hgrid | apply onSnake_false; exact Hfree].
Qed.


(** Every key the [switch] knows is a key that starts the game. *)
Lemma steering_key_starts (key : string) (d : Cell) :
  keyDirection key = Some d -> startsWithArrow key || testWasd key = true.
Proof.
  intros H.
  label key "ArrowUp"%string. label key "w"%string. label key "W"%string.
  label key "ArrowDown"%string. label key "s"%string. label key "S"%string.
  label key "ArrowLeft"%string. label key "a"%string. label key "A"%string.
  label key "ArrowRight"%string. label key "d"%string. label key "D"%string.
  unfold keyDirection in H.
  repeat rewrite (proj2 (String.eqb_neq _ _)) in H by assumption.
  discriminate.
Qed.

(** ** When the search for a free cell ends *)

(** The draw of a number in the middle of the [v]-th thirteenth of [[0, 1)]
    is [v]. *)
Lemma floor_mid (v : Z) : Qfloor (((2 * v + 1) # 26) * inject_Z tileCount) = v.
Proof.
  unfold Qfloor, Qmult, inject_Z, tileCount. cbn [Qnum Qden].
  change (Z.pos (26 * 1)) with 26.
  symmetry. apply (Z.div_unique _ _ _ 13); lia.
Qed.

(** Whatever coordinates [Math.floor(Math.random() * tileCount)] comes to,
    call after call, some [Math_random] of the model draws just these. *)
Lemma source_of_draws (coord : nat -> Z) :
  (forall i, 0 <= coord i < tileCount) ->
  exists rnd, validRandom rnd /\ forall i, randomCoord rnd i = coord i.
Proof.
  intros Hc. exists (fun i => (2 * coord i + 1) # 26). split.
  - intros i. specialize (Hc i). unfold tileCount in Hc.
    unfold Qle, Qlt. cbn [Qnum Qden]. lia.
  - intros i. apply floor_mid.
Qed.

Lemma randomCoord_sweep (i : nat) : randomCoord sweep i = sweepCoord i.
Proof. apply floor_mid. Qed.

Lemma sweep_covers (i : nat) (x y : Z) :
  0 <= x < 13 -> 0 <= y < 13 ->
  exists k, (k < 169)%nat /\
    sweepCoord (i + 2 * k) = x /\ sweepCoord (S (i + 2 * k)) = y.
Proof.
  intros Hx Hy. unfold sweepCoord. cbv zeta.
  destruct (Z.eqb_spec (Z.of_nat i mod 2) 0) as [E|E].
  - exists (Z.to_nat ((13 * y + x - Z.of_nat i / 2) mod 169)).
    set (k := (13 * y + x - Z.of_nat i / 2) mod 169).
    assert (Hk : 0 <= k < 169) by (apply Z.mod_pos_bound; lia).
    split; [lia|].
    replace (Z.of_nat (S (i + 2 * Z.to_nat k))) with (Z.of_nat i + 2 * k + 1) by lia.
    replace (Z.of_nat (i + 2 * Z.to_nat k)) with (Z.of_nat i + 2 * k) by lia.
    destruct (Z.eqb_spec ((Z.of_nat i + 2 * k) mod 2) 0) as [E1|E1];
    destruct (Z.eqb_spec ((Z.of_nat i + 2 * k + 1) mod 2) 0) as [E2|E2];
      try (exfalso; Z.div_mod_to_equations; lia).
    unfold k in *. Z.div_mod_to_equations. lia.
  - exists (Z.to_nat ((13 * x + (y - 1) mod 13 - Z.of_nat i / 2) mod 169)).
    set (k := (13 * x + (y - 1) mod 13 - Z.of_nat i / 2) mod 169).
    assert (Hk : 0 <= k < 169) by (apply Z.mod_pos_bound; lia).
    split; [lia|].
    replace (Z.of_nat (S (i + 2 * Z.to_nat k))) with (Z.of_nat i + 2 * k + 1) by lia.
    replace (Z.of_nat (i + 2 * Z.to_nat k)) with (Z.of_nat i + 2 * k) by lia.
    destruct (Z.eqb_spec ((Z.of_nat i + 2 * k) mod 2) 0) as [E1|E1];
    destruct (Z.eqb_spec ((Z.of_nat i + 2 * k + 1) mod 2) 0) as [E2|E2];
      try (exfalso; Z.div_mod_to_equations; lia).
    unfold k in *. Z.div_mod_to_equations. lia.
Qed.

(** [sweep] draws every cell of the board within any 169 draws in a row. *)
Lemma sweep_generous : Generous sweep 169.
Proof.
  intros i [x y] [Hx Hy]. cbn [px py] in Hx, Hy. unfold tileCount in Hx, Hy.
  destruct (sweep_covers i x y Hx Hy) as [k [Hk [Ex Ey]]].
  exists k. split; [exact Hk|].
  unfold drawnCell. rewrite !randomCoord_sweep, Ex, Ey. reflexivity.
Qed.


Lemma distinct_NoDup (s : list Cell) : distinct s = true -> NoDup s.
Proof.
  induction s as [|c s IH]; intros H; [constructor|].
  cbn [distinct] in H. apply andb_true_iff in H. destruct H as [Hc Hs].
  apply negb_true_iff in Hc. constructor; [apply onSnake_false; exact Hc | apply IH; exact Hs].
Qed.

Lemma allCells_NoDup : NoDup allCells.
Proof. apply distinct_NoDup. vm_compute. reflexivity. Qed.

Lemma allCells_inGrid (c : Cell) : In c allCells -> inGrid c.
Proof.
  intros Hin. apply inGrid_hitsWall.
  assert (H : forallb (fun c => negb (hitsWall c)) allCells = true)
    by (vm_compute; reflexivity).
  rewrite forallb_forall in H. apply negb_true_iff. apply H. exact Hin.
Qed.

(** A snake of fewer cells than the board has leaves a cell of it free. *)
Lemma free_cell_exists (s : list Cell) :
  (List.length s < boardCells)%nat -> exists c, inGrid c /\ ~ In c s.
Proof.
  intros Hlen. destruct (existsb (fun c => negb (onSnake s c)) allCells) eqn:E.
  - apply existsb_exists in E. destruct E as [c [Hin Hc]].
    exists c. split; [apply allCells_inGrid; exact Hin|].
    apply onSnake_false. apply negb_true_iff. exact Hc.
  - exfalso. assert (Hincl : incl allCells s).
    { intros c Hin. apply onSnake_true. destruct (onSnake s c) eqn:Ec; [reflexivity|].
      exfalso. apply not_true_iff_false in E. apply E. apply existsb_exists.
      exists c. split; [exact Hin | rewrite Ec; reflexivity]. }
    apply (NoDup_incl_length allCells_NoDup) in Hincl.
    change (List.length allCells) with boardCells in Hincl. lia.
Qed.

Lemma removelast_shorter (s : list Cell) :
  (List.length (removelast s) <= List.length s)%nat.
Proof.
  induction s as [|a s IH]; [apply Nat.le_refl|].
  destruct s as [|b s]; [cbn; lia|].
  change (S (List.length (removelast (b :: s))) <= S (List.length (b :: s)))%nat. lia.
Qed.

(** A returned [step] leaves a snake, at most one cell longer, and a food if
    there was one. *)
Lemma step_grows (rnd : nat -> Q) (budget : nat) (g g' : Game) :
  step rnd budget g = Ok g' ->
  snake g' <> [] /\ (food g <> None -> food g' <> None) /\
  (List.length (snake g') <= S (List.length (snake g)))%nat.
Proof.
  intros H. destruct (step_outcome rnd budget g g' H) as [nh [Hnh Hout]].
  assert (Hs : snake g <> []) by (destruct (snake g); [discriminate | congruence]).
  destruct Hout as [_ ->|_ _ _ Hsb [i [Hf _]]|_ _ _ ->]; unfold turned in *; fields.
  - split; [exact Hs|]. split; [tauto | lia].
  - destruct (sameButFood_fields _ _ Hsb) as (Hsn & _). fields. rewrite Hsn, Hf.
    split; [discriminate|]. split; [discriminate | cbn [List.length]; lia].
  - split; [discriminate|]. split; [tauto|].
    cbn [List.length]. pose proof (removelast_shorter (snake g)). lia.
Qed.

Lemma gameLoop_elapsedFrame (rnd : nat -> Q) (budget : nat) (timestamp : Q) (g : Game) :
  isRunning g = true ->
  gameLoop rnd budget timestamp g =
    elapsedFrame rnd budget (timestamp - lastTime g) timestamp g.
Proof. intros Hr. unfold gameLoop, elapsedFrame. rewrite Hr. reflexivity. Qed.

Section Returns.

Variable Math_random : nat -> Q.
Variable budget : nat.

(** [placeFood] returns once a draw within the budget is off the snake. *)
Lemma placeFood_free_draw (g : Game) (k : nat) :
  (k < budget)%nat ->
  onSnake (snake g) (drawnCell Math_random (randomCalls g + 2 * k)) = false ->
  exists g', placeFood Math_random budget g = Ok g'.
Proof.
  intros Hk Hfree.
  destruct (least_false
              (fun i => onSnake (snake g) (drawnCell Math_random (randomCalls g + 2 * i))) k Hfree)
    as [j [Hj [Hjfree Hbelow]]].
  eexists. apply (placeFood_first_free Math_random j budget g Hbelow Hjfree). lia.
Qed.

Lemma initGame_free_draw (now : Q) (g : Game) (k : nat) :
  (k < budget)%nat ->
  onSnake startSnake (drawnCell Math_random (randomCalls g + 2 * k)) = false ->
  exists g', initGame Math_random budget now g = Ok g'.
Proof.
  intros Hk Hfree. unfold initGame. cbv zeta.
  match goal with
  | |- exists g', bind (placeFood _ _ ?x) _ = _ =>
      destruct (placeFood_free_draw x k Hk Hfree) as [g1 E]; rewrite E
  end.
  cbn [bind]. eexists. reflexivity.
Qed.

Hypothesis generous : Generous Math_random budget.

Lemma placeFood_generous (g : Game) :
  (List.length (snake g) < boardCells)%nat ->
  exists g', placeFood Math_random budget g = Ok g'.
Proof.
  intros Hlen. destruct (free_cell_exists (snake g) Hlen) as [c [Hc Hfree]].
  destruct (generous (randomCalls g) c Hc) as [k [Hk Ek]].
  apply (placeFood_free_draw g k Hk). rewrite Ek. apply onSnake_false. exact Hfree.
Qed.

Lemma initGame_generous (now : Q) (g : Game) :
  exists g', initGame Math_random budget now g = Ok g'.
Proof.
  unfold initGame. cbv zeta.
  match goal with
  | |- exists g', bind (placeFood _ _ ?x) _ = _ =>
      destruct (placeFood_generous x) as [g1 E]; [vm_compute; lia | rewrite E]
  end.
  cbn [bind]. eexists. reflexivity.
Qed.

(** With a head to move, a food to test and room for one more cell, [step]
    returns. *)
Lemma step_generous (g : Game) :
  snake g <> [] -> food g <> None ->
  (S (List.length (snake g)) < boardCells)%nat ->
  exists g', step Math_random budget g = Ok g'.
Proof.
  intros Hs Hf Hlen. destruct (snake g) as [|h t] eqn:Es; [congruence|].
  rewrite (step_unfold Math_random budget g h t Es). cbv zeta.
  split_ifs; try (eexists; reflexivity).
  destruct (food g); [|congruence]. split_ifs; [|eexists; reflexivity].
  apply placeFood_generous. unfold turned; fields. rewrite Es.
  cbn [List.length] in *. lia.
Qed.

(** The loop of a frame returns when the snake has room for as many cells as
    the accumulator holds intervals. *)
Lemma whileDue_generous (fuel n : nat) (g : Game) :
  snake g <> [] -> food g <> None ->
  (List.length (snake g) + Z.to_nat (Qfloor (accumulator g / moveInterval))
   < boardCells)%nat ->
  (Z.to_nat (Qfloor (accumulator g / moveInterval)) < fuel)%nat ->
  exists r, whileDue Math_random fuel budget n g = Ok r.
Proof.
  revert n g. induction fuel as [|fuel IH]; intros n g Hs Hf Hroom Hfuel; [lia|].
  rewrite whileDue_unfold.
  destruct (Qle_bool moveInterval (accumulator g)) eqn:Hdue; [|eexists; reflexivity].
  apply due_inv in Hdue. pose proof (one_interval_less (accumulator g) Hdue) as Hless.
  unfold tick.
  destruct (step_generous (set_accumulator (accumulator g - moveInterval)%Q g))
    as [g1 Hstep]; fields; try assumption; [lia|].
  rewrite Hstep. cbn [bind].
  destruct (isRunning g1); cbn [negb]; [|eexists; reflexivity].
  destruct (step_grows _ _ _ _ Hstep) as (Hs1 & Hf1 & Hlen1). fields.
  apply step_frame in Hstep. destruct Hstep as (Ha & _). fields.
  apply IH; [exact Hs1 | apply Hf1; exact Hf | rewrite Ha; lia | rewrite Ha; lia].
Qed.

Lemma elapsedFrame_generous (delta timestamp : Q) (g : Game) :
  snake g <> [] -> food g <> None ->
  (List.length (snake g) +
   Z.to_nat (Qfloor ((accumulator g + delta) / moveInterval)) < boardCells)%nat ->
  exists fr, elapsedFrame Math_random budget delta timestamp g = Ok fr.
Proof.
  intros Hs Hf Hroom. unfold elapsedFrame. cbv zeta.
  match goal with
  | |- exists fr, bind (whileDue _ ?f _ ?n ?x) _ = _ =>
      destruct (whileDue_generous f n x) as [r E]
  end; fields; try assumption; [unfold loopBound; lia|].
  rewrite E. cbn [bind]. eexists. reflexivity.
Qed.

End Returns.

(** * The claims *)

(** ** C1: the cells of the snake are pairwise distinct *)

(** C1. In every state a session reaches from the boot state, whatever
    [Math.random] returns, the cells of the snake of a running game are
    pairwise distinct. *)
Theorem snake_cells_distinct (rnd : nat -> Q) (budget : nat) (evs : list Event) (g : Game) :
  run rnd budget evs boot = Ok g ->
  isRunning g = true ->
  NoDup (snake g).
Proof.
  intros Hrun _.
  assert (HI : Inv (fun _ => True) g).
  { eapply (run_Inv rnd (fun _ => True)); [trivial | apply Inv_boot | exact Hrun]. }
  exact (proj1 HI).
Qed.

Lemma snake_cells_distinct_witness :
  run foodAhead 5 threeSteps boot = Ok grown /\
  NoDup [mkCell 6 6; mkCell 5 6; mkCell 4 6; mkCell 3 6].
Proof.
  split; [vm_compute; reflexivity|].
  apply (snake_cells_distinct foodAhead 5 threeSteps grown);
    vm_compute; reflexivity.
Defined.

(** ** C2: eating *)

Lemma length_removelast_cons (c : Cell) (s : list Cell) :
  List.length (removelast (c :: s)) = List.length s.
Proof.
  revert c. induction s as [|b s IH]; intros c; [reflexivity|].
  change (S (List.length (removelast (b :: s))) = S (List.length s)).
  rewrite IH. reflexivity.
Qed.

(** C2. Take a state whose food lies on a free cell of the board. When the
    new head is the food cell, [step] is in [placeFood]: whenever it returns
    the score is one more, the snake is the new head in front of the whole
    old snake (one cell longer, tail kept) and the bite timer is 200; it does
    return as soon as a draw within the budget is off the grown snake. When
    the new head is another free cell of the board, [step] returns with the
    score unchanged and the snake the new head in front of the old snake
    without its tail (same length). *)
Theorem eating_grows_by_one (rnd : nat -> Q) (budget : nat) (g : Game)
    (h : Cell) (t : list Cell) (f : Cell) :
  snake g = h :: t ->
  food g = Some f ->
  inGrid f ->
  ~ In f (snake g) ->
  let nh := mkCell (px h + px (nextDirection g)) (py h + py (nextDirection g)) in
  (nh = f ->
     (forall g', step rnd budget g = Ok g' ->
        score g' = score g + 1 /\
        List.length (snake g') = S (List.length (snake g)) /\
        snake g' = nh :: snake g /\
        eatAnimMs g' = 200%Q /\
        isRunning g' = isRunning g) /\
     (forall k, (k < budget)%nat ->
        onSnake (nh :: snake g) (drawnCell rnd (randomCalls g + 2 * k)) = false ->
        exists g', step rnd budget g = Ok g') /\
     (step rnd budget g = Spinning \/ exists g', step rnd budget g = Ok g'))
  /\
  (nh <> f -> inGrid nh -> ~ In nh (snake g) ->
     exists g', step rnd budget g = Ok g' /\
       score g' = score g /\
       List.length (snake g') = List.length (snake g) /\
       snake g' = nh :: removelast (snake g) /\
       isRunning g' = isRunning g).
Proof.
  intros Hs Hf Hgrid Hfree nh.
  pose proof (step_unfold rnd budget g h t Hs) as Hstep. cbv zeta in Hstep.
  fold nh in Hstep. rewrite Hf in Hstep. split.
  - intros ->.
    apply inGrid_hitsWall in Hgrid. apply onSnake_false in Hfree.
    rewrite Hgrid, Hfree in Hstep.
    rewrite (proj2 (sameCell_true f f) eq_refl) in Hstep.
    rewrite Hstep. repeat split.
    + apply placeFood_returns in H. destruct H as [Hsb _].
      destruct (sameButFood_fields _ _ Hsb) as (_ & _ & _ & _ & Hsc & _).
      unfold turned in Hsc; fields. exact Hsc.
    + apply placeFood_returns in H. destruct H as [Hsb _].
      destruct (sameButFood_fields _ _ Hsb) as (Hsn & _).
      unfold turned in Hsn; fields. rewrite Hsn. reflexivity.
    + apply placeFood_returns in H. destruct H as [Hsb _].
      destruct (sameButFood_fields _ _ Hsb) as (Hsn & _).
      unfold turned in Hsn; fields. exact Hsn.
    + apply placeFood_returns in H. destruct H as [Hsb _].
      destruct (sameButFood_fields _ _ Hsb) as (_ & _ & _ & _ & _ & _ & _ & He & _).
      unfold turned in He; fields. exact He.
    + apply placeFood_returns in H. destruct H as [Hsb _].
      destruct (sameButFood_fields _ _ Hsb) as (_ & _ & _ & _ & _ & Hr & _).
      unfold turned in Hr; fields. exact Hr.
    + intros k Hk Hk_free.
      set (g1 := set_eatAnimMs 200%Q (set_score (score g + 1)
                   (set_snake (f :: snake g) (turned g)))).
      destruct (least_false
                  (fun i => onSnake (snake g1) (drawnCell rnd (randomCalls g1 + 2 * i))) k)
        as [j [Hj [Hjfree Hbelow]]]; [exact Hk_free|].
      eexists. apply (placeFood_first_free rnd j budget g1 Hbelow Hjfree). lia.
    + apply placeFood_spins_or_returns.
  - intros Hneq Hnh_grid Hnh_free.
    apply inGrid_hitsWall in Hnh_grid. apply onSnake_false in Hnh_free.
    rewrite Hnh_grid, Hnh_free in Hstep.
    rewrite (proj2 (sameCell_false nh f) Hneq) in Hstep.
    eexists. split; [exact Hstep|]. unfold turned; fields.
    rewrite Hs. repeat split.
    rewrite length_removelast_cons. reflexivity.
Qed.

Lemma eating_grows_by_one_witness :
  exists g', step foodAhead 5 aboutToEat = Ok g' /\
             score g' = 1 /\ List.length (snake g') = 4%nat /\ eatAnimMs g' = 200%Q.
Proof.
  destruct (eating_grows_by_one foodAhead 5 aboutToEat (mkCell 3 6)
              [mkCell 2 6; mkCell 1 6] (mkCell 4 6)) as [Heat _].
  - reflexivity.
  - reflexivity.
  - unfold inGrid, tileCount; simpl; lia.
  - simpl; intuition discriminate.
  - destruct (Heat eq_refl) as (Hprops & Hfinds & _).
    destruct (Hfinds 0%nat) as [g' Hg']; [lia | reflexivity |].
    exists g'. split; [exact Hg'|].
    destruct (Hprops g' Hg') as (Hsc & Hlen & _ & Hbite & _).
    repeat split; assumption.
Defined.

(** ** C3: the tail counts as occupied *)

(** C3. A step whose new head is one of the cells of the snake, the cell of
    the tail included although a move without growth would vacate it, ends
    the game: [step] returns with [isRunning] false and [isGameOver] true. *)
Theorem self_collision_counts_tail (rnd : nat -> Q) (budget : nat) (g : Game) (nh : Cell) :
  newHeadOf (snake g) (nextDirection g) = Some nh ->
  In nh (snake g) \/ nh = last (snake g) nh ->
  exists g', step rnd budget g = Ok g' /\
             isRunning g' = false /\ isGameOver g' = true /\ snake g' = snake g.
Proof.
  intros Hnh Hon.
  assert (Hin : In nh (snake g)).
  { destruct Hon as [Hin|Hlast]; [assumption|].
    rewrite Hlast. apply last_In. destruct (snake g); [discriminate | congruence]. }
  exists (gameOver (turned g)). split.
  - apply (step_collides rnd budget g nh Hnh). right. apply onSnake_true. assumption.
  - unfold turned; fields. repeat split.
Qed.

Lemma self_collision_counts_tail_witness :
  newHeadOf (snake curled) (nextDirection curled) = Some (mkCell 3 6) /\
  last (snake curled) (mkCell 3 6) = mkCell 3 6 /\
  exists g', step foodAhead 5 curled = Ok g' /\
             isRunning g' = false /\ isGameOver g' = true /\ snake g' = snake curled.
Proof.
  split; [reflexivity|]. split; [reflexivity|].
  apply (self_collision_counts_tail foodAhead 5 curled (mkCell 3 6)).
  - reflexivity.
  - right. reflexivity.
Defined.

(** ** C4: whole intervals in, as many steps out *)

(** C4. Take a running game with an empty accumulator and a frame whose
    elapsed time [delta], the number [timestamp - lastTime] came to, is
    exactly [k] intervals. The frame calls [step] at most [k] times and
    leaves the state after exactly the steps it counts (with the bite timer
    decayed); when the game is still running after it, it called [step]
    exactly [k] times, nothing is left in the accumulator and the [interp]
    it draws with is 0. And the frame does return when the game has a snake
    and a food, the board has room for [k] more cells and [Math.random]
    draws every cell within the budget. It is the frame of [gameLoop] when
    [delta] is the difference itself. *)
Theorem clock_runs_exactly_k_steps (rnd : nat -> Q) (budget : nat) (g : Game)
    (delta timestamp : Q) (k : nat) :
  isRunning g = true ->
  (accumulator g == 0)%Q ->
  (delta == inject_Z (Z.of_nat k) * moveInterval)%Q ->
  (forall fr, elapsedFrame rnd budget delta timestamp g = Ok fr ->
     (stepsRun fr <= k)%nat /\
     (exists g1, iterTick rnd budget (stepsRun fr) (entered delta timestamp g) = Ok g1 /\
                 after fr = decayEatAnim delta g1) /\
     (isRunning (after fr) = true ->
        stepsRun fr = k /\ (accumulator (after fr) == 0)%Q /\
        exists interp, drawn fr = Some interp /\ (interp == 0)%Q)) /\
  (Generous rnd budget ->
   snake g <> [] -> food g <> None ->
   (List.length (snake g) + k < boardCells)%nat ->
   exists fr, elapsedFrame rnd budget delta timestamp g = Ok fr) /\
  (delta = (timestamp - lastTime g)%Q ->
   gameLoop rnd budget timestamp g = elapsedFrame rnd budget delta timestamp g).
Proof.
  intros Hr Hacc Hdelta. split; [|split].
  - intros fr H. unfold elapsedFrame in H. cbv zeta in H.
    match type of H with
    | bind (whileDue ?r ?f ?b ?n ?x) _ = _ =>
        destruct (whileDue r f b n x) as [[m g1]| | |] eqn:Hw
    end; cbn [bind] in H; try discriminate.
    injection H as <-. cbn [stepsRun after drawn fst snd].
    pose proof (whileDue_is_iterTick rnd budget _ _ _ _ _ Hw) as [_ Hit].
    rewrite Nat.sub_0_r in Hit.
    apply (whileDue_exact rnd budget k) in Hw.
    + destruct (decayEatAnim_board delta g1) as (_ & _ & Hrun & _ & Ha & _).
      rewrite Hrun, Ha. destruct Hw as [Hle Hexact]. split; [lia|].
      split; [exists g1; split; [exact Hit | reflexivity]|].
      intros Hr1. destruct (Hexact Hr1) as [-> H0]. split; [reflexivity|].
      split; [exact H0|]. eexists. split; [reflexivity|].
      rewrite H0. rewrite Q.min_r; [reflexivity | discriminate].
    + fields. rewrite Hacc, Hdelta, moveInterval_200. lra.
  - intros Hgen Hs Hf Hroom.
    assert (Hk : ((accumulator g + delta) / moveInterval == inject_Z (Z.of_nat k))%Q).
    { rewrite Hacc, Hdelta, moveInterval_200. field. }
    apply (elapsedFrame_generous rnd budget Hgen delta timestamp g Hs Hf).
    rewrite Hk, Qfloor_Z, Nat2Z.id. exact Hroom.
  - intros ->. apply gameLoop_elapsedFrame. exact Hr.
Qed.

Lemma clock_runs_exactly_k_steps_witness :
  (moveInterval == 200)%Q /\
  exists fr, gameLoop sweep 169 600 swept = Ok fr /\
    stepsRun fr = 3%nat /\
    exists interp, drawn fr = Some interp /\ (interp == 0)%Q.
Proof.
  split; [reflexivity|].
  destruct (clock_runs_exactly_k_steps sweep 169 swept 600 600 3)
    as (Hprops & Hret & Hloop); try reflexivity.
  destruct Hret as [fr Hfr];
    [exact sweep_generous | discriminate | discriminate | vm_compute; lia |].
  exists fr. split; [rewrite Hloop by reflexivity; exact Hfr|].
  destruct (Hprops fr Hfr) as (_ & _ & Hexact).
  assert (Hrun : isRunning (after fr) = true).
  { change (elapsedFrame sweep 169 600 600 swept) with (Ok sweptFrame) in Hfr.
    injection Hfr as <-. reflexivity. }
  destruct (Hexact Hrun) as (Hsteps & _ & Hinterp).
  split; [exact Hsteps | exact Hinterp].
Defined.

(** ** C5: nothing runs after the step that ends the game *)

(** C5. Take a frame that finds the game running. If among the steps run one
    after the other from the state it accumulates the [j]-th leaves the game
    over, the frame calls [step] at most [j] times, however many intervals
    its accumulator holds; and what it leaves behind is the state after
    exactly the steps it counts (with the bite timer decayed). *)
Theorem no_step_after_game_over (rnd : nat -> Q) (budget : nat) (g : Game)
    (timestamp : Q) (fr : Frame) (j : nat) (gj : Game) :
  isRunning g = true ->
  gameLoop rnd budget timestamp g = Ok fr ->
  iterTick rnd budget j (accumulated timestamp g) = Ok gj ->
  isRunning gj = false ->
  (stepsRun fr <= j)%nat /\
  exists g1, iterTick rnd budget (stepsRun fr) (accumulated timestamp g) = Ok g1 /\
             after fr = decayEatAnim (timestamp - lastTime g) g1.
Proof.
  intros Hr H Hj Hover. unfold gameLoop in H. rewrite Hr in H.
  cbn [negb] in H. cbv zeta in H.
  match type of H with
  | bind (whileDue ?r ?f ?b ?n ?x) _ = _ =>
      destruct (whileDue r f b n x) as [[m g1]| | |] eqn:Hw
  end; cbn [bind] in H; try discriminate.
  injection H as <-. cbn [stepsRun after fst snd].
  pose proof (whileDue_is_iterTick rnd budget _ _ _ _ _ Hw) as [_ Hit].
  rewrite Nat.sub_0_r in Hit. split.
  - apply (whileDue_stops rnd budget j _ _ _ _ _ gj) in Hw;
      [lia | exact Hr | exact Hj | exact Hover].
  - exists g1. split; [exact Hit | reflexivity].
Qed.

Lemma no_step_after_game_over_witness :
  gameLoop foodAway 5 longFrame started = Ok frameAtLong /\
  stepsRun frameAtLong = 10%nat /\
  (accumulator (after frameAtLong) == 1000)%Q /\
  (stepsRun frameAtLong <= 10)%nat.
Proof.
  split; [vm_compute; reflexivity|]. split; [reflexivity|].
  split; [reflexivity|].
  apply (no_step_after_game_over foodAway 5 started longFrame frameAtLong 10
           afterTenTicks); vm_compute; reflexivity.
Defined.

(** The same long frame, step by step: after nine steps the game is still
    running with the head on (12, 6), the tenth ends it, and the frame leaves
    the snake there with five intervals unspent. *)
Example long_frame_ends_at_step_ten :
  isRunning (stateOf (iterTick foodAway 5 9 (accumulated longFrame started))) = true /\
  isRunning afterTenTicks = false /\
  snake (after frameAtLong) = [mkCell 12 6; mkCell 11 6; mkCell 10 6] /\
  (accumulator (after frameAtLong) == 5 * moveInterval)%Q.
Proof. repeat split; vm_compute; congruence. Qed.

(** ** C6: food placement *)



(** The draws have to reach a free cell for the loop to end. With a
    [Math.random] that returns 0.5 at every call every draw is (6, 6): the
    first food is at (6, 6), and when the head gets there, at the third step,
    every new draw is (6, 6) again. *)
Example session_with_half_hangs :
  run half 1000 [KeyDown "d" 0%Q; AnimationFrame 400%Q] boot = Ok nextToFood /\
  run half 1000 [KeyDown "d" 0%Q; AnimationFrame 600%Q] boot = Spinning.
Proof. split; vm_compute; reflexivity. Qed.

(** ** C7: a request to reverse *)

Lemma keydown_started (rnd : nat -> Q) (budget : nat) (key : string) (now : Q) (g : Game) :
  hasStarted g = true -> keydown rnd budget key now g = Ok (keySwitch key g).
Proof.
  unfold hasStarted, keydown. intros H.
  destruct (isRunning g), (isGameOver g); try discriminate; reflexivity.
Qed.

Lemma keyPresses_collapse (rnd : nat -> Q) (budget : nat) (keys : list (string * Q))
    (g : Game) :
  hasStarted g = true ->
  isHeading (direction g) ->
  run rnd budget (keyPresses keys) g =
    Ok (set_nextDirection (lastAccepted (direction g) keys (nextDirection g)) g).
Proof.
  revert g. induction keys as [|[key now] keys IH]; intros g Hr Hd.
  - cbn. rewrite set_nextDirection_same. reflexivity.
  - cbn [keyPresses map run handle fst snd].
    rewrite keydown_started by assumption. cbn [bind].
    rewrite keySwitch_accept by assumption.
    fold (keyPresses keys). rewrite IH by (unfold hasStarted in *; fields; assumption).
    fields. reflexivity.
Qed.

(** C7 as stated does not hold: in the state [turnQueued] the direction is
    Right and a turn upwards is queued; the Left request is dropped, and the
    next step goes up. *)
Lemma reverse_request_with_turn_queued : ~ reverse_request_keeps_heading.
Proof.
  intros Hclaim.
  specialize (Hclaim foodAway 5%nat [KeyDown "d" 0%Q; KeyDown "ArrowUp" 0%Q] 0%Q
                turnQueued turnQueued
                (stateOf (step foodAway 5 turnQueued))).
  assert (Hdir : direction (stateOf (step foodAway 5 turnQueued)) = Right).
  { apply Hclaim; vm_compute; reflexivity. }
  vm_compute in Hdir. discriminate.
Qed.

(** C7, amended. A request that is the exact reverse of the applied direction
    is dropped. In a game that has been started, running or over, the keydown
    handler returns with every variable, the queued direction included, as it
    was. Before the first start a key that asks for Left does what starting
    the game does and no more: the game starts heading right with Right
    queued, as soon as a draw within the budget is off the snake laid out.
    Hence, in a running game with nothing else queued ([nextDirection] is
    [direction]), after such a request the next step keeps the direction and,
    unless it ends the game, moves the head one cell that way; that step
    returns when the cell ahead is not the food, and when it is as soon as a
    draw within the budget is off the grown snake. And the keys pressed
    between two steps of a started game leave in [nextDirection] the last
    accepted request. *)
Theorem reverse_request_is_dropped :
  (forall (rnd : nat -> Q) (budget : nat) (key : string) (now : Q) (g : Game),
     hasStarted g = true -> isHeading (direction g) ->
     keyDirection key = Some (opposite (direction g)) ->
     keydown rnd budget key now g = Ok g) /\
  (forall (rnd : nat -> Q) (budget : nat) (key : string) (now : Q) (g : Game),
     hasStarted g = false ->
     keyDirection key = Some Left ->
     keydown rnd budget key now g = initGame rnd budget now g /\
     (forall g', keydown rnd budget key now g = Ok g' ->
        isRunning g' = true /\ direction g' = Right /\ nextDirection g' = Right) /\
     (forall k, (k < budget)%nat ->
        onSnake startSnake (drawnCell rnd (randomCalls g + 2 * k)) = false ->
        exists g', keydown rnd budget key now g = Ok g')) /\
  (forall (rnd : nat -> Q) (budget : nat) (key : string) (now : Q) (g : Game)
          (h : Cell) (t : list Cell) (f : Cell),
     isRunning g = true -> isHeading (direction g) ->
     nextDirection g = direction g ->
     keyDirection key = Some (opposite (direction g)) ->
     snake g = h :: t ->
     food g = Some f ->
     let nh := mkCell (px h + px (direction g)) (py h + py (direction g)) in
     keydown rnd budget key now g = Ok g /\
     (forall g2, step rnd budget g = Ok g2 ->
        direction g2 = direction g /\
        (isRunning g2 = true -> exists t', snake g2 = nh :: t')) /\
     (nh <> f -> exists g2, step rnd budget g = Ok g2) /\
     (forall k, (k < budget)%nat ->
        onSnake (nh :: snake g) (drawnCell rnd (randomCalls g + 2 * k)) = false ->
        exists g2, step rnd budget g = Ok g2)) /\
  (forall (rnd : nat -> Q) (budget : nat) (keys : list (string * Q)) (g : Game),
     hasStarted g = true -> isHeading (direction g) ->
     run rnd budget (keyPresses keys) g =
       Ok (set_nextDirection (lastAccepted (direction g) keys (nextDirection g)) g)).
Proof.
  assert (Hswitch : forall key g,
             isHeading (direction g) ->
             keyDirection key = Some (opposite (direction g)) ->
             keySwitch key g = g).
  { intros key g Hd Hkey.
    rewrite keySwitch_accept by assumption. rewrite Hkey. cbn [accept].
    rewrite (proj2 (sameCell_true _ _) eq_refl).
    apply set_nextDirection_same. }
  assert (Hdrop : forall rnd budget key now g,
             hasStarted g = true -> isHeading (direction g) ->
             keyDirection key = Some (opposite (direction g)) ->
             keydown rnd budget key now g = Ok g).
  { intros rnd budget key now g Hr Hd Hkey.
    rewrite keydown_started by assumption. rewrite Hswitch by assumption. reflexivity. }
  split; [exact Hdrop|]. split; [|split].
  - intros rnd budget key now g Hr Hkey.
    assert (Hinit : keydown rnd budget key now g = initGame rnd budget now g).
    { unfold hasStarted in Hr. apply orb_false_iff in Hr. destruct Hr as [Hr Ho].
      unfold keydown. rewrite Hr, Ho, (steering_key_starts key Left Hkey).
      cbn [negb andb].
      destruct (initGame rnd budget now g) as [g1| | |] eqn:Hi; cbn [bind];
        try reflexivity.
      apply initGame_returns in Hi. destruct Hi as (_ & Hd & _).
      rewrite Hswitch; [reflexivity | rewrite Hd; left; reflexivity |].
      rewrite Hd. exact Hkey. }
    split; [exact Hinit|]. rewrite Hinit. split.
    + intros g' Hi. apply initGame_returns in Hi.
      destruct Hi as (_ & Hd & Hn & _ & Hrun & _). repeat split; assumption.
    + intros k Hk Hfree. apply (initGame_free_draw rnd budget now g k Hk Hfree).
  - intros rnd budget key now g h t f Hr Hd Hq Hkey Hs Hf nh.
    pose proof (step_unfold rnd budget g h t Hs) as Hstep. cbv zeta in Hstep.
    rewrite Hq in Hstep. fold nh in Hstep. rewrite Hf in Hstep.
    split; [apply Hdrop; [unfold hasStarted; rewrite Hr; reflexivity | assumption..]|].
    split; [|split].
    + intros g2 Hg2.
      destruct (step_outcome rnd budget g g2 Hg2) as [nh' [Hnh Hout]].
      rewrite Hs in Hnh. cbn [newHeadOf] in Hnh. rewrite Hq in Hnh.
      injection Hnh as <-. fold nh in Hout.
      destruct Hout as [_ ->|_ _ _ Hsb _|_ _ _ ->]; unfold turned in *; fields.
      * split; [exact Hq | discriminate].
      * destruct (sameButFood_fields _ _ Hsb) as (Hsn & _ & Hdir & _). fields.
        split; [congruence|]. intros _. eexists. exact Hsn.
      * split; [exact Hq|]. intros _. eexists. reflexivity.
    + intros Hneq. rewrite Hstep.
      rewrite (proj2 (sameCell_false nh f) Hneq).
      split_ifs; eexists; reflexivity.
    + intros k Hk Hfree. rewrite Hstep.
      split_ifs; try (eexists; reflexivity).
      apply (placeFood_free_draw rnd budget _ k Hk). unfold turned; fields. exact Hfree.
  - intros rnd budget keys g Hr Hd. apply keyPresses_collapse; assumption.
Qed.

Lemma reverse_request_is_dropped_witness :
  keydown foodAway 5 "ArrowLeft" 0%Q started = Ok started /\
  (exists g2, step foodAway 5 started = Ok g2) /\
  forall g2, step foodAway 5 started = Ok g2 ->
    direction g2 = direction started /\
    (isRunning g2 = true -> exists t', snake g2 = mkCell 4 6 :: t').
Proof.
  destruct (proj1 (proj2 (proj2 reverse_request_is_dropped)) foodAway 5%nat
              "ArrowLeft"%string 0%Q started
              (mkCell 3 6) [mkCell 2 6; mkCell 1 6] (mkCell 8 8))
    as (Hkey & Hstep & Hret & _).
  - reflexivity.
  - left. reflexivity.
  - reflexivity.
  - reflexivity.
  - reflexivity.
  - reflexivity.
  - split; [exact Hkey|]. split; [apply Hret; discriminate | exact Hstep].
Defined.

(** ** C8: a collided step changes neither body, food nor score *)

(** C8. When the new head is outside the board on either axis, or on a cell
    of the snake, [step] returns in GameOver ([isRunning] false, [isGameOver]
    true) with the snake, the food and the score exactly as before the step. *)
Theorem collided_step_is_rejected (rnd : nat -> Q) (budget : nat) (g : Game) (nh : Cell) :
  newHeadOf (snake g) (nextDirection g) = Some nh ->
  ~ inGrid nh \/ In nh (snake g) ->
  exists g', step rnd budget g = Ok g' /\
             isRunning g' = false /\ isGameOver g' = true /\
             snake g' = snake g /\ food g' = food g /\ score g' = score g.
Proof.
  intros Hnh Hc. exists (gameOver (turned g)). split.
  - apply (step_collides rnd budget g nh Hnh). destruct Hc as [Hout|Hin].
    + left. destruct (hitsWall nh) eqn:Hw; [reflexivity|].
      apply inGrid_hitsWall in Hw. contradiction.
    + right. apply onSnake_true. assumption.
  - unfold turned; fields. repeat split.
Qed.

Lemma collided_step_is_rejected_witness :
  exists g', step foodAway 5 atTopWall = Ok g' /\
             isRunning g' = false /\ isGameOver g' = true /\
             snake g' = [mkCell 4 0; mkCell 3 0; mkCell 3 1] /\
             food g' = Some (mkCell 8 8) /\ score g' = 0.
Proof.
  apply (collided_step_is_rejected foodAway 5 atTopWall (mkCell 4 (-1))).
  - reflexivity.
  - left. unfold inGrid; simpl; lia.
Defined.

(** ** C9: the interpolated centers *)

Lemma centersFrom_nth (tileSize interp : Q) (from to : list Cell) (k i : nat) :
  nth_error (centersFrom tileSize interp from k to) i =
    option_map (centerAt tileSize interp from (k + i)) (nth_error to i).
Proof.
  revert k i. induction to as [|c to IH]; intros k [|i]; cbn; try reflexivity.
  - rewrite Nat.add_0_r. reflexivity.
  - rewrite IH. replace (S k + i)%nat with (k + S i)%nat by lia. reflexivity.
Qed.

(** C9. For every index [i] of the snake and every [interp], the center
    [drawSnake] computes for segment [i] is the interpolation, at [interp],
    between the pixel centers of the cells [previousSnake[i]] and [snake[i]];
    when [previousSnake] has no entry at [i], it is the pixel center of
    [snake[i]] itself, whatever [interp]. *)
Theorem center_is_lerp_of_snapshots (tileSize interp : Q) (g : Game)
    (prevSnake : list Cell) (i : nat) (cur : Cell) :
  previousSnake g = Some prevSnake ->
  nth_error (snake g) i = Some cur ->
  exists pt, nth_error (centers tileSize interp g) i = Some pt /\
    (forall prev, nth_error prevSnake i = Some prev ->
       samePoint pt (lerpPoint (cellCenter tileSize prev) (cellCenter tileSize cur) interp)) /\
    (nth_error prevSnake i = None ->
       samePoint pt (lerpPoint (cellCenter tileSize cur) (cellCenter tileSize cur) interp) /\
       samePoint pt (cellCenter tileSize cur)).
Proof.
  intros Hp Hc. unfold centers. rewrite Hp.
  rewrite centersFrom_nth, Hc. cbn [option_map Nat.add].
  eexists. split; [reflexivity|]. unfold centerAt. split.
  - intros prev Hprev. rewrite Hprev.
    unfold samePoint, lerpPoint, lerp, cellCenter; cbn [ptx pty]. split; ring.
  - intros Hnone. rewrite Hnone.
    unfold samePoint, lerpPoint, lerp, cellCenter; cbn [ptx pty].
    repeat split; ring.
Qed.

Lemma center_is_lerp_of_snapshots_witness :
  exists pt, nth_error (centers 20 (1 # 2) justAte) 3 = Some pt /\
    samePoint pt (cellCenter 20 (mkCell 1 6)).
Proof.
  destruct (center_is_lerp_of_snapshots 20 (1 # 2) justAte
              [mkCell 3 6; mkCell 2 6; mkCell 1 6] 3 (mkCell 1 6))
    as [pt [Hpt [_ Hgrowth]]].
  - reflexivity.
  - reflexivity.
  - exists pt. split; [exact Hpt|]. apply Hgrowth. reflexivity.
Defined.

(** ** C10: the direction after a game over *)

(** C10. A step that ends in GameOver has already replaced [direction] by the
    queued [nextDirection]: afterwards [direction] is the last request. And it
    may differ from the direction of the last completed move: in the session
    [towardsWall] the head last moved from (3, 0) to (4, 0), to the right,
    and after the step that hits the top wall [direction] is up. *)
Theorem direction_is_last_request_after_game_over :
  (forall (rnd : nat -> Q) (budget : nat) (g : Game) (nh : Cell),
     newHeadOf (snake g) (nextDirection g) = Some nh ->
     ~ inGrid nh \/ In nh (snake g) ->
     exists g', step rnd budget g = Ok g' /\ isGameOver g' = true /\
                direction g' = nextDirection g) /\
  (exists (g g' : Game) (h n : Cell) (t : list Cell),
     run foodAway 5 towardsWall boot = Ok g /\
     snake g = h :: n :: t /\
     direction g = mkCell (px h - px n) (py h - py n) /\
     step foodAway 5 g = Ok g' /\ isGameOver g' = true /\
     direction g' = Up /\ direction g = Right /\ direction g' <> direction g).
Proof.
  split.
  - intros rnd budget g nh Hnh Hc. exists (gameOver (turned g)). split.
    + apply (step_collides rnd budget g nh Hnh). destruct Hc as [Hout|Hin].
      * left. destruct (hitsWall nh) eqn:Hw; [reflexivity|].
        apply inGrid_hitsWall in Hw. contradiction.
      * right. apply onSnake_true. assumption.
    + unfold turned; fields. split; reflexivity.
  - exists atTopWall, (gameOver (turned atTopWall)), (mkCell 4 0), (mkCell 3 0), [mkCell 3 1].
    repeat split; try (vm_compute; reflexivity). discriminate.
Qed.

Lemma direction_is_last_request_after_game_over_witness :
  exists g', step foodAway 5 atTopWall = Ok g' /\ isGameOver g' = true /\
             direction g' = nextDirection atTopWall.
Proof.
  apply (proj1 direction_is_last_request_after_game_over foodAway 5%nat atTopWall
           (mkCell 4 (-1))).
  - reflexivity.
  - left. unfold inGrid; simpl; lia.
Defined.

(** * Further properties of the code *)

(** ** What is kept along a session *)

Lemma keySwitch_sets_nextDirection (key : string) (g : Game) :
  exists d, keySwitch key g = set_nextDirection d g.
Proof.
  unfold keySwitch. split_ifs;
    first [ eexists; reflexivity
          | exists (nextDirection g); symmetry; apply set_nextDirection_same ].
Qed.

Lemma swipe_sets_nextDirection (dx dy : Q) (g : Game) :
  exists d, swipe dx dy g = set_nextDirection d g.
Proof.
  unfold swipe. split_ifs;
    first [ eexists; reflexivity
          | exists (nextDirection g); symmetry; apply set_nextDirection_same ].
Qed.

Lemma decayEatAnim_sets_eatAnimMs (delta : Q) (g : Game) :
  exists e, decayEatAnim delta g = set_eatAnimMs e g.
Proof.
  unfold decayEatAnim. split_ifs; try (eexists; reflexivity).
  exists (eatAnimMs g). destruct g; reflexivity.
Qed.

Section Preserved.

Variable Math_random : nat -> Q.
Variable budget : nat.
Variable I : Game -> Prop.

Hypothesis I_init : forall now g g',
  I g -> initGame Math_random budget now g = Ok g' -> I g'.
Hypothesis I_step : forall g g', I g -> step Math_random budget g = Ok g' -> I g'.
Hypothesis I_keys : forall key g, I g -> I (keySwitch key g).
Hypothesis I_swipe : forall dx dy g, I g -> I (swipe dx dy g).
Hypothesis I_touch : forall a b g, I g -> I (set_touchStart a b g).
Hypothesis I_time : forall t g, I g -> I (set_lastTime t g).
Hypothesis I_acc : forall a g, I g -> I (set_accumulator a g).
Hypothesis I_decay : forall delta g, I g -> I (decayEatAnim delta g).

Lemma whileDue_preserves (fuel n m : nat) (g g' : Game) :
  I g -> whileDue Math_random fuel budget n g = Ok (m, g') -> I g'.
Proof.
  revert n g. induction fuel as [|fuel IH]; intros n g HI H;
    rewrite whileDue_unfold in H;
    destruct (Qle_bool moveInterval (accumulator g));
    try discriminate; try (injection H as _ <-; assumption).
  unfold tick in H.
  destruct (step Math_random budget _) as [g1| | |] eqn:Hs; cbn [bind] in H;
    try discriminate.
  assert (H1 : I g1) by (eapply I_step; [apply I_acc; exact HI | exact Hs]).
  destruct (isRunning g1); cbn [negb] in H.
  - eapply IH; eassumption.
  - injection H as _ <-. assumption.
Qed.

Lemma gameLoop_preserves (timestamp : Q) (g : Game) (fr : Frame) :
  I g -> gameLoop Math_random budget timestamp g = Ok fr -> I (after fr).
Proof.
  intros HI. unfold gameLoop. destruct (isRunning g); cbn [negb].
  - cbv zeta.
    match goal with
    | |- bind (whileDue ?r ?f ?b ?n ?x) _ = _ -> _ =>
        destruct (whileDue r f b n x) as [[m g1]| | |] eqn:Hw
    end; cbn [bind]; try discriminate.
    intros H. injection H as <-. cbn [after snd]. apply I_decay.
    eapply whileDue_preserves; [|exact Hw]. apply I_acc, I_time, HI.
  - intros H. injection H as <-. exact HI.
Qed.

Lemma handle_preserves (e : Event) (g g' : Game) :
  I g -> handle Math_random budget e g = Ok g' -> I g'.
Proof.
  intros HI. destruct e as [key now|cx cy|cx cy now|now|timestamp]; cbn [handle].
  - unfold keydown. split_ifs.
    + destruct (initGame _ _ _ _) as [g1| | |] eqn:Hi; cbn [bind]; try discriminate.
      intros H. injection H as <-. apply I_keys. eapply I_init; eassumption.
    + cbn [bind]. intros H. injection H as <-. apply I_keys, HI.
  - intros H. injection H as <-. apply I_touch, HI.
  - unfold touchend.
    destruct (touchStartX g) as [sx|]; [|intros H; injection H as <-; assumption].
    destruct (touchStartY g) as [sy|]; [|intros H; injection H as <-; assumption].
    split_ifs.
    + destruct (initGame _ _ _ _) as [g1| | |] eqn:Hi; cbn [bind]; try discriminate.
      intros H. injection H as <-. apply I_touch, I_swipe. eapply I_init; eassumption.
    + cbn [bind]. intros H. injection H as <-. apply I_touch, I_swipe, HI.
  - apply I_init, HI.
  - destruct (gameLoop _ _ _ _) as [fr| | |] eqn:Hg; cbn [bind]; try discriminate.
    intros H. injection H as <-. eapply gameLoop_preserves; eassumption.
Qed.

Lemma run_preserves (evs : list Event) (g g' : Game) :
  I g -> run Math_random budget evs g = Ok g' -> I g'.
Proof.
  revert g. induction evs as [|e evs IH]; intros g HI H; cbn [run] in H.
  - injection H as <-. assumption.
  - destruct (handle _ _ _ _) as [g1| | |] eqn:He; cbn [bind] in H; try discriminate.
    eapply IH; [|exact H]. eapply handle_preserves; eassumption.
Qed.

End Preserved.

(** The same for a property that reads neither the queued direction, the
    touch, the clock nor the bite timer. *)
Section PreservedBoard.

Variable Math_random : nat -> Q.
Variable budget : nat.
Variable I : Game -> Prop.

Hypothesis I_init : forall now g g',
  I g -> initGame Math_random budget now g = Ok g' -> I g'.
Hypothesis I_step : forall g g', I g -> step Math_random budget g = Ok g' -> I g'.
Hypothesis I_next : forall d g, I g -> I (set_nextDirection d g).
Hypothesis I_touch : forall a b g, I g -> I (set_touchStart a b g).
Hypothesis I_time : forall t g, I g -> I (set_lastTime t g).
Hypothesis I_acc : forall a g, I g -> I (set_accumulator a g).
Hypothesis I_eat : forall e g, I g -> I (set_eatAnimMs e g).

Lemma run_preserves_board (evs : list Event) (g g' : Game) :
  I g -> run Math_random budget evs g = Ok g' -> I g'.
Proof.
  apply (run_preserves Math_random budget I); try assumption.
  - intros key g0 H0. destruct (keySwitch_sets_nextDirection key g0) as [d ->].
    apply I_next, H0.
  - intros dx dy g0 H0. destruct (swipe_sets_nextDirection dx dy g0) as [d ->].
    apply I_next, H0.
  - intros delta g0 H0. destruct (decayEatAnim_sets_eatAnimMs delta g0) as [e ->].
    apply I_eat, H0.
Qed.

End PreservedBoard.

(** What [initGame] leaves in the variables [initGame_returns] does not list. *)
Lemma initGame_rest (rnd : nat -> Q) (budget : nat) (now : Q) (g g' : Game) :
  initGame rnd budget now g = Ok g' ->
  previousSnake g' = Some (snake g') /\ eatAnimMs g' = 0%Q /\
  touchStartX g' = touchStartX g /\ touchStartY g' = touchStartY g.
Proof.
  unfold initGame. cbv zeta.
  destruct (placeFood _ _ _) as [g1| | |] eqn:Hp; cbn [bind]; try discriminate.
  intros H. injection H as <-.
  apply placeFood_returns in Hp. destruct Hp as [Hsb _].
  destruct (sameButFood_fields _ _ Hsb) as (Hs & Hp & _ & _ & _ & _ & _ & He & _).
  unfold sameButFood in Hsb. fields. rewrite Hs, Hp, He. repeat split.
  - rewrite Hsb. reflexivity.
  - rewrite Hsb. reflexivity.
Qed.

(** What a returned [step] leaves in [previousSnake], [score] and
    [eatAnimMs], outcome by outcome. *)
Lemma step_snapshot (rnd : nat -> Q) (budget : nat) (g g' : Game) :
  step rnd budget g = Ok g' -> previousSnake g' = Some (snake g).
Proof.
  intros H. destruct (step_outcome rnd budget g g' H) as [nh [_ Hout]].
  destruct Hout as [_ ->|_ _ _ Hsb _|_ _ _ ->]; unfold turned in *; fields;
    try (rewrite storePrevious_snapshot; reflexivity).
  destruct (sameButFood_fields _ _ Hsb) as (_ & Hp & _). fields.
  rewrite Hp, storePrevious_snapshot. reflexivity.
Qed.

(** Every returned [step], variable by variable. *)
Lemma step_shape (rnd : nat -> Q) (budget : nat) (g g' : Game) :
  step rnd budget g = Ok g' ->
  exists h t nh,
    snake g = h :: t /\
    nh = mkCell (px h + px (nextDirection g)) (py h + py (nextDirection g)) /\
    direction g' = nextDirection g /\ nextDirection g' = nextDirection g /\
    previousSnake g' = Some (snake g) /\
    (collidedStep g g' nh \/ ateStep g g' nh \/ movedStep g g' nh).
Proof.
  intros H. pose proof (step_snapshot rnd budget g g' H) as Hprev.
  pose proof (step_directions rnd budget g g' H) as [Hd Hn].
  destruct (step_outcome rnd budget g g' H) as [nh [Hnh Hout]].
  destruct (snake g) as [|h t] eqn:Hs; [discriminate|].
  cbn [newHeadOf] in Hnh. injection Hnh as Hnh.
  exists h, t, nh. rewrite <- Hs. repeat (split; [first [assumption | congruence]|]).
  destruct Hout as [Hc ->|Hw Ho Hf Hsb [i [Hf' Hfree]]|Hw Ho [f [Hf Hneq]] ->].
  - left. unfold collidedStep, turned; fields. repeat split.
    destruct Hc as [Hc|Hc].
    + left. intros Hg. apply inGrid_hitsWall in Hg. congruence.
    + right. apply onSnake_true. exact Hc.
  - right. left. apply inGrid_hitsWall in Hw. apply onSnake_false in Ho.
    destruct (sameButFood_fields _ _ Hsb)
      as (E1 & _ & _ & _ & E2 & E3 & E4 & E5 & _).
    unfold ateStep, turned in *; fields. repeat split; try assumption; try apply Hw.
    exists (drawnCell rnd i). split; [exact Hf'|]. apply onSnake_false. exact Hfree.
  - right. right. apply inGrid_hitsWall in Hw. apply onSnake_false in Ho.
    unfold movedStep, turned; fields. repeat split; try assumption; try apply Hw.
    congruence.
Qed.

(** ** The snake on the board *)

Lemma Forall_removelast (P : Cell -> Prop) (s : list Cell) :
  Forall P s -> Forall P (removelast s).
Proof.
  intros H. apply Forall_forall. intros c Hc.
  apply In_removelast in Hc. revert c Hc. apply Forall_forall. exact H.
Qed.

Lemma step_keeps_on_board (rnd : nat -> Q) (budget : nat) (g g' : Game) :
  Forall inGrid (snake g) -> step rnd budget g = Ok g' -> Forall inGrid (snake g').
Proof.
  intros HI H. destruct (step_shape rnd budget g g' H) as (h & t & nh & _ & _ & _ & _ & _ & Hc).
  destruct Hc as [Hc|[Hc|Hc]].
  - destruct Hc as (_ & -> & _). exact HI.
  - destruct Hc as (Hg & _ & _ & -> & _). constructor; assumption.
  - destruct Hc as (Hg & _ & _ & -> & _).
    constructor; [assumption | apply Forall_removelast; assumption].
Qed.

Lemma session_on_board (rnd : nat -> Q) (budget : nat) (evs : list Event) (g : Game) :
  run rnd budget evs boot = Ok g -> Forall inGrid (snake g).
Proof.
  apply (run_preserves_board rnd budget (fun g => Forall inGrid (snake g)));
    try (intros; fields; assumption).
  - intros now g0 g1 _ Hi. apply initGame_returns in Hi. destruct Hi as (-> & _).
    repeat constructor; unfold tileCount; simpl; lia.
  - intros g0 g1. apply step_keeps_on_board.
  - constructor.
Qed.

(** X1. In every state of a session every cell of the snake is a cell of the
    board: no step leaves a head outside [[0, tileCount)] on either axis. *)
Theorem snake_stays_on_board (rnd : nat -> Q) (budget : nat) (evs : list Event) (g : Game)
    (c : Cell) :
  run rnd budget evs boot = Ok g ->
  In c (snake g) ->
  0 <= px c < tileCount /\ 0 <= py c < tileCount.
Proof.
  intros H Hc. pose proof (session_on_board rnd budget evs g H) as Hb.
  rewrite Forall_forall in Hb. exact (Hb c Hc).
Qed.

Lemma snake_stays_on_board_witness :
  run foodAhead 5 threeSteps boot = Ok grown /\
  0 <= 6 < tileCount /\ 0 <= 6 < tileCount.
Proof.
  split; [vm_compute; reflexivity|].
  apply (snake_stays_on_board foodAhead 5 threeSteps grown (mkCell 6 6)).
  - vm_compute; reflexivity.
  - left. reflexivity.
Defined.

Lemma step_keeps_count (rnd : nat -> Q) (budget : nat) (g g' : Game) :
  Counted g -> step rnd budget g = Ok g' -> Counted g'.
Proof.
  intros HI H. destruct (step_shape rnd budget g g' H) as (h & t & nh & Hs & _ & _ & _ & _ & Hc).
  unfold Counted in *. destruct HI as [[Hnil _]|[_ [H0 HI]]]; [congruence|].
  right. destruct Hc as [Hc|[Hc|Hc]].
  - destruct Hc as (_ & -> & -> & _). split; [congruence | split; assumption].
  - destruct Hc as (_ & _ & _ & -> & -> & _). split; [discriminate|].
    cbn [List.length]. lia.
  - destruct Hc as (_ & _ & _ & -> & -> & _). split; [discriminate|].
    rewrite Hs in *. cbn [List.length] in *. rewrite length_removelast_cons. lia.
Qed.

Lemma session_counted (rnd : nat -> Q) (budget : nat) (evs : list Event) (g : Game) :
  run rnd budget evs boot = Ok g -> Counted g.
Proof.
  apply (run_preserves_board rnd budget Counted); try untouched.
  - intros now g0 g1 _ Hi. apply initGame_returns in Hi.
    destruct Hi as (Hs & _ & _ & Hsc & _). right. rewrite Hs, Hsc.
    repeat split; [discriminate | lia].
  - intros g0 g1. apply step_keeps_count.
  - left. split; reflexivity.
Qed.

(** X2. In every state of a session the score is the number of cells the
    snake has gained over the three it starts with; before the first start
    there is no snake and the score is 0. *)
Theorem score_counts_growth (rnd : nat -> Q) (budget : nat) (evs : list Event) (g : Game) :
  run rnd budget evs boot = Ok g ->
  (snake g = [] -> score g = 0) /\
  (snake g <> [] -> Z.of_nat (List.length (snake g)) = score g + 3).
Proof.
  intros H. destruct (session_counted rnd budget evs g H) as [[Hnil H0]|[Hne [_ HC]]];
    split; intros; congruence.
Qed.

Lemma score_counts_growth_witness :
  run foodAhead 5 threeSteps boot = Ok grown /\
  Z.of_nat (List.length (snake grown)) = score grown + 3.
Proof.
  split; [vm_compute; reflexivity|].
  apply (score_counts_growth foodAhead 5 threeSteps grown).
  - vm_compute; reflexivity.
  - discriminate.
Defined.

Lemma In_range (n z : Z) : 0 <= z < n -> In z (range n).
Proof.
  intros Hz. unfold range. rewrite <- (Z2Nat.id z) by lia.
  apply in_map. apply in_seq. lia.
Qed.

Lemma inGrid_allCells (c : Cell) : inGrid c -> In c allCells.
Proof.
  intros [Hx Hy]. unfold allCells. apply in_flat_map. exists (px c). split.
  - apply In_range. exact Hx.
  - rewrite <- (cell_eta c) at 1.
    apply (in_map (fun y => mkCell (px c) y)). apply In_range. exact Hy.
Qed.

(** X3. In every state of a session the snake has at most 169 cells, one per
    cell of the board, and the score is between 0 and 166. *)
Theorem snake_fits_the_board (rnd : nat -> Q) (budget : nat) (evs : list Event) (g : Game) :
  run rnd budget evs boot = Ok g ->
  (List.length (snake g) <= 169)%nat /\ 0 <= score g <= 166.
Proof.
  intros H.
  assert (Hlen : (List.length (snake g) <= 169)%nat).
  { change 169%nat with (List.length allCells).
    apply NoDup_incl_length.
    - assert (HI : Inv (fun _ => True) g).
      { eapply (run_Inv rnd (fun _ => True)); [trivial | apply Inv_boot | exact H]. }
      exact (proj1 HI).
    - intros c Hc. apply inGrid_allCells.
      pose proof (session_on_board rnd budget evs g H) as Hb.
      rewrite Forall_forall in Hb. apply Hb. exact Hc. }
  split; [exact Hlen|].
  destruct (session_counted rnd budget evs g H) as [[Hnil H0]|[Hne [H0 HC]]]; lia.
Qed.

Lemma snake_fits_the_board_witness :
  run foodAhead 5 threeSteps boot = Ok grown /\
  (List.length (snake grown) <= 169)%nat /\ 0 <= score grown <= 166.
Proof.
  split; [vm_compute; reflexivity|].
  apply (snake_fits_the_board foodAhead 5 threeSteps grown). vm_compute; reflexivity.
Defined.

(** ** The body of the snake *)

Lemma linked_step (h d : Cell) :
  isHeading d -> linked (mkCell (px h + px d) (py h + py d)) h.
Proof.
  intros Hd. unfold linked. cbn [px py].
  replace (px h + px d - px h) with (px d) by lia.
  replace (py h + py d - py h) with (py d) by lia.
  rewrite cell_eta. exact Hd.
Qed.

Lemma chain_removelast (s : list Cell) : chain s -> chain (removelast s).
Proof.
  induction s as [|a s IH]; [trivial|].
  destruct s as [|b s]; [trivial|].
  intros [Hab Hs]. specialize (IH Hs).
  destruct s as [|c s]; [exact I|].
  change (linked a b /\ chain (removelast (b :: c :: s))). split; assumption.
Qed.

Lemma chain_cons (nh : Cell) (s : list Cell) :
  (forall h t, s = h :: t -> linked nh h) -> chain s -> chain (nh :: s).
Proof.
  intros Hl Hs. destruct s as [|h t]; [exact I|].
  split; [apply (Hl h t); reflexivity | exact Hs].
Qed.

Lemma chain_nth (s : list Cell) (i : nat) (a b : Cell) :
  chain s -> nth_error s i = Some a -> nth_error s (S i) = Some b -> linked a b.
Proof.
  revert i. induction s as [|c s IH]; intros i Hs Ha Hb; [destruct i; discriminate|].
  destruct s as [|d s]; [destruct i; discriminate|].
  destruct Hs as [Hcd Hs]. destruct i as [|i].
  - cbn in Ha, Hb. congruence.
  - apply (IH i); assumption.
Qed.

Lemma linked_distance (a b : Cell) :
  linked a b -> Z.abs (px a - px b) + Z.abs (py a - py b) = 1.
Proof.
  unfold linked, isHeading, Right, Left, Down, Up.
  intros [H|[H|[H|H]]]; injection H as Hx Hy; lia.
Qed.

Lemma step_keeps_joints (rnd : nat -> Q) (budget : nat) (g g' : Game) :
  Jointed g -> step rnd budget g = Ok g' -> Jointed g'.
Proof.
  intros (Hh & Hc & Hn) H.
  pose proof (step_Headed rnd budget g g' Hh H) as Hh'.
  destruct (step_shape rnd budget g g' H)
    as (h & t & nh & Hs & Hnh & Hd & _ & _ & Hcase).
  assert (Hlink : linked nh h).
  { rewrite Hnh. apply linked_step. apply Hh. }
  split; [exact Hh'|]. unfold neckward in *.
  destruct Hcase as [Hcase|[Hcase|Hcase]].
  - destruct Hcase as (_ & Hsn & _ & _ & _ & Hr & _). rewrite Hsn.
    split; [exact Hc | congruence].
  - destruct Hcase as (_ & _ & _ & Hsn & _). rewrite Hsn, Hs. split.
    + split; [exact Hlink | rewrite <- Hs; exact Hc].
    + intros _ h0 n0 t0 E. injection E as <- <- _. rewrite Hd, Hnh. cbn [px py].
      rewrite <- (cell_eta (nextDirection g)) at 1. f_equal; lia.
  - destruct Hcase as (_ & _ & _ & Hsn & _). rewrite Hsn, Hs. split.
    + apply chain_cons.
      * intros h0 t0 E. destruct t as [|b t]; [discriminate|].
        injection E as <- _. exact Hlink.
      * apply chain_removelast. rewrite <- Hs. exact Hc.
    + intros _ h0 n0 t0 E. destruct t as [|b t]; [discriminate|].
      injection E as <- <- _. rewrite Hd, Hnh. cbn [px py].
      rewrite <- (cell_eta (nextDirection g)) at 1. f_equal; lia.
Qed.

Lemma Jointed_ext (g g' : Game) :
  Headed g' -> snake g' = snake g -> direction g' = direction g ->
  isRunning g' = isRunning g -> Jointed g -> Jointed g'.
Proof.
  intros Hh Hs Hd Hr (_ & Hc & Hn). unfold Jointed, neckward in *.
  rewrite Hs, Hd, Hr. auto.
Qed.

Lemma session_jointed (rnd : nat -> Q) (budget : nat) (evs : list Event) (g : Game) :
  run rnd budget evs boot = Ok g -> Jointed g.
Proof.
  apply (run_preserves rnd budget Jointed).
  - intros now g0 g1 _ Hi. pose proof (initGame_Headed rnd budget now g0 g1 Hi) as Hh.
    apply initGame_returns in Hi. destruct Hi as (Hs & Hd & _).
    split; [exact Hh|]. rewrite Hs. split.
    + repeat split; unfold linked, isHeading; cbn; tauto.
    + intros _ h n t E. rewrite Hs in E. injection E as <- <- _. exact Hd.
  - intros g0 g1. apply step_keeps_joints.
  - intros key g0 HJ. destruct (keySwitch_board key g0) as (Hs & _ & Hr & Hd).
    eapply Jointed_ext; try eassumption. apply keySwitch_Headed. apply HJ.
  - intros dx dy g0 HJ. destruct (swipe_board dx dy g0) as (Hs & _ & Hr & Hd).
    eapply Jointed_ext; try eassumption. apply swipe_Headed. apply HJ.
  - intros a b g0 HJ. eapply Jointed_ext; [| | | |exact HJ]; try reflexivity.
    eapply Headed_ext; [| |apply HJ]; reflexivity.
  - intros t g0 HJ. eapply Jointed_ext; [| | | |exact HJ]; try reflexivity.
    eapply Headed_ext; [| |apply HJ]; reflexivity.
  - intros a g0 HJ. eapply Jointed_ext; [| | | |exact HJ]; try reflexivity.
    eapply Headed_ext; [| |apply HJ]; reflexivity.
  - intros delta g0 HJ.
    destruct (decayEatAnim_board delta g0) as (Hs & _ & Hr & Hd & _).
    eapply Jointed_ext; try eassumption.
    destruct (decayEatAnim_sets_eatAnimMs delta g0) as [e ->].
    eapply Headed_ext; [| |apply HJ]; reflexivity.
  - split; [apply Headed_boot|]. split; [exact I | discriminate].
Qed.

(** X4. In every state of a session the body is connected: each cell of the
    snake is one step, horizontally or vertically, from the cell that follows
    it. *)
Theorem body_is_connected (rnd : nat -> Q) (budget : nat) (evs : list Event) (g : Game)
    (i : nat) (a b : Cell) :
  run rnd budget evs boot = Ok g ->
  nth_error (snake g) i = Some a ->
  nth_error (snake g) (S i) = Some b ->
  Z.abs (px a - px b) + Z.abs (py a - py b) = 1.
Proof.
  intros H Ha Hb. apply linked_distance.
  destruct (session_jointed rnd budget evs g H) as (_ & Hc & _).
  exact (chain_nth (snake g) i a b Hc Ha Hb).
Qed.

Lemma body_is_connected_witness :
  run foodAhead 5 towardsCurl boot = Ok curled /\
  Z.abs (4 - 4) + Z.abs (7 - 6) = 1.
Proof.
  split; [vm_compute; reflexivity|].
  apply (body_is_connected foodAhead 5 towardsCurl curled 1 (mkCell 4 7) (mkCell 4 6));
    vm_compute; reflexivity.
Defined.

Lemma jointed_off_neck (g : Game) (h n : Cell) (t : list Cell) :
  Jointed g -> isRunning g = true -> snake g = h :: n :: t ->
  newHeadOf (snake g) (nextDirection g) <> Some n.
Proof.
  intros ((_ & _ & Hrev) & _ & Hn) Hr Hs Hnew.
  specialize (Hn Hr h n t Hs). apply Hrev. rewrite Hn.
  rewrite Hs in Hnew. cbn [newHeadOf] in Hnew. injection Hnew as <-.
  unfold opposite. cbn [px py].
  rewrite <- (cell_eta (nextDirection g)) at 1. f_equal; lia.
Qed.

(** X5. In every running state of a session the cell the next step computes
    for the head is not the neck: whatever keys and swipes came in, the
    snake is never turned back onto the cell right behind its head. *)
Theorem head_never_turns_onto_neck (rnd : nat -> Q) (budget : nat) (evs : list Event)
    (g : Game) (h n : Cell) (t : list Cell) :
  run rnd budget evs boot = Ok g ->
  isRunning g = true ->
  snake g = h :: n :: t ->
  newHeadOf (snake g) (nextDirection g) <> Some n.
Proof.
  intros H. apply jointed_off_neck. exact (session_jointed rnd budget evs g H).
Qed.

Lemma head_never_turns_onto_neck_witness :
  run foodAway 5 towardsWall boot = Ok atTopWall /\
  newHeadOf (snake atTopWall) (nextDirection atTopWall) <> Some (mkCell 3 0).
Proof.
  split; [vm_compute; reflexivity|].
  apply (head_never_turns_onto_neck foodAway 5 towardsWall atTopWall
           (mkCell 4 0) (mkCell 3 0) [mkCell 3 1]); vm_compute; reflexivity.
Defined.

(** X6. In every state of a session the applied and the queued direction are
    each one of the four unit deltas, and the queued one is not the reverse
    of the applied one: the guards of the key and the swipe handlers together
    let no reversal through. *)
Theorem queued_direction_never_reverses (rnd : nat -> Q) (budget : nat)
    (evs : list Event) (g : Game) :
  run rnd budget evs boot = Ok g ->
  isHeading (direction g) /\ isHeading (nextDirection g) /\
  nextDirection g <> mkCell (- px (direction g)) (- py (direction g)).
Proof.
  intros H. exact (run_Headed rnd budget evs boot g Headed_boot H).
Qed.

Lemma queued_direction_never_reverses_witness :
  run foodAway 5 towardsWall boot = Ok atTopWall /\
  nextDirection atTopWall <> mkCell (- 1) (- 0).
Proof.
  split; [vm_compute; reflexivity|].
  apply (queued_direction_never_reverses foodAway 5 towardsWall atTopWall).
  vm_compute; reflexivity.
Defined.

Lemma linked_parity (a b : Cell) :
  linked a b -> Z.even (px a + py a) = negb (Z.even (px b + py b)).
Proof.
  unfold linked, isHeading, Right, Left, Down, Up.
  intros [H|[H|[H|H]]]; injection H as Hx Hy.
  - replace (px a + py a) with (px b + py b + 1) by lia.
    rewrite Z.even_add. destruct (Z.even (px b + py b)); reflexivity.
  - replace (px a + py a) with (px b + py b + -1) by lia.
    rewrite Z.even_add. destruct (Z.even (px b + py b)); reflexivity.
  - replace (px a + py a) with (px b + py b + 1) by lia.
    rewrite Z.even_add. destruct (Z.even (px b + py b)); reflexivity.
  - replace (px a + py a) with (px b + py b + -1) by lia.
    rewrite Z.even_add. destruct (Z.even (px b + py b)); reflexivity.
Qed.

Lemma chain_parity (i : nat) (s : list Cell) (h c : Cell) :
  chain s -> nth_error s 0 = Some h -> nth_error s i = Some c ->
  Z.even (px c + py c) =
    if Nat.even i then Z.even (px h + py h) else negb (Z.even (px h + py h)).
Proof.
  revert s h. induction i as [|i IH]; intros s h Hc Hh Hi.
  - cbn [Nat.even]. congruence.
  - destruct s as [|a s]; [discriminate|].
    destruct s as [|b s]; [destruct i; discriminate|].
    cbn in Hh. injection Hh as ->. destruct Hc as [Hab Hc].
    rewrite (IH (b :: s) b Hc eq_refl Hi).
    rewrite (linked_parity h b Hab).
    rewrite Nat.even_succ, <- Nat.negb_even.
    destruct (Nat.even i), (Z.even (px b + py b)); reflexivity.
Qed.

(** X26. In every running state of a session, if the cell the next step
    computes for the head is on the snake, it is on its fourth cell or
    further down, at an odd distance along the body: a snake of three cells,
    such as the one the game starts with, cannot run into itself. *)
Theorem snake_bites_itself_from_the_fourth_cell (rnd : nat -> Q) (budget : nat)
    (evs : list Event) (g : Game) (nh : Cell) (i : nat) :
  run rnd budget evs boot = Ok g ->
  isRunning g = true ->
  newHeadOf (snake g) (nextDirection g) = Some nh ->
  nth_error (snake g) i = Some nh ->
  (3 <= i)%nat /\ Nat.odd i = true.
Proof.
  intros H Hr Hnew Hi.
  pose proof (session_jointed rnd budget evs g H) as HJ.
  pose proof HJ as (Hh & Hc & Hn).
  destruct (snake g) as [|h t] eqn:Hs; [discriminate|].
  cbn [newHeadOf] in Hnew. injection Hnew as Hnew.
  assert (Hlink : linked nh h).
  { rewrite <- Hnew. apply linked_step. apply Hh. }
  pose proof (chain_parity i (h :: t) h nh Hc eq_refl Hi) as Hpar.
  rewrite (linked_parity nh h Hlink) in Hpar.
  assert (Hodd : Nat.odd i = true).
  { rewrite <- Nat.negb_even. destruct (Nat.even i); [|reflexivity].
    destruct (Z.even (px h + py h)); discriminate. }
  split; [|exact Hodd].
  destruct i as [|[|[|i]]]; try discriminate; [|lia].
  exfalso. destruct t as [|n t]; [discriminate|].
  cbn in Hi. injection Hi as ->.
  apply (jointed_off_neck g h nh t); [exact HJ | exact Hr | exact Hs|].
  rewrite Hs. cbn [newHeadOf]. rewrite Hnew. reflexivity.
Qed.

Lemma snake_bites_itself_from_the_fourth_cell_witness :
  run foodAhead 5 towardsCurl boot = Ok curled /\
  nth_error (snake curled) 3 = Some (mkCell 3 6) /\
  (3 <= 3)%nat /\ Nat.odd 3 = true.
Proof.
  split; [vm_compute; reflexivity|]. split; [reflexivity|].
  apply (snake_bites_itself_from_the_fourth_cell foodAhead 5 towardsCurl curled
           (mkCell 3 6) 3); vm_compute; reflexivity.
Defined.

(** ** The previous positions *)

Lemma session_snapped (rnd : nat -> Q) (budget : nat) (evs : list Event) (g : Game) :
  run rnd budget evs boot = Ok g -> Snapped g.
Proof.
  apply (run_preserves_board rnd budget Snapped); try untouched.
  - intros now g0 g1 _ Hi. destruct (initGame_rest rnd budget now g0 g1 Hi) as (Hp & _).
    right. exists (snake g1). split; [exact Hp | left; reflexivity].
  - intros g0 g1 _ H.
    destruct (step_shape rnd budget g0 g1 H) as (h & t & nh & _ & _ & _ & _ & Hp & Hc).
    right. exists (snake g0). split; [exact Hp|].
    destruct Hc as [Hc|[Hc|Hc]].
    + destruct Hc as (_ & -> & _). left. reflexivity.
    + destruct Hc as (_ & _ & _ & -> & _). right. exists nh. left. reflexivity.
    + destruct Hc as (_ & _ & _ & -> & _). right. exists nh. right. reflexivity.
  - left. reflexivity.
Qed.

(** X7. In every state of a session with a snake, [previousSnake] holds the
    snake of one step earlier at most: the snake is the previous snake
    itself (just started, or crashed), or a new head in front of it (grown
    by one), or a new head in front of it without its last cell (moved). *)
Theorem previous_snake_is_one_step_behind (rnd : nat -> Q) (budget : nat)
    (evs : list Event) (g : Game) :
  run rnd budget evs boot = Ok g ->
  snake g <> [] ->
  exists p, previousSnake g = Some p /\
    (snake g = p \/
     exists nh, snake g = nh :: p \/ snake g = nh :: removelast p).
Proof.
  intros H Hne. destruct (session_snapped rnd budget evs g H) as [Hnil|Hp];
    [congruence | exact Hp].
Qed.

Lemma previous_snake_is_one_step_behind_witness :
  run foodAhead 5 [KeyDown "d" 0%Q; AnimationFrame 200%Q] boot = Ok justAte /\
  exists p, previousSnake justAte = Some p /\
    (snake justAte = p \/
     exists nh, snake justAte = nh :: p \/ snake justAte = nh :: removelast p).
Proof.
  split; [vm_compute; reflexivity|].
  apply (previous_snake_is_one_step_behind foodAhead 5
           [KeyDown "d" 0%Q; AnimationFrame 200%Q] justAte).
  - vm_compute; reflexivity.
  - discriminate.
Defined.

(** ** The phases of the game *)

Lemma step_keeps_phase (rnd : nat -> Q) (budget : nat) (g g' : Game) :
  Phased g -> step rnd budget g = Ok g' -> Phased g'.
Proof.
  intros HI H.
  destruct (step_shape rnd budget g g' H) as (h & t & nh & Hs & _ & _ & _ & _ & Hc).
  destruct HI as [(_ & _ & Hnil & _)|(Hx & Hne & Hf)]; [congruence|].
  right. destruct Hc as [Hc|[Hc|Hc]].
  - destruct Hc as (_ & -> & _ & -> & _ & -> & ->). repeat split; assumption.
  - destruct Hc as (_ & _ & _ & -> & _ & _ & -> & -> & f & -> & _).
    repeat split; [assumption | discriminate | discriminate].
  - destruct Hc as (_ & _ & _ & -> & _ & -> & _ & -> & ->).
    repeat split; [assumption | discriminate | assumption].
Qed.

Lemma session_phased (rnd : nat -> Q) (budget : nat) (evs : list Event) (g : Game) :
  run rnd budget evs boot = Ok g -> Phased g.
Proof.
  apply (run_preserves_board rnd budget Phased); try untouched.
  - intros now g0 g1 _ Hi. apply initGame_returns in Hi.
    destruct Hi as (Hs & _ & _ & _ & Hr & Ho & _ & _ & i & Hf & _).
    right. rewrite Hr, Ho, Hs, Hf. repeat split; discriminate.
  - intros g0 g1. apply step_keeps_phase.
  - left. repeat split.
Qed.

(** X8. In every state of a session the game is in exactly one of three
    phases: not started ([isRunning] and [isGameOver] both false), with no
    snake, no food and score 0; running; or over. [isRunning] and
    [isGameOver] are never both true, and a started game has a snake and a
    food. *)
Theorem game_is_in_one_phase (rnd : nat -> Q) (budget : nat) (evs : list Event) (g : Game) :
  run rnd budget evs boot = Ok g ->
  (isRunning g = false /\ isGameOver g = false /\
   snake g = [] /\ food g = None /\ score g = 0) \/
  (isRunning g = true /\ isGameOver g = false /\ snake g <> [] /\ food g <> None) \/
  (isRunning g = false /\ isGameOver g = true /\ snake g <> [] /\ food g <> None).
Proof.
  intros H. destruct (session_phased rnd budget evs g H) as [Hp|(Hx & Hs & Hf)];
    [left; exact Hp|].
  right. destruct (isRunning g), (isGameOver g); try discriminate; tauto.
Qed.

Lemma game_is_in_one_phase_witness :
  run foodAway 5 [KeyDown "d" 0%Q; AnimationFrame longFrame] boot = Ok crashed /\
  isRunning crashed = false /\ isGameOver crashed = true.
Proof.
  split; [vm_compute; reflexivity|].
  destruct (game_is_in_one_phase foodAway 5
              [KeyDown "d" 0%Q; AnimationFrame longFrame] crashed) as [H|[H|H]].
  - vm_compute; reflexivity.
  - destruct H as (_ & H & _). vm_compute in H. discriminate.
  - destruct H as (H & _). vm_compute in H. discriminate.
  - destruct H as (Hr & Ho & _). split; assumption.
Defined.

Lemma keySwitch_touch (key : string) (g : Game) :
  touchStartX (keySwitch key g) = touchStartX g /\
  touchStartY (keySwitch key g) = touchStartY g /\
  previousSnake (keySwitch key g) = previousSnake g /\
  score (keySwitch key g) = score g /\
  isGameOver (keySwitch key g) = isGameOver g.
Proof. destruct (keySwitch_sets_nextDirection key g) as [d ->]. repeat split. Qed.

Lemma swipe_rest (dx dy : Q) (g : Game) :
  previousSnake (swipe dx dy g) = previousSnake g /\
  score (swipe dx dy g) = score g /\
  isGameOver (swipe dx dy g) = isGameOver g.
Proof. destruct (swipe_sets_nextDirection dx dy g) as [d ->]. repeat split. Qed.

(** X9. A game that is over stays over until the overlay button is clicked:
    from a state with [isGameOver] true and [isRunning] false, any keys,
    touches and frames are all handled (nothing spins), and they leave the
    snake, its previous positions, the direction, the food and the score as
    they are and the game over. *)
Theorem game_over_is_terminal (rnd : nat -> Q) (budget : nat) (evs : list Event) (g : Game) :
  isRunning g = false ->
  isGameOver g = true ->
  noRestart evs = true ->
  exists g', run rnd budget evs g = Ok g' /\
    isRunning g' = false /\ isGameOver g' = true /\
    snake g' = snake g /\ previousSnake g' = previousSnake g /\
    direction g' = direction g /\ food g' = food g /\ score g' = score g.
Proof.
  revert g. induction evs as [|e evs IH]; intros g Hr Ho Hn.
  - exists g. repeat split; assumption.
  - cbn [noRestart forallb] in Hn. apply andb_true_iff in Hn. destruct Hn as [He Hn].
    assert (Hh : exists g1, handle rnd budget e g = Ok g1 /\
              isRunning g1 = false /\ isGameOver g1 = true /\
              snake g1 = snake g /\ previousSnake g1 = previousSnake g /\
              direction g1 = direction g /\ food g1 = food g /\ score g1 = score g).
    { destruct e as [key now|cx cy|cx cy now|now|timestamp]; cbn [handle];
        try discriminate.
      - unfold keydown. rewrite Hr, Ho. cbn [negb andb bind].
        eexists. split; [reflexivity|].
        destruct (keySwitch_board key g) as (Hs & Hf & Hrun & Hd).
        destruct (keySwitch_touch key g) as (_ & _ & Hp & Hsc & Hov).
        rewrite Hs, Hf, Hrun, Hd, Hp, Hsc, Hov. repeat split; assumption.
      - eexists. split; [reflexivity|]. fields. repeat split; assumption.
      - unfold touchend.
        destruct (touchStartX g) as [sx|];
          [|eexists; split; [reflexivity | repeat split; assumption]].
        destruct (touchStartY g) as [sy|];
          [|eexists; split; [reflexivity | repeat split; assumption]].
        rewrite Hr, Ho. cbn [negb andb bind].
        eexists. split; [reflexivity|]. fields.
        destruct (swipe_board (cx - sx) (cy - sy) g) as (Hs & Hf & Hrun & Hd).
        destruct (swipe_rest (cx - sx) (cy - sy) g) as (Hp & Hsc & Hov).
        rewrite Hs, Hf, Hrun, Hd, Hp, Hsc, Hov. repeat split; assumption.
      - unfold gameLoop. rewrite Hr. cbn [negb bind after].
        eexists. split; [reflexivity | repeat split; assumption]. }
    destruct Hh as (g1 & Hg1 & Hr1 & Ho1 & Hs1 & Hp1 & Hd1 & Hf1 & Hsc1).
    destruct (IH g1 Hr1 Ho1 Hn) as (g' & Hrun & Hr' & Ho' & Hs' & Hp' & Hd' & Hf' & Hsc').
    exists g'. cbn [run]. rewrite Hg1. cbn [bind].
    split; [exact Hrun|]. repeat split; congruence.
Qed.

Lemma game_over_is_terminal_witness :
  exists g', run foodAway 5 [KeyDown "ArrowLeft" 0%Q; AnimationFrame 5000%Q;
                            TouchStart 10 10; TouchEnd 90 10 0%Q] crashed = Ok g' /\
    isRunning g' = false /\ isGameOver g' = true /\
    snake g' = snake crashed /\ previousSnake g' = previousSnake crashed /\
    direction g' = direction crashed /\ food g' = food crashed /\
    score g' = score crashed.
Proof.
  apply (game_over_is_terminal foodAway 5
           [KeyDown "ArrowLeft" 0%Q; AnimationFrame 5000%Q;
            TouchStart 10 10; TouchEnd 90 10 0%Q] crashed); reflexivity.
Defined.

(** ** The food *)

Lemma food_on_free_cell_witness :
  validRandom foodAhead /\
  run foodAhead 5 threeSteps boot = Ok grown /\
  inGrid (mkCell 8 8) /\ ~ In (mkCell 8 8) (snake grown).
Proof.
  assert (Hv : validRandom foodAhead).
  { intros i. unfold foodAhead, scripted.
    do 5 (destruct i as [|i]; [split; vm_compute; congruence|]).
    split; vm_compute; congruence. }
  split; [exact Hv|]. split; [vm_compute; reflexivity|].
  apply (food_on_free_cell foodAhead 5 threeSteps grown (mkCell 8 8));
    [exact Hv | vm_compute; reflexivity | reflexivity].
Defined.

(** X11. The food moves only when it is eaten. Take a snake with a head, and
    a food. When the new head is the food cell, on the board and off the
    snake, a returned [step] has the score one higher and a new food on
    another cell, off the grown snake; and [step] returns as soon as a draw
    within the budget is off the grown snake. In every other case [step]
    returns with the food and the score as they were. *)
Theorem food_moves_only_when_eaten (rnd : nat -> Q) (budget : nat) (g : Game)
    (h : Cell) (t : list Cell) (f : Cell) :
  snake g = h :: t ->
  food g = Some f ->
  let nh := mkCell (px h + px (nextDirection g)) (py h + py (nextDirection g)) in
  (nh = f -> inGrid nh -> ~ In nh (snake g) ->
     (forall g', step rnd budget g = Ok g' ->
        exists f', food g' = Some f' /\ f' <> f /\ ~ In f' (snake g') /\
                   score g' = score g + 1) /\
     (forall k, (k < budget)%nat ->
        onSnake (nh :: snake g) (drawnCell rnd (randomCalls g + 2 * k)) = false ->
        exists g', step rnd budget g = Ok g')) /\
  (~ (nh = f /\ inGrid nh /\ ~ In nh (snake g)) ->
     exists g', step rnd budget g = Ok g' /\ food g' = food g /\ score g' = score g).
Proof.
  intros Hs Hf nh.
  pose proof (step_unfold rnd budget g h t Hs) as Hstep. cbv zeta in Hstep.
  fold nh in Hstep. rewrite Hf in Hstep. split.
  - intros Heq Hgrid Hfree.
    apply inGrid_hitsWall in Hgrid. apply onSnake_false in Hfree.
    rewrite Hgrid, Hfree, (proj2 (sameCell_true nh f) Heq) in Hstep.
    rewrite Hstep. split.
    + intros g' H. apply placeFood_returns in H.
      destruct H as [Hsb [k [_ [Hfood [_ Hoff]]]]].
      destruct (sameButFood_fields _ _ Hsb) as (Hsn & _ & _ & _ & Hsc & _).
      unfold turned in *; fields. apply onSnake_false in Hoff.
      eexists. split; [exact Hfood|]. rewrite Hsn, Hsc.
      split; [|split; [exact Hoff | reflexivity]].
      intros E. apply Hoff. left. congruence.
    + intros k Hk Hoff.
      apply (placeFood_free_draw rnd budget _ k Hk). unfold turned; fields. exact Hoff.
  - intros Hnot. rewrite Hstep.
    destruct (hitsWall nh) eqn:Hw; [eexists; split; [reflexivity|]; fields; tauto|].
    destruct (onSnake (snake g) nh) eqn:Ho;
      [eexists; split; [reflexivity|]; fields; tauto|].
    destruct (sameCell nh f) eqn:Hsame.
    + exfalso. apply Hnot. split; [apply sameCell_true; exact Hsame|].
      split; [apply inGrid_hitsWall; exact Hw | apply onSnake_false; exact Ho].
    + eexists. split; [reflexivity|]. unfold turned; fields. tauto.
Qed.

Lemma food_moves_only_when_eaten_witness :
  exists g', step foodAhead 5 aboutToEat = Ok g' /\
    exists f', food g' = Some f' /\ f' <> mkCell 4 6 /\ ~ In f' (snake g') /\
               score g' = score aboutToEat + 1.
Proof.
  destruct (food_moves_only_when_eaten foodAhead 5 aboutToEat (mkCell 3 6)
              [mkCell 2 6; mkCell 1 6] (mkCell 4 6) eq_refl eq_refl) as [Heat _].
  destruct Heat as [Hprops Hfinds].
  - reflexivity.
  - unfold inGrid, tileCount; simpl; lia.
  - simpl; intuition discriminate.
  - destruct (Hfinds 0%nat) as [g' Hg']; [lia | reflexivity |].
    exists g'. split; [exact Hg' | exact (Hprops g' Hg')].
Defined.

(** ** What a session never does *)

(** X12. No session throws: whatever the events and whatever [Math.random]
    returns, no handler reads a property of [undefined] or [null] (the head
    of an empty snake, the coordinates of a missing food). A session returns,
    or is looping in [placeFood]. *)
Theorem session_never_throws (rnd : nat -> Q) (budget : nat) (evs : list Event) :
  run rnd budget evs boot <> TypeError /\
  (run rnd budget evs boot = Spinning \/ exists g, run rnd budget evs boot = Ok g).
Proof.
  destruct (run_returns_or_spins rnd budget evs boot (Inv_boot (fun _ => True)))
    as [E|[g E]]; rewrite E; split; try discriminate;
    [left; reflexivity | right; exists g; reflexivity].
Qed.

(** ** The clock of a frame *)

Lemma not_due (a : Q) : Qle_bool moveInterval a = false -> (a < moveInterval)%Q.
Proof.
  intros E. apply Qnot_le_lt. intros Hle. apply Qle_bool_iff in Hle. congruence.
Qed.

Section FrameClock.

Variable Math_random : nat -> Q.
Variable budget : nat.

Lemma whileDue_time (fuel n m : nat) (g g' : Game) :
  whileDue Math_random fuel budget n g = Ok (m, g') ->
  (accumulator g' + inject_Z (Z.of_nat m) * moveInterval
     == accumulator g + inject_Z (Z.of_nat n) * moveInterval)%Q /\
  lastTime g' = lastTime g /\
  ((0 <= accumulator g)%Q -> (0 <= accumulator g')%Q) /\
  (isRunning g' = true -> (accumulator g' < moveInterval)%Q).
Proof.
  revert n g. induction fuel as [|fuel IH]; intros n g H;
    rewrite whileDue_unfold in H;
    destruct (Qle_bool moveInterval (accumulator g)) eqn:Hdue; try discriminate;
    try (injection H as <- <-;
         split; [reflexivity|]; split; [reflexivity|];
         split; [tauto | intros _; apply not_due; exact Hdue]).
  destruct (tick Math_random budget g) as [g1| | |] eqn:Ht; cbn [bind] in H;
    try discriminate.
  apply step_frame in Ht. destruct Ht as (Ha & Hl & _). fields.
  apply due_inv in Hdue. pose proof moveInterval_200 as HI.
  destruct (isRunning g1) eqn:Hr1; cbn [negb] in H.
  - apply IH in H. destruct H as (Hsum & Hlast & Hpos & Hlt).
    rewrite Ha in Hsum, Hpos. rewrite inject_nat_succ in Hsum.
    repeat split; [lra | congruence | intros; apply Hpos; lra | exact Hlt].
  - injection H as <- <-. rewrite Ha. rewrite inject_nat_succ.
    repeat split; [lra | exact Hl | intros; lra | congruence].
Qed.

Lemma whileDue_eat (fuel n m : nat) (g g' : Game) :
  whileDue Math_random fuel budget n g = Ok (m, g') ->
  score g <= score g' /\
  (score g' = score g -> eatAnimMs g' = eatAnimMs g) /\
  (eatAnimMs g' = eatAnimMs g \/ eatAnimMs g' = 200%Q).
Proof.
  revert n g. induction fuel as [|fuel IH]; intros n g H;
    rewrite whileDue_unfold in H;
    destruct (Qle_bool moveInterval (accumulator g)); try discriminate;
    try (injection H as _ <-; split; [lia|]; split; [reflexivity | left; reflexivity]).
  unfold tick in H.
  destruct (step Math_random budget _) as [g1| | |] eqn:Hs; cbn [bind] in H;
    try discriminate.
  assert (H1 : score g <= score g1 /\
               (score g1 = score g -> eatAnimMs g1 = eatAnimMs g) /\
               (eatAnimMs g1 = eatAnimMs g \/ eatAnimMs g1 = 200%Q)).
  { destruct (step_shape Math_random budget _ g1 Hs)
      as (h & t & nh & _ & _ & _ & _ & _ & Hc). fields.
    destruct Hc as [Hc|[Hc|Hc]].
    - destruct Hc as (_ & _ & Hsc & _ & He & _). fields. rewrite Hsc, He.
      split; [lia|]. split; [reflexivity | left; reflexivity].
    - destruct Hc as (_ & _ & _ & _ & Hsc & He & _). fields. rewrite Hsc, He.
      split; [lia|]. split; [lia | right; reflexivity].
    - destruct Hc as (_ & _ & _ & _ & Hsc & _ & He & _). fields. rewrite Hsc, He.
      split; [lia|]. split; [reflexivity | left; reflexivity]. }
  destruct H1 as (Hle1 & Hsame1 & Hor1).
  assert (Hend : score g <= score g1 ->
            score g1 <= score g' /\
            (score g' = score g1 -> eatAnimMs g' = eatAnimMs g1) /\
            (eatAnimMs g' = eatAnimMs g1 \/ eatAnimMs g' = 200%Q) ->
            score g <= score g' /\
            (score g' = score g -> eatAnimMs g' = eatAnimMs g) /\
            (eatAnimMs g' = eatAnimMs g \/ eatAnimMs g' = 200%Q)).
  { intros _ (Hle & Hsame & Hor). split; [lia|]. split.
    - intros E. assert (score g1 = score g) by lia.
      rewrite Hsame by lia. apply Hsame1. assumption.
    - destruct Hor as [-> | ->]; [exact Hor1 | right; reflexivity]. }
  apply Hend; [exact Hle1|].
  destruct (isRunning g1); cbn [negb] in H.
  - apply IH in H. exact H.
  - injection H as _ <-. split; [lia|]. split; [reflexivity | left; reflexivity].
Qed.

End FrameClock.

(** X13. A frame loses no time. Take a running game whose accumulator and
    whose elapsed time [delta] are whole numbers of milliseconds, not
    negative, [a] and [d]: sums and differences of these are exact. The
    frame leaves in the accumulator [a + d] less 200 for every step it ran,
    which is not negative, and it records its timestamp. And the frame does
    return when the game has a snake and a food, the board has room for the
    steps that are due and [Math.random] draws every cell within the
    budget. *)
Theorem frame_conserves_time (rnd : nat -> Q) (budget : nat) (delta timestamp : Q)
    (g : Game) (a d : Z) :
  isRunning g = true ->
  (accumulator g == inject_Z a)%Q -> (delta == inject_Z d)%Q ->
  0 <= a -> 0 <= d ->
  (forall fr, elapsedFrame rnd budget delta timestamp g = Ok fr ->
     (accumulator (after fr) == inject_Z (a + d - 200 * Z.of_nat (stepsRun fr)))%Q /\
     0 <= a + d - 200 * Z.of_nat (stepsRun fr) /\
     lastTime (after fr) = timestamp) /\
  (Generous rnd budget ->
   snake g <> [] -> food g <> None ->
   (List.length (snake g) + Z.to_nat ((a + d) / 200) < boardCells)%nat ->
   exists fr, elapsedFrame rnd budget delta timestamp g = Ok fr) /\
  (delta = (timestamp - lastTime g)%Q ->
   gameLoop rnd budget timestamp g = elapsedFrame rnd budget delta timestamp g).
Proof.
  intros Hr Hacc Hdelta Ha Hd. split; [|split].
  - intros fr H. unfold elapsedFrame in H. cbv zeta in H.
    match type of H with
    | bind (whileDue ?r ?f ?b ?n ?x) _ = _ =>
        destruct (whileDue r f b n x) as [[m g1]| | |] eqn:Hw
    end; cbn [bind] in H; try discriminate.
    injection H as <-. cbn [stepsRun after fst snd].
    apply whileDue_time in Hw. destruct Hw as (Hsum & Hl & Hpos & _). fields.
    destruct (decayEatAnim_sets_eatAnimMs delta g1) as [e ->]. fields.
    change (inject_Z (Z.of_nat 0)) with 0%Q in Hsum.
    rewrite moveInterval_200, Hacc, Hdelta in Hsum.
    assert (Hleft : (accumulator g1 == inject_Z (a + d - 200 * Z.of_nat m))%Q).
    { unfold Z.sub. rewrite !inject_Z_plus, inject_Z_opp, inject_Z_mult.
      change (inject_Z 200) with 200%Q. lra. }
    split; [exact Hleft|]. split; [|exact Hl].
    rewrite Zle_Qle. rewrite <- Hleft. apply Hpos.
    rewrite Hacc, Hdelta. rewrite <- inject_Z_plus.
    change 0%Q with (inject_Z 0). rewrite <- Zle_Qle. lia.
  - intros Hgen Hs Hf Hroom.
    assert (Hfloor : Qfloor ((accumulator g + delta) / moveInterval) = (a + d) / 200).
    { assert (E : ((accumulator g + delta) / moveInterval == (a + d) # 200)%Q).
      { rewrite Hacc, Hdelta, moveInterval_200.
        unfold Qeq, Qdiv, Qmult, Qinv, Qplus, inject_Z. cbn. lia. }
      rewrite E. reflexivity. }
    apply (elapsedFrame_generous rnd budget Hgen delta timestamp g Hs Hf).
    rewrite Hfloor. exact Hroom.
  - intros ->. apply gameLoop_elapsedFrame. exact Hr.
Qed.

Lemma frame_conserves_time_witness :
  exists fr, gameLoop sweep 169 650 swept = Ok fr /\
    (accumulator (after fr) == inject_Z (0 + 650 - 200 * Z.of_nat (stepsRun fr)))%Q /\
    lastTime (after fr) = 650%Q.
Proof.
  destruct (frame_conserves_time sweep 169 650 650 swept 0 650)
    as (Hprops & Hret & Hloop); try reflexivity; try lia.
  destruct Hret as [fr Hfr];
    [exact sweep_generous | discriminate | discriminate | vm_compute; lia |].
  exists fr. split; [rewrite Hloop by reflexivity; exact Hfr|].
  destruct (Hprops fr Hfr) as (Hleft & _ & Hlast).
  split; [exact Hleft | exact Hlast].
Defined.

(** X14. Take a running game with an accumulator that is not negative and a
    frame whose elapsed time [delta] is not negative. The frame leaves the
    accumulator not negative and draws with an [interp] between 0 and 1; if
    the game is still running after it, less than one interval is left and
    [interp] is below 1. And the frame does return when the game has a snake
    and a food, the board has room for the steps that are due and
    [Math.random] draws every cell within the budget. *)
Theorem interp_is_a_fraction (rnd : nat -> Q) (budget : nat) (delta timestamp : Q)
    (g : Game) :
  isRunning g = true ->
  (0 <= accumulator g)%Q ->
  (0 <= delta)%Q ->
  (forall fr, elapsedFrame rnd budget delta timestamp g = Ok fr ->
     (0 <= accumulator (after fr))%Q /\
     exists interp, drawn fr = Some interp /\ (0 <= interp)%Q /\ (interp <= 1)%Q /\
       (isRunning (after fr) = true ->
          (accumulator (after fr) < moveInterval)%Q /\ (interp < 1)%Q)) /\
  (Generous rnd budget ->
   snake g <> [] -> food g <> None ->
   (List.length (snake g) +
    Z.to_nat (Qfloor ((accumulator g + delta) / moveInterval)) < boardCells)%nat ->
   exists fr, elapsedFrame rnd budget delta timestamp g = Ok fr) /\
  (delta = (timestamp - lastTime g)%Q ->
   gameLoop rnd budget timestamp g = elapsedFrame rnd budget delta timestamp g).
Proof.
  intros Hr Hacc Htime. split; [|split].
  - intros fr H. unfold elapsedFrame in H. cbv zeta in H.
    match type of H with
    | bind (whileDue ?r ?f ?b ?n ?x) _ = _ =>
        destruct (whileDue r f b n x) as [[m g1]| | |] eqn:Hw
    end; cbn [bind] in H; try discriminate.
    injection H as <-. cbn [drawn after fst snd].
    apply whileDue_time in Hw. destruct Hw as (_ & _ & Hpos & Hlt). fields.
    destruct (decayEatAnim_board delta g1) as (_ & _ & Hrun & _ & Ha & _).
    rewrite Ha, Hrun.
    assert (H0 : (0 <= accumulator g1)%Q) by (apply Hpos; lra).
    assert (Hq : (0 <= accumulator g1 / moveInterval)%Q).
    { rewrite moveInterval_200. apply Qle_shift_div_l; lra. }
    split; [exact H0|]. eexists. split; [reflexivity|]. split; [|split].
    + apply Q.min_glb; [lra | exact Hq].
    + apply Q.le_min_l.
    + intros Hr1. specialize (Hlt Hr1). split; [exact Hlt|].
      eapply Qle_lt_trans; [apply Q.le_min_r|].
      rewrite moveInterval_200 in *. apply Qlt_shift_div_r; lra.
  - intros Hgen Hs Hf Hroom.
    apply (elapsedFrame_generous rnd budget Hgen delta timestamp g Hs Hf Hroom).
  - intros ->. apply gameLoop_elapsedFrame. exact Hr.
Qed.

Lemma interp_is_a_fraction_witness :
  exists fr, gameLoop sweep 169 250 swept = Ok fr /\
    exists interp, drawn fr = Some interp /\ (0 <= interp)%Q /\ (interp <= 1)%Q.
Proof.
  destruct (interp_is_a_fraction sweep 169 250 250 swept)
    as (Hprops & Hret & Hloop); try reflexivity; try discriminate.
  destruct Hret as [fr Hfr];
    [exact sweep_generous | discriminate | discriminate | vm_compute; lia |].
  exists fr. split; [rewrite Hloop by reflexivity; exact Hfr|].
  destruct (Hprops fr Hfr) as (_ & interp & Hdrawn & Hlo & Hhi & _).
  exists interp. split; [exact Hdrawn|]. split; assumption.
Defined.

(** ** The bite timer *)

Lemma decayEatAnim_nonneg (delta : Q) (g : Game) :
  (0 <= eatAnimMs g)%Q -> (0 <= eatAnimMs (decayEatAnim delta g))%Q.
Proof.
  intros H. unfold decayEatAnim.
  destruct (Qgt_bool (eatAnimMs g) 0); [|exact H]. cbv zeta. fields.
  destruct (Qgt_bool 0 (eatAnimMs g - delta)) eqn:E; fields; [lra|].
  unfold Qgt_bool in E. apply negb_false_iff in E. apply Qle_bool_iff in E. exact E.
Qed.

(** X15. In every state of a session the bite timer [eatAnimMs] is not
    negative, whatever timestamps the frames come with. *)
Theorem bite_timer_never_negative (rnd : nat -> Q) (budget : nat) (evs : list Event)
    (g : Game) :
  run rnd budget evs boot = Ok g ->
  (0 <= eatAnimMs g)%Q.
Proof.
  apply (run_preserves rnd budget (fun g => (0 <= eatAnimMs g)%Q));
    try (intros; fields; assumption).
  - intros now g0 g1 _ Hi. destruct (initGame_rest rnd budget now g0 g1 Hi) as (_ & -> & _).
    lra.
  - intros g0 g1 H0 Hs.
    destruct (step_shape rnd budget g0 g1 Hs) as (h & t & nh & _ & _ & _ & _ & _ & Hc).
    destruct Hc as [Hc|[Hc|Hc]].
    + destruct Hc as (_ & _ & _ & _ & -> & _). exact H0.
    + destruct Hc as (_ & _ & _ & _ & _ & -> & _). lra.
    + destruct Hc as (_ & _ & _ & _ & _ & _ & -> & _). exact H0.
  - intros key g0 H0. destruct (keySwitch_sets_nextDirection key g0) as [d ->]. exact H0.
  - intros dx dy g0 H0. destruct (swipe_sets_nextDirection dx dy g0) as [d ->]. exact H0.
  - intros delta g0. apply decayEatAnim_nonneg.
  - cbn. lra.
Qed.

Lemma bite_timer_never_negative_witness :
  run foodAhead 5 [KeyDown "d" 0%Q; AnimationFrame 200%Q] boot = Ok justAte /\
  (0 <= eatAnimMs justAte)%Q.
Proof.
  split; [vm_compute; reflexivity|].
  apply (bite_timer_never_negative foodAhead 5
           [KeyDown "d" 0%Q; AnimationFrame 200%Q] justAte).
  vm_compute; reflexivity.
Defined.

(** X16. Take a running game with a bite timer between 0 and 200 and a frame
    whose elapsed time [delta] is not negative. The frame leaves the timer
    between 0 and 200; and unless a step of the frame ate, the timer is not
    larger than the frame found it. And the frame does return when the game
    has a snake and a food, the board has room for the steps that are due
    and [Math.random] draws every cell within the budget. *)
Theorem bite_timer_decays (rnd : nat -> Q) (budget : nat) (delta timestamp : Q)
    (g : Game) :
  isRunning g = true ->
  (0 <= delta)%Q ->
  (0 <= eatAnimMs g)%Q -> (eatAnimMs g <= 200)%Q ->
  (forall fr, elapsedFrame rnd budget delta timestamp g = Ok fr ->
     (0 <= eatAnimMs (after fr))%Q /\ (eatAnimMs (after fr) <= 200)%Q /\
     (score (after fr) = score g -> (eatAnimMs (after fr) <= eatAnimMs g)%Q)) /\
  (Generous rnd budget ->
   snake g <> [] -> food g <> None ->
   (List.length (snake g) +
    Z.to_nat (Qfloor ((accumulator g + delta) / moveInterval)) < boardCells)%nat ->
   exists fr, elapsedFrame rnd budget delta timestamp g = Ok fr) /\
  (delta = (timestamp - lastTime g)%Q ->
   gameLoop rnd budget timestamp g = elapsedFrame rnd budget delta timestamp g).
Proof.
  intros Hr Hd H0 H200. split; [|split].
  - intros fr H. unfold elapsedFrame in H. cbv zeta in H.
    match type of H with
    | bind (whileDue ?r ?f ?b ?n ?x) _ = _ =>
        destruct (whileDue r f b n x) as [[m g1]| | |] eqn:Hw
    end; cbn [bind] in H; try discriminate.
    injection H as <-. cbn [after snd].
    apply whileDue_eat in Hw. fields. destruct Hw as (_ & Hsame & Hor).
    destruct (decayEatAnim_board delta g1) as (_ & _ & _ & _ & _ & Hsc).
    rewrite Hsc.
    assert (H1 : (0 <= eatAnimMs g1)%Q /\ (eatAnimMs g1 <= 200)%Q).
    { destruct Hor as [-> | ->]; split; lra. }
    unfold decayEatAnim.
    destruct (Qgt_bool (eatAnimMs g1) 0) eqn:Epos; cbv zeta; fields.
    + destruct (Qgt_bool 0 (eatAnimMs g1 - delta)) eqn:Eneg; fields.
      * split; [lra|]. split; [lra|]. intros E. rewrite <- (Hsame E). lra.
      * unfold Qgt_bool in Eneg. apply negb_false_iff in Eneg.
        apply Qle_bool_iff in Eneg.
        split; [lra|]. split; [lra|]. intros E. rewrite <- (Hsame E). lra.
    + split; [lra|]. split; [lra|]. intros E. rewrite <- (Hsame E). lra.
  - intros Hgen Hs Hf Hroom.
    apply (elapsedFrame_generous rnd budget Hgen delta timestamp g Hs Hf Hroom).
  - intros ->. apply gameLoop_elapsedFrame. exact Hr.
Qed.

Lemma bite_timer_decays_witness :
  (eatAnimMs bitten == 200)%Q /\
  exists fr, elapsedFrame sweep 169 60 60 bitten = Ok fr /\
    (0 <= eatAnimMs (after fr))%Q /\ (eatAnimMs (after fr) <= 200)%Q /\
    (eatAnimMs (after fr) <= eatAnimMs bitten)%Q.
Proof.
  split; [reflexivity|].
  destruct (bite_timer_decays sweep 169 60 60 bitten)
    as (Hprops & Hret & _); try reflexivity; try discriminate.
  destruct Hret as [fr Hfr];
    [exact sweep_generous | discriminate | discriminate | vm_compute; lia |].
  exists fr. split; [exact Hfr|].
  destruct (Hprops fr Hfr) as (Hlo & Hhi & Hle).
  split; [exact Hlo|]. split; [exact Hhi|]. apply Hle.
  change (elapsedFrame sweep 169 60 60 bitten) with
    (Ok (mkFrame 0 (Some (Qmin 1 (accumulator (entered 60 60 bitten) / moveInterval)))
           (decayEatAnim 60 (entered 60 60 bitten)))) in Hfr.
  injection Hfr as <-. reflexivity.
Defined.

(** ** Starting with a key *)

Lemma keySwitch_other_key (key : string) (g : Game) :
  keyDirection key = None -> keySwitch key g = g.
Proof.
  unfold keyDirection, keySwitch.
  destruct ((key =? "ArrowUp") || (key =? "w") || (key =? "W"))%string; [discriminate|].
  destruct ((key =? "ArrowDown") || (key =? "s") || (key =? "S"))%string; [discriminate|].
  destruct ((key =? "ArrowLeft") || (key =? "a") || (key =? "A"))%string; [discriminate|].
  destruct ((key =? "ArrowRight") || (key =? "d") || (key =? "D"))%string; [discriminate|].
  reflexivity.
Qed.

(** X17. Before the first start a key either starts the game or changes
    nothing. A key that does not start with "Arrow" and holds none of the
    letters w, a, s, d in either case leaves every variable as it is. Any
    other key starts the game: the handler returns as soon as a draw within
    the budget is off the snake laid out, with the snake on (3, 6), (2, 6),
    (1, 6) heading right and score 0; it also steers: the queued direction
    is up or down if the key asks for it and right otherwise, never left. *)
Theorem key_starts_or_does_nothing (rnd : nat -> Q) (budget : nat) (key : string)
    (now : Q) (g : Game) :
  isRunning g = false ->
  isGameOver g = false ->
  (startsWithArrow key || testWasd key = false ->
     keydown rnd budget key now g = Ok g) /\
  (startsWithArrow key || testWasd key = true ->
     (forall g', keydown rnd budget key now g = Ok g' ->
        isRunning g' = true /\ score g' = 0 /\
        snake g' = [mkCell 3 6; mkCell 2 6; mkCell 1 6] /\
        direction g' = Right /\
        nextDirection g' = accept Right (keyDirection key) Right /\
        (nextDirection g' = Right \/ nextDirection g' = Up \/ nextDirection g' = Down)) /\
     (forall k, (k < budget)%nat ->
        onSnake startSnake (drawnCell rnd (randomCalls g + 2 * k)) = false ->
        exists g', keydown rnd budget key now g = Ok g') /\
     (keydown rnd budget key now g = Spinning \/
      exists g', keydown rnd budget key now g = Ok g')).
Proof.
  intros Hr Ho. unfold keydown. rewrite Hr, Ho. cbn [negb andb]. split.
  - intros Hk. rewrite Hk. cbn [bind]. rewrite keySwitch_other_key; [reflexivity|].
    destruct (keyDirection key) as [d|] eqn:Hd; [|reflexivity].
    apply steering_key_starts in Hd. congruence.
  - intros Hk. rewrite Hk. split; [|split].
    + intros g'.
      destruct (initGame rnd budget now g) as [g1| | |] eqn:Hi; cbn [bind];
        try discriminate.
      intros H. injection H as <-.
      apply initGame_returns in Hi.
      destruct Hi as (Hs & Hd & Hn & Hsc & Hrun & _).
      assert (Hh : isHeading (direction g1)) by (rewrite Hd; left; reflexivity).
      destruct (keySwitch_board key g1) as (Hs' & _ & Hrun' & Hd').
      destruct (keySwitch_touch key g1) as (_ & _ & _ & Hsc' & _).
      rewrite Hs', Hrun', Hd', Hsc', Hs, Hd, Hsc, Hrun.
      rewrite (keySwitch_accept key g1 Hh). fields. rewrite Hd, Hn.
      repeat split.
      destruct (keyDirection key) as [d|] eqn:Hkd; cbn [accept]; [|left; reflexivity].
      destruct (keyDirection_heading key d Hkd) as [-> | [-> | [-> | ->]]];
        cbn; tauto.
    + intros k Hlt Hfree.
      destruct (initGame_free_draw rnd budget now g k Hlt Hfree) as [g1 E].
      rewrite E. cbn [bind]. eexists. reflexivity.
    + destruct (initGame_spins_or_returns rnd budget now g) as [E|[g1 E]];
        rewrite E; cbn [bind]; [left; reflexivity | right; eexists; reflexivity].
Qed.

Lemma key_starts_or_does_nothing_witness :
  keydown foodAway 5 "F5" 0%Q boot = Ok boot /\
  exists g', keydown foodAway 5 "ArrowLeft" 0%Q boot = Ok g' /\
    isRunning g' = true /\ score g' = 0 /\
    snake g' = [mkCell 3 6; mkCell 2 6; mkCell 1 6] /\
    direction g' = Right /\ nextDirection g' = Right.
Proof.
  split.
  - apply (proj1 (key_starts_or_does_nothing foodAway 5 "F5" 0%Q boot
                    eq_refl eq_refl)). reflexivity.
  - destruct (proj2 (key_starts_or_does_nothing foodAway 5 "ArrowLeft" 0%Q boot
                       eq_refl eq_refl)) as (Hprops & Hret & _); [reflexivity|].
    destruct (Hret 0%nat) as [g' Hg']; [lia | reflexivity |].
    exists g'. split; [exact Hg'|].
    destruct (Hprops g' Hg') as (H1 & H2 & H3 & H4 & H5 & _).
    repeat split; assumption.
Defined.

(** ** Touches *)

(** X18. A touch is used once. The touchend that follows a touchstart
    returns, at once in a game that has been started and, before the first
    start, as soon as a draw within the budget is off the snake laid out; it
    clears the recorded start, and a further touchend with no new touchstart
    leaves every variable as it is. *)
Theorem one_swipe_per_touch (rnd : nat -> Q) (budget : nat)
    (sx sy cx cy now cx' cy' now' : Q) (g : Game) :
  (forall g', touchend rnd budget cx cy now (touchstart sx sy g) = Ok g' ->
     touchStartX g' = None /\ touchStartY g' = None /\
     touchend rnd budget cx' cy' now' g' = Ok g') /\
  (hasStarted g = true ->
     exists g', touchend rnd budget cx cy now (touchstart sx sy g) = Ok g') /\
  (forall k, (k < budget)%nat ->
     onSnake startSnake (drawnCell rnd (randomCalls g + 2 * k)) = false ->
     exists g', touchend rnd budget cx cy now (touchstart sx sy g) = Ok g').
Proof.
  unfold touchend, touchstart, hasStarted. fields. split; [|split].
  - intros g'.
    destruct (if negb (isRunning g) && negb (isGameOver g)
              then initGame rnd budget now (set_touchStart (Some sx) (Some sy) g)
              else Ok (set_touchStart (Some sx) (Some sy) g)) as [g1| | |];
      cbn [bind]; try discriminate.
    intros H. injection H as <-. fields. repeat split.
  - intros Hst.
    assert (E : negb (isRunning g) && negb (isGameOver g) = false)
      by (destruct (isRunning g), (isGameOver g); try discriminate; reflexivity).
    rewrite E. cbn [bind]. eexists. reflexivity.
  - intros k Hk Hfree.
    destruct (negb (isRunning g) && negb (isGameOver g));
      [|cbn [bind]; eexists; reflexivity].
    destruct (initGame_free_draw rnd budget now
                (set_touchStart (Some sx) (Some sy) g) k Hk Hfree) as [g1 E].
    rewrite E. cbn [bind]. eexists. reflexivity.
Qed.

Lemma one_swipe_per_touch_witness :
  exists g', touchend foodAway 5 12 90 0 (touchstart 10 10 started) = Ok g' /\
    touchStartX g' = None /\ touchStartY g' = None /\
    touchend foodAway 5 0 0 0 g' = Ok g'.
Proof.
  destruct (one_swipe_per_touch foodAway 5 10 10 12 90 0 0 0 0 started)
    as (Hprops & Hret & _).
  destruct (Hret eq_refl) as [g' Hg'].
  exists g'. split; [exact Hg' | exact (Hprops g' Hg')].
Defined.

Lemma Qgt_bool_true (a b : Q) : Qgt_bool a b = true -> (b < a)%Q.
Proof.
  unfold Qgt_bool. intros E. apply negb_true_iff in E.
  apply Qnot_le_lt. intros Hle. apply Qle_bool_iff in Hle. congruence.
Qed.

Lemma Qgt_bool_false (a b : Q) : Qgt_bool a b = false -> (a <= b)%Q.
Proof.
  unfold Qgt_bool. intros E. apply negb_false_iff in E.
  apply Qle_bool_iff. exact E.
Qed.

(** X19. A swipe steers along its longer axis only, the vertical one when
    both are as long: if [|dx| > |dy|] the queued direction becomes right
    (for [dx > 0]) or left (for [dx < 0]) or stays; otherwise it becomes down
    (for [dy > 0]) or up (for [dy < 0]) or stays. A tap, with no movement,
    queues nothing. *)
Theorem swipe_follows_longer_axis (dx dy : Q) (g : Game) :
  ((Qabs dy < Qabs dx)%Q ->
     (nextDirection (swipe dx dy g) = Right /\ (0 < dx)%Q) \/
     (nextDirection (swipe dx dy g) = Left /\ (dx < 0)%Q) \/
     swipe dx dy g = g) /\
  ((Qabs dx <= Qabs dy)%Q ->
     (nextDirection (swipe dx dy g) = Down /\ (0 < dy)%Q) \/
     (nextDirection (swipe dx dy g) = Up /\ (dy < 0)%Q) \/
     swipe dx dy g = g) /\
  ((dx == 0)%Q -> (dy == 0)%Q -> swipe dx dy g = g).
Proof.
  unfold swipe. destruct (Qgt_bool (Qabs dx) (Qabs dy)) eqn:Eaxis.
  - apply Qgt_bool_true in Eaxis. split; [|split].
    + intros _.
      destruct (Qgt_bool dx 0) eqn:E1; cbn [andb].
      * apply Qgt_bool_true in E1.
        destruct (negb (px (direction g) =? -1)); [left; split; [reflexivity | exact E1]|].
        destruct (Qgt_bool 0 dx) eqn:E2; cbn [andb]; [|right; right; reflexivity].
        apply Qgt_bool_true in E2. lra.
      * destruct (Qgt_bool 0 dx) eqn:E2; cbn [andb]; [|right; right; reflexivity].
        apply Qgt_bool_true in E2.
        destruct (negb (px (direction g) =? 1));
          [right; left; split; [reflexivity | exact E2] | right; right; reflexivity].
    + intros Hle. lra.
    + intros Hx Hy. rewrite Hx, Hy in Eaxis. vm_compute in Eaxis. discriminate.
  - apply Qgt_bool_false in Eaxis. split; [|split].
    + intros Hlt. lra.
    + intros _.
      destruct (Qgt_bool dy 0) eqn:E1; cbn [andb].
      * apply Qgt_bool_true in E1.
        destruct (negb (py (direction g) =? -1)); [left; split; [reflexivity | exact E1]|].
        destruct (Qgt_bool 0 dy) eqn:E2; cbn [andb]; [|right; right; reflexivity].
        apply Qgt_bool_true in E2. lra.
      * destruct (Qgt_bool 0 dy) eqn:E2; cbn [andb]; [|right; right; reflexivity].
        apply Qgt_bool_true in E2.
        destruct (negb (py (direction g) =? 1));
          [right; left; split; [reflexivity | exact E2] | right; right; reflexivity].
    + intros Hx Hy.
      destruct (Qgt_bool dy 0) eqn:E1; [apply Qgt_bool_true in E1; lra|].
      destruct (Qgt_bool 0 dy) eqn:E2; [apply Qgt_bool_true in E2; lra|].
      reflexivity.
Qed.

Lemma swipe_follows_longer_axis_witness :
  nextDirection (swipe 2 80 started) = Down /\ (0 < 80)%Q.
Proof.
  destruct (proj1 (proj2 (swipe_follows_longer_axis 2 80 started))) as [H|[H|H]].
  - vm_compute; congruence.
  - exact H.
  - destruct H as [H _]. vm_compute in H. discriminate.
  - apply (f_equal nextDirection) in H. vm_compute in H. discriminate.
Defined.

(** ** Drawing *)

Lemma session_snapshots_on_board (rnd : nat -> Q) (budget : nat) (evs : list Event)
    (g : Game) :
  run rnd budget evs boot = Ok g ->
  Forall inGrid (snake g) /\
  (forall p, previousSnake g = Some p -> Forall inGrid p).
Proof.
  apply (run_preserves_board rnd budget
           (fun g => Forall inGrid (snake g) /\
                     (forall p, previousSnake g = Some p -> Forall inGrid p)));
    try (intros; fields; assumption).
  - intros now g0 g1 _ Hi.
    destruct (initGame_rest rnd budget now g0 g1 Hi) as (Hp & _).
    apply initGame_returns in Hi. destruct Hi as (Hs & _).
    assert (Hb : Forall inGrid (snake g1)).
    { rewrite Hs. repeat constructor; unfold tileCount; simpl; lia. }
    split; [exact Hb|]. intros p E. congruence.
  - intros g0 g1 [Hb _] H. split.
    + eapply step_keeps_on_board; eassumption.
    + intros p E. rewrite (step_snapshot rnd budget g0 g1 H) in E. congruence.
  - split; [constructor | discriminate].
Qed.

Lemma inGrid_inject (c : Cell) :
  inGrid c ->
  (0 <= inject_Z (px c))%Q /\ (inject_Z (px c) <= 12)%Q /\
  (0 <= inject_Z (py c))%Q /\ (inject_Z (py c) <= 12)%Q.
Proof.
  unfold inGrid, tileCount. intros [Hx Hy].
  change 0%Q with (inject_Z 0). change 12%Q with (inject_Z 12).
  rewrite <- !Zle_Qle. lia.
Qed.

Lemma between_cells (p c t s : Q) :
  (0 <= p)%Q -> (p <= 12)%Q -> (0 <= c)%Q -> (c <= 12)%Q ->
  (0 <= t)%Q -> (t <= 1)%Q -> (0 <= s)%Q ->
  (s * 0.5 <= (p + (c - p) * t + 0.5) * s)%Q /\
  ((p + (c - p) * t + 0.5) * s <= s * 12.5)%Q.
Proof.
  intros Hp0 Hp1 Hc0 Hc1 Ht0 Ht1 Hs.
  assert (Hm0 : (0 <= p + (c - p) * t)%Q) by nra.
  assert (Hm1 : (p + (c - p) * t <= 12)%Q) by nra.
  split; nra.
Qed.

(** X20. In every state of a session, for a tile size that is not negative
    and an [interp] between 0 and 1, every center [drawSnake] computes lies on
    the canvas, at least half a tile from each of its edges. *)
Theorem centers_stay_on_canvas (rnd : nat -> Q) (budget : nat) (evs : list Event)
    (g : Game) (tileSize interp : Q) (pt : Point) :
  run rnd budget evs boot = Ok g ->
  (0 <= tileSize)%Q -> (0 <= interp)%Q -> (interp <= 1)%Q ->
  In pt (centers tileSize interp g) ->
  (tileSize * 0.5 <= ptx pt)%Q /\ (ptx pt <= tileSize * 12.5)%Q /\
  (tileSize * 0.5 <= pty pt)%Q /\ (pty pt <= tileSize * 12.5)%Q.
Proof.
  intros H Hs Ht0 Ht1 Hin.
  destruct (session_snapshots_on_board rnd budget evs g H) as [Hb Hp].
  apply In_nth_error in Hin. destruct Hin as [i Hi].
  unfold centers in Hi. rewrite centersFrom_nth in Hi. cbn [Nat.add] in Hi.
  destruct (nth_error (snake g) i) as [cur|] eqn:Hcur; [|discriminate].
  cbn [option_map] in Hi. injection Hi as <-.
  assert (Hc : inGrid cur).
  { rewrite Forall_forall in Hb. apply Hb. eapply nth_error_In; exact Hcur. }
  set (from := match previousSnake g with Some p => p | None => snake g end).
  assert (Hfrom : Forall inGrid from).
  { unfold from. destruct (previousSnake g) as [p|]; [apply Hp; reflexivity | exact Hb]. }
  assert (Hprev : inGrid (match nth_error from i with Some p => p | None => cur end)).
  { destruct (nth_error from i) as [p|] eqn:E; [|exact Hc].
    rewrite Forall_forall in Hfrom. apply Hfrom. eapply nth_error_In; exact E. }
  unfold centerAt. cbv zeta. cbn [ptx pty].
  apply inGrid_inject in Hc. apply inGrid_inject in Hprev.
  destruct Hc as (C1 & C2 & C3 & C4). destruct Hprev as (P1 & P2 & P3 & P4).
  destruct (between_cells _ _ interp tileSize P1 P2 C1 C2 Ht0 Ht1 Hs) as [X1 X2].
  destruct (between_cells _ _ interp tileSize P3 P4 C3 C4 Ht0 Ht1 Hs) as [Y1 Y2].
  repeat split; assumption.
Qed.

Lemma centers_stay_on_canvas_witness :
  run foodAhead 5 [KeyDown "d" 0%Q; AnimationFrame 200%Q] boot = Ok justAte /\
  (20 * 0.5 <= (3 + (4 - 3) * (1 # 2) + 0.5) * 20)%Q.
Proof.
  split; [vm_compute; reflexivity|].
  apply (centers_stay_on_canvas foodAhead 5 [KeyDown "d" 0%Q; AnimationFrame 200%Q]
           justAte 20 (1 # 2)
           (mkPoint ((3 + (4 - 3) * (1 # 2) + 0.5) * 20)
                    ((6 + (6 - 6) * (1 # 2) + 0.5) * 20)));
    try (vm_compute; congruence).
  left. reflexivity.
Defined.

(** X21. [drawBoard] paints the 169 cells of the board, each once, row by row:
    the call number [13 y + x] fills the square of side [tileSize] at
    [(x * tileSize, y * tileSize)], light when [x + y] is even and dark when
    it is odd, so that two cells that share an edge get different colours. *)
Theorem board_is_a_checkerboard (tileSize : Q) (x y : Z) :
  0 <= x < tileCount -> 0 <= y < tileCount ->
  List.length (drawBoard tileSize) = 169%nat /\
  nth_error (drawBoard tileSize) (Z.to_nat (13 * y + x)) =
    Some (mkFillRect (if (x + y) mod 2 =? 0 then "#b1dd66" else "#a3d159")
            (inject_Z x * tileSize) (inject_Z y * tileSize) tileSize tileSize) /\
  (forall r r', nth_error (drawBoard tileSize) (Z.to_nat (13 * y + x)) = Some r ->
     (x + 1 < tileCount ->
        nth_error (drawBoard tileSize) (Z.to_nat (13 * y + (x + 1))) = Some r' ->
        fillStyle r <> fillStyle r') /\
     (y + 1 < tileCount ->
        nth_error (drawBoard tileSize) (Z.to_nat (13 * (y + 1) + x)) = Some r' ->
        fillStyle r <> fillStyle r')).
Proof.
  intros Hx Hy.
  pose proof (In_range tileCount x Hx) as Ix.
  pose proof (In_range tileCount y Hy) as Iy.
  vm_compute in Ix, Iy.
  split; [reflexivity|].
  repeat (destruct Ix as [<-|Ix]); try contradiction;
    repeat (destruct Iy as [<-|Iy]); try contradiction;
    (split; [reflexivity|]);
    intros r r' Hr; injection Hr as <-;
    (split; intros Hlt Hr'; [|]);
    try (exfalso; unfold tileCount in Hlt; lia);
    injection Hr' as <-; discriminate.
Qed.

Lemma board_is_a_checkerboard_witness :
  nth_error (drawBoard 20) (Z.to_nat (13 * 6 + 3)) =
    Some (mkFillRect "#a3d159" (inject_Z 3 * 20) (inject_Z 6 * 20) 20 20).
Proof.
  apply (board_is_a_checkerboard 20 3 6); unfold tileCount; lia.
Defined.

(** X22. For a positive tile size the apple stays in the tile of the food: the
    disc of [drawFood] and both ends of its stem lie strictly inside the
    square of the food cell. *)
Theorem apple_stays_in_its_tile (tileSize : Q) (food : Cell) :
  (0 < tileSize)%Q ->
  let left := (inject_Z (px food) * tileSize)%Q in
  let top := (inject_Z (py food) * tileSize)%Q in
  let disc := appleDisc tileSize food in
  let stem := appleStem tileSize food in
  (left < centerX disc - radius disc)%Q /\
  (centerX disc + radius disc < left + tileSize)%Q /\
  (top < centerY disc - radius disc)%Q /\
  (centerY disc + radius disc < top + tileSize)%Q /\
  (left < ptx (fst stem) < left + tileSize)%Q /\
  (top < pty (fst stem) < top + tileSize)%Q /\
  (left < ptx (snd stem) < left + tileSize)%Q /\
  (top < pty (snd stem) < top + tileSize)%Q.
Proof.
  intros Hs. unfold appleDisc, appleStem. cbv zeta.
  cbn [centerX centerY radius fst snd ptx pty].
  set (X := inject_Z (px food)). set (Y := inject_Z (py food)).
  repeat split; nra.
Qed.

Lemma apple_stays_in_its_tile_witness :
  (inject_Z 8 * 20 < centerX (appleDisc 20 (mkCell 8 8)) - radius (appleDisc 20 (mkCell 8 8)))%Q.
Proof.
  apply (apple_stays_in_its_tile 20 (mkCell 8 8)). reflexivity.
Defined.

(** X23. The bite is cut while the timer is positive, and only then; for a
    positive tile size its radius is then at least a quarter of a tile and
    at most 0.4 tile, which it is from 200 ms on. *)
Theorem bite_radius_is_bounded (tileSize eatAnimMs : Q) :
  (0 < tileSize)%Q ->
  (mouthOpen eatAnimMs = true <-> (0 < eatAnimMs)%Q) /\
  ((0 < eatAnimMs)%Q ->
     (tileSize * 0.25 <= mouthRadius tileSize eatAnimMs)%Q /\
     (mouthRadius tileSize eatAnimMs <= tileSize * 0.4)%Q) /\
  ((200 <= eatAnimMs)%Q -> (mouthRadius tileSize eatAnimMs == tileSize * 0.4)%Q).
Proof.
  intros Hs. unfold mouthOpen, mouthRadius. cbv zeta. split; [|split].
  - split; [apply Qgt_bool_true|].
    intros H. destruct (Qgt_bool eatAnimMs 0) eqn:E; [reflexivity|].
    apply Qgt_bool_false in E. lra.
  - intros He.
    assert (Hq : (0 < eatAnimMs / 200)%Q) by (apply Qlt_shift_div_l; lra).
    destruct (Q.min_spec 1 (eatAnimMs / 200)) as [[_ E]|[Hle E]]; rewrite E; split; nra.
  - intros He.
    assert (Hq : (1 <= eatAnimMs / 200)%Q) by (apply Qle_shift_div_l; lra).
    rewrite Q.min_l by exact Hq. ring.
Qed.

Lemma bite_radius_is_bounded_witness :
  (20 * 0.25 <= mouthRadius 20 100)%Q /\ (mouthRadius 20 100 <= 20 * 0.4)%Q.
Proof.
  apply (proj1 (proj2 (bite_radius_is_bounded 20 100 eq_refl))). reflexivity.
Defined.

(** X24. Whatever the direction, for a tile size that is not negative the two
    eyes and the two pupils of [drawSnake] lie within half a tile of the
    center of the head on both axes, and each pupil has the center of its eye
    and half its radius. *)
Theorem eyes_stay_in_the_head_tile (tileSize : Q) (d : Cell) (head : Point) (c : Circle) :
  (0 <= tileSize)%Q ->
  In c (eyes tileSize d head) ->
  (ptx head - tileSize * 0.5 <= centerX c - radius c)%Q /\
  (centerX c + radius c <= ptx head + tileSize * 0.5)%Q /\
  (pty head - tileSize * 0.5 <= centerY c - radius c)%Q /\
  (centerY c + radius c <= pty head + tileSize * 0.5)%Q /\
  exists e1 e2 p1 p2, eyes tileSize d head = [e1; e2; p1; p2] /\
    centerX p1 = centerX e1 /\ centerY p1 = centerY e1 /\
    centerX p2 = centerX e2 /\ centerY p2 = centerY e2 /\
    (radius p1 * 2 == radius e1)%Q /\ (radius p2 * 2 == radius e2)%Q.
Proof.
  intros Hs Hin. unfold eyes, eyeOffset in *. cbv zeta in *.
  split; [|split; [|split; [|split]]].
  5: { do 4 eexists. split; [reflexivity|]. cbn [centerX centerY radius].
       repeat split; ring. }
  all: destruct (px d =? 1); [|destruct (px d =? -1);
         [|destruct (py d =? 1); [|destruct (py d =? -1)]]];
       cbn [fst snd] in Hin;
       destruct Hin as [<-|[<-|[<-|[<-|[]]]]]; cbn [centerX centerY radius]; lra.
Qed.

Lemma eyes_stay_in_the_head_tile_witness :
  (50 + 20 * 0.12 + 20 * 0.18 + 20 * 0.14 <= 50 + 20 * 0.5)%Q.
Proof.
  apply (eyes_stay_in_the_head_tile 20 Right (mkPoint 50 50)
           (mkCircle (50 + 20 * 0.12 + 20 * 0.18) (50 - 20 * 0.1 + 0) (20 * 0.14))).
  - discriminate.
  - right. left. reflexivity.
Defined.

(** X25. [resizeCanvas] never makes the canvas smaller than 260 pixels nor a
    tile smaller than 20; in a wrapper of less than 276 pixels on one side
    the canvas is 260 pixels wide, and in a wrapper of at least 276 by 276
    its side is the smaller of the width and the height less 16. *)
Theorem canvas_is_at_least_260 (clientWidth clientHeight : Z) :
  let side := fst (resizeCanvas clientWidth clientHeight) in
  let tileSize := snd (resizeCanvas clientWidth clientHeight) in
  260 <= side /\ (20 <= tileSize)%Q /\
  (clientWidth < 276 \/ clientHeight < 276 -> side = 260) /\
  (276 <= clientWidth -> 276 <= clientHeight ->
     side = Z.min clientWidth clientHeight - 16).
Proof.
  unfold resizeCanvas. cbv zeta. cbn [fst snd].
  set (side := Z.max 260 (Z.min (clientWidth - 16) (clientHeight - 16))).
  assert (H260 : 260 <= side) by (unfold side; lia).
  split; [exact H260|]. split; [|split].
  - apply Qle_shift_div_l; [reflexivity|].
    change (inject_Z tileCount) with 13%Q. change (20 * 13)%Q with (inject_Z 260).
    rewrite <- Zle_Qle. exact H260.
  - intros Hsmall. unfold side. lia.
  - intros Hw Hh. unfold side. lia.
Qed.

Lemma canvas_is_at_least_260_witness :
  fst (resizeCanvas 200 900) = 260 /\ fst (resizeCanvas 433 900) = 417.
Proof.
  split.
  - apply (proj1 (proj2 (proj2 (canvas_is_at_least_260 200 900)))). left. lia.
  - apply (proj2 (proj2 (proj2 (canvas_is_at_least_260 433 900)))); lia.
Defined.
